(** * clipsai.resize: a shallow embedding of the auto-reframing engine

    The definitions below follow [src/clipsai/resize/resizer.py] and
    [src/clipsai/resize/segment.py].

    Conventions of the embedding:
    - Python [int] is [Z]; [//] on ints is [Z.div] (floor), and raises
      [ZeroDivisionError] on a zero divisor.
    - Python [float] is modelled by exact rationals [Q].  Every float the
      modelled code computes is a quotient, sum or difference of inputs, and
      the code only compares them or truncates them; the embedding is exact
      whenever the float operations are (in particular on the concrete
      inputs evaluated below).  Where the rounding of a quotient shows at
      ordinary video sizes (the downsample factor of [_calc_n_batches]),
      the quotient is rounded to the nearest double ([double_quotient]).
    - The fields of the rectangles built from face boxes are [np.int16]:
      the arithmetic of [iou] on them wraps around at 16 bits ([int16]).
    - A raised exception is the [Raise] result of a small error monad.
    - A dict whose key set matters (the split-screen sub-crop) is a
      [gmap string Z]; a dict with a fixed key set is a record. *)

From Stdlib Require Import ZArith QArith Qround Lia Lqa.
From Stdlib Require SpecFloat.
From stdpp Require Import base option list strings gmap.

Open Scope Z_scope.

(** ** Exceptions and the error monad *)

Inductive exn : Type :=
| ZeroDivisionError
| IndexError
| KeyError (key : string)
| ResizerError (msg : string).

(** [OutOfFuel] is not a Python outcome: it marks a loop of the embedding
    that was cut off before its guard became false. *)
Inductive result (A : Type) : Type :=
| Ok (a : A)
| Raise (e : exn)
| OutOfFuel.

Arguments Ok {A} a.
Arguments Raise {A} e.
Arguments OutOfFuel {A}.

Definition bind {A B : Type} (k : A -> result B) (r : result A) : result B :=
  match r with
  | Ok a => k a
  | Raise e => Raise e
  | OutOfFuel => OutOfFuel
  end.

#[global] Instance result_ret : MRet result := fun _ a => Ok a.
#[global] Instance result_bind : MBind result := fun _ _ k r => bind k r.

(** [while cond: body], unrolled at most [fuel] times. *)
Fixpoint while_loop {S : Type} (fuel : nat) (cond : S -> bool)
    (body : S -> result S) (s : S) : result S :=
  if cond s then
    match fuel with
    | O => OutOfFuel
    | Datatypes.S fuel' => s' ← body s; while_loop fuel' cond body s'
    end
  else Ok s.

(** [for x in xs: body], threading the loop state. *)
Fixpoint for_each {S A : Type} (body : S -> A -> result S) (xs : list A)
    (s : S) : result S :=
  match xs with
  | [] => Ok s
  | x :: xs' => s' ← body s x; for_each body xs' s'
  end.

(** ** Python numeric primitives *)

(** [a / b] on two ints: true division. *)
Definition py_truediv (a b : Z) : result Q :=
  if b =? 0 then Raise ZeroDivisionError
  else Ok (inject_Z a / inject_Z b)%Q.

(** The double nearest to the quotient of two ints, as an exact rational:
    Python's [a / b] on ints is the correctly rounded quotient.  A
    quotient beyond the range of doubles, where Python raises
    [OverflowError], is left unrounded: no video has such a size. *)
Definition double_quotient (a b : Z) : Q :=
  let negative := xorb (a <? 0) (b <? 0) in
  let '(mz, ez, lz) :=
    SpecFloat.SFdiv_core_binary 53 1024 (Z.abs a) 0 (Z.abs b) 0 in
  match SpecFloat.binary_round_aux 53 1024 negative mz ez lz with
  | SpecFloat.S754_zero _ => 0%Q
  | SpecFloat.S754_finite s m e =>
      (inject_Z (if s then Z.neg m else Z.pos m) * Qpower 2 e)%Q
  | _ => (inject_Z a / inject_Z b)%Q
  end.

(** [a / b] on two ints, with the rounding of the quotient to a double
    written out: used where the rounding shows at ordinary sizes. *)
Definition py_truediv_double (a b : Z) : result Q :=
  if b =? 0 then Raise ZeroDivisionError else Ok (double_quotient a b).

(** [a // b] on two ints. *)
Definition py_floordiv (a b : Z) : result Z :=
  if b =? 0 then Raise ZeroDivisionError else Ok (a / b).

(** [int(q)]: truncation toward zero. *)
Definition py_int (q : Q) : Z := Z.quot (Qnum q) (Zpos (Qden q)).

Definition Qlt_bool (a b : Q) : bool := negb (Qle_bool b a).

(** [l[a:b]] for [0 <= a], [0 <= b]. *)
Definition py_slice {A : Type} (a b : nat) (l : list A) : list A :=
  take (b - a)%nat (drop a l).

(** ** Data model *)

(** Modelled from the spec: [rect.py] is not part of the sources; a [Rect]
    is {x, y, width, height} in source pixel coordinates, and keeps the
    values it is given (ints, or the 16-bit integers of a face box). *)
Module Rect.
Record t : Type := mk { x : Z; y : Z; width : Z; height : Z }.
End Rect.

(** A speaker segment dict: {speakers, start_time, end_time}. *)
Module SpeakerSegment.
Record t : Type :=
  mk { speakers : list Z; start_time : Q; end_time : Q }.
Definition set_start_time (s : t) (v : Q) : t :=
  mk (speakers s) v (end_time s).
Definition set_end_time (s : t) (v : Q) : t :=
  mk (speakers s) (start_time s) v.
End SpeakerSegment.

(** The segment dict while [_find_first_sec_with_face_for_each_segment]
    runs: the speaker segment and the keys the scanner adds. *)
Module ScanSegment.
Record t : Type :=
  mk { seg : SpeakerSegment.t;
       first_face_sec : Q;
       found_face : bool;
       is_analyzed : bool;
       num_samples : Z }.
End ScanSegment.

(** The segment dict after the layout stage.  [crop_type] is ["single"]
    (keys x, y) or ["split"] (key crops, a list of sub-crop dicts); any
    other dict is [Other]. *)
Inductive crop_info : Type :=
| Single (x y : Z)
| Split (crops : list (gmap string Z))
| Other (crop_type : string).

Module CropSegment.
Record t : Type :=
  mk { speakers : list Z; start_time : Q; end_time : Q; crop : crop_info }.
Definition crop_type (s : t) : string :=
  match crop s with
  | Single _ _ => "single"
  | Split _ => "split"
  | Other c => c
  end.
Definition x (s : t) : result Z :=
  match crop s with Single x _ => Ok x | _ => Raise (KeyError "x") end.
Definition y (s : t) : result Z :=
  match crop s with Single _ y => Ok y | _ => Raise (KeyError "y") end.
Definition crops (s : t) : result (list (gmap string Z)) :=
  match crop s with Split cs => Ok cs | _ => Raise (KeyError "crops") end.
End CropSegment.

(** [d[k]] on a sub-crop dict. *)
Definition getitem (d : gmap string Z) (k : string) : result Z :=
  match d !! k with
  | Some v => Ok v
  | None => Raise (KeyError k)
  end.

(** [segment.py]: the [Segment] class. *)
Module Segment.
Record t : Type :=
  mk { speakers : list Z; start_time : Q; end_time : Q;
       x : Z; y : Z;
       width : option Z; height : option Z;
       target_x : option Z; target_y : option Z }.

(** [Segment.__bool__] *)
Definition __bool__ (s : t) : bool :=
  negb (bool_decide (speakers s = []))
  && negb (Qeq_bool (start_time s) 0)
  && negb (Qeq_bool (end_time s) 0)
  && negb (x s =? 0)
  && negb (y s =? 0).
End Segment.

(** ** Resize dimensions ([Resizer._calc_resize_width_and_height_pixels]) *)

Definition _calc_resize_width_and_height_pixels
    (original_width_pixels original_height_pixels : Z)
    (resize_aspect_ratio : Z * Z) : result (Z * Z) :=
  let '(resize_ar_width, resize_ar_height) := resize_aspect_ratio in
  desired_aspect_ratio ← py_truediv resize_ar_width resize_ar_height;
  original_aspect_ratio ←
    py_truediv original_width_pixels original_height_pixels;
  if Qlt_bool desired_aspect_ratio original_aspect_ratio then
    let resize_height_pixels := original_height_pixels in
    q ← py_truediv (resize_height_pixels * resize_ar_width) resize_ar_height;
    Ok (py_int q, resize_height_pixels)
  else
    let resize_width_pixels := original_width_pixels in
    q ← py_truediv (resize_width_pixels * resize_ar_height) resize_ar_width;
    Ok (resize_width_pixels, py_int q).

(** ** TimelineMerger ([Resizer._merge_scene_change_and_speaker_segments]) *)

(** [segment = speaker_segments[segments_idx]] followed by
    [while scene_change_sec > segment["end_time"]: segments_idx += 1; ...];
    [rest] is [speaker_segments[segments_idx:]]. *)
Fixpoint advance_cursor (rest : list SpeakerSegment.t) (segments_idx : nat)
    (scene_change_sec : Q) : result nat :=
  match rest with
  | [] => Raise IndexError
  | segment :: rest' =>
      if Qlt_bool (SpeakerSegment.end_time segment) scene_change_sec
      then advance_cursor rest' (S segments_idx) scene_change_sec
      else Ok segments_idx
  end.

(** [speaker_segments[i]] for [0 <= i]. *)
Definition list_get {A : Type} (l : list A) (i : nat) : result A :=
  match l !! i with
  | Some a => Ok a
  | None => Raise IndexError
  end.

(** One iteration of [for scene_change_sec in scene_changes]. *)
Definition merge_scene_change (scene_merge_threshold : Q)
    (st : list SpeakerSegment.t * nat) (scene_change_sec : Q)
    : result (list SpeakerSegment.t * nat) :=
  let '(speaker_segments, segments_idx) := st in
  segments_idx ←
    advance_cursor (drop segments_idx speaker_segments) segments_idx
      scene_change_sec;
  segment ← list_get speaker_segments segments_idx;
  let to_end := (SpeakerSegment.end_time segment - scene_change_sec)%Q in
  let from_start := (scene_change_sec - SpeakerSegment.start_time segment)%Q in
  if Qlt_bool 0 to_end && Qlt_bool to_end scene_merge_threshold then
    (* scene change is close to speaker segment end *)
    let speaker_segments :=
      <[segments_idx := SpeakerSegment.set_end_time segment scene_change_sec]>
        speaker_segments in
    if (S segments_idx =? length speaker_segments)%nat then
      Ok (speaker_segments, segments_idx)
    else
      next_segment ← list_get speaker_segments (S segments_idx);
      Ok (<[S segments_idx :=
              SpeakerSegment.set_start_time next_segment scene_change_sec]>
            speaker_segments, segments_idx)
  else if Qlt_bool 0 from_start && Qlt_bool from_start scene_merge_threshold
  then
    (* scene change is close to speaker segment start *)
    let speaker_segments :=
      <[segments_idx :=
          SpeakerSegment.set_start_time segment scene_change_sec]>
        speaker_segments in
    match segments_idx with
    | O => Ok (speaker_segments, segments_idx)
    | S prev_idx =>
        prev_segment ← list_get speaker_segments prev_idx;
        Ok (<[prev_idx :=
                SpeakerSegment.set_end_time prev_segment scene_change_sec]>
              speaker_segments, segments_idx)
    end
  else if Qeq_bool scene_change_sec (SpeakerSegment.end_time segment) then
    (* scene change already exists *)
    Ok (speaker_segments, segments_idx)
  else
    (* add scene change to segments *)
    let new_segment :=
      SpeakerSegment.mk (SpeakerSegment.speakers segment) scene_change_sec
        (SpeakerSegment.end_time segment) in
    let speaker_segments :=
      <[segments_idx := SpeakerSegment.set_end_time segment scene_change_sec]>
        speaker_segments in
    Ok (take (S segments_idx) speaker_segments
          ++ [new_segment]
          ++ drop (S segments_idx) speaker_segments,
        segments_idx).

Definition _merge_scene_change_and_speaker_segments
    (speaker_segments : list SpeakerSegment.t) (scene_changes : list Q)
    (scene_merge_threshold : Q) : result (list SpeakerSegment.t) :=
  st ← for_each (merge_scene_change scene_merge_threshold) scene_changes
         (speaker_segments, 0%nat);
  Ok (fst st).

(** ** BatchSizer ([Resizer._calc_n_batches]) *)

Section BatchSizer.
(** [img_proc.calc_img_bytes] is not part of the sources: it is a
    parameter of the embedding. *)
Variable calc_img_bytes : Z -> Z -> Z -> Z.

(** [vid_height], [vid_width]: [video_file.get_height_pixels()] and
    [get_width_pixels()]; [free_cpu_memory]:
    [pytorch.get_free_cpu_memory()]; [cuda_is_available]:
    [torch.cuda.is_available()].  The calls of [bytes_to_gibibytes] and
    [logging.debug] only format their arguments; the floor divisions
    that compute those arguments are kept. *)
Definition _calc_n_batches (vid_height vid_width : Z)
    (free_cpu_memory : Z) (cuda_is_available : bool)
    (num_frames face_detect_width n_face_detect_batches : Z) : result Z :=
  let num_color_channels := 3 in
  let bytes_per_frame :=
    calc_img_bytes vid_height vid_width num_color_channels in
  let total_extract_bytes := num_frames * bytes_per_frame in
  ratio ← py_truediv_double vid_width face_detect_width;
  let downsample_factor := if Qlt_bool ratio 1 then 1%Q else ratio in
  (* [vid_height // downsample_factor]: the floor of the quotient by the
     double *)
  let face_detect_height :=
    Qfloor (inject_Z vid_height / downsample_factor)%Q in
  let bytes_per_frame :=
    calc_img_bytes face_detect_height face_detect_width num_color_channels in
  let total_face_detect_bytes := num_frames * bytes_per_frame in
  '(total_extract_bytes, n_extract_batches, n_face_detect_batches) ←
    (if cuda_is_available then
       q ← py_floordiv total_extract_bytes free_cpu_memory;
       Ok (total_extract_bytes, q + 1, n_face_detect_batches)
     else
       let total_extract_bytes :=
         total_extract_bytes + total_face_detect_bytes in
       q ← py_floordiv total_extract_bytes free_cpu_memory;
       Ok (total_extract_bytes, q + 1, 0));
  let n_batches := Z.max n_extract_batches n_face_detect_batches in
  _ ← py_floordiv total_extract_bytes n_batches;
  _ ← (if n_face_detect_batches =? 0 then Ok 0
       else py_floordiv total_face_detect_bytes n_batches);
  Ok n_batches.
End BatchSizer.

(** ** ROIMerger ([Resizer.iou], [Resizer.union_rois], [Resizer.merge_rois]) *)

(** The rectangles that reach [iou] are built in [_calc_segment_rois]
    from the face boxes, which [_detect_faces] casts to [np.int16]: their
    fields are 16-bit integers, and a sum, difference or product of two
    of them wraps around at 16 bits. *)
Definition int16 (z : Z) : Z := (z + 32768) mod 65536 - 32768.

Definition iou (rect1 rect2 : Rect.t) : Q :=
  let x1 := Z.max (Rect.x rect1) (Rect.x rect2) in
  let y1 := Z.max (Rect.y rect1) (Rect.y rect2) in
  let x2 := Z.min (int16 (Rect.x rect1 + Rect.width rect1))
                  (int16 (Rect.x rect2 + Rect.width rect2)) in
  let y2 := Z.min (int16 (Rect.y rect1 + Rect.height rect1))
                  (int16 (Rect.y rect2 + Rect.height rect2)) in
  let intersection :=
    int16 (Z.max 0 (int16 (x2 - x1)) * Z.max 0 (int16 (y2 - y1))) in
  let union :=
    int16 (int16 (int16 (Rect.width rect1 * Rect.height rect1)
                  + int16 (Rect.width rect2 * Rect.height rect2))
           - intersection) in
  if 0 <? union then (inject_Z intersection / inject_Z union)%Q else 0%Q.

Definition union_rois (rect1 rect2 : Rect.t) : Rect.t :=
  let x := Z.min (Rect.x rect1) (Rect.x rect2) in
  let y := Z.min (Rect.y rect1) (Rect.y rect2) in
  let width := Z.max (Rect.x rect1 + Rect.width rect1)
                     (Rect.x rect2 + Rect.width rect2) - x in
  let height := Z.max (Rect.y rect1 + Rect.height rect1)
                      (Rect.y rect2 + Rect.height rect2) - y in
  Rect.mk x y width height.

(** State of the inner loop of [merge_rois]: [(roi, rois, i)]. *)
Definition absorb_cond (st : Rect.t * list Rect.t * nat) : bool :=
  let '(_, rois, i) := st in (i <? length rois)%nat.

Definition absorb_body (overlap_threshold : Q)
    (st : Rect.t * list Rect.t * nat) : result (Rect.t * list Rect.t * nat) :=
  let '(roi, rois, i) := st in
  r ← list_get rois i;
  if Qlt_bool overlap_threshold (iou roi r)
  then Ok (union_rois roi r, delete i rois, i)
  else Ok (roi, rois, S i).

(** State of the outer loop: [(rois, merged)].  Each inner iteration either
    removes an element of [rois] or advances [i], so [len(rois)]
    iterations are enough for the inner loop; each outer iteration pops the
    head of [rois]. *)
Definition merge_rois_body (overlap_threshold : Q)
    (st : list Rect.t * list Rect.t) : result (list Rect.t * list Rect.t) :=
  let '(rois, merged) := st in
  match rois with
  | [] => Raise IndexError
  | roi :: rois =>
      '(roi, rois, _) ←
        while_loop (length rois) absorb_cond (absorb_body overlap_threshold)
          (roi, rois, 0%nat);
      Ok (rois, merged ++ [roi])
  end.

Definition merge_rois (rois : list Rect.t) (overlap_threshold : Q)
    : result (list Rect.t) :=
  st ← while_loop (length rois)
         (fun st : list Rect.t * list Rect.t =>
            negb (bool_decide (fst st = [])))
         (merge_rois_body overlap_threshold) (rois, []);
  Ok (snd st).

Definition default_overlap_threshold : Q := 0.5.

(** ** LayoutCalculator ([Resizer._calc_crop],
       [Resizer._calc_split_screen_crops]) *)

Definition _calc_crop (roi : Rect.t) (resize_width resize_height : Z)
    : Rect.t :=
  let roi_x_center := Rect.x roi + Rect.width roi / 2 in
  let roi_y_center := Rect.y roi + Rect.height roi / 2 in
  Rect.mk (Z.max (roi_x_center - resize_width / 2) 0)
          (Z.max (roi_y_center - resize_height / 2) 0)
          resize_width resize_height.

(** [enumerate(xs)] *)
Definition enumerate {A : Type} (xs : list A) : list (Z * A) :=
  imap (fun i a => (Z.of_nat i, a)) xs.

(** [math.ceil(math.sqrt(n))] for an int [n >= 0]. *)
Definition ceil_sqrt (n : Z) : Z := Z.sqrt_up n.

Definition _calc_split_screen_crops (rois : list Rect.t)
    (resize_width resize_height : Z) : list (gmap string Z) :=
  let n_rois := Z.of_nat (length rois) in
  if n_rois =? 2 then
    (* for two ROIs, split the screen vertically *)
    (fun '(i, roi) =>
       let crop := _calc_crop roi resize_width (resize_height / 2) in
       <["x" := Rect.x crop]> (
       <["y" := Rect.y crop]> (
       <["width" := resize_width]> (
       <["height" := resize_height / 2]> (
       <["target_y" := i * (resize_height / 2)]> ∅)))))
    <$> enumerate rois
  else if 2 <? n_rois then
    (* for more than two ROIs, use a grid layout *)
    let grid_size := ceil_sqrt n_rois in
    let cell_width := resize_width / grid_size in
    let cell_height := resize_height / grid_size in
    (fun '(i, roi) =>
       let crop := _calc_crop roi cell_width cell_height in
       <["x" := Rect.x crop]> (
       <["y" := Rect.y crop]> (
       <["width" := cell_width]> (
       <["height" := cell_height]> (
       <["target_x" := (i `mod` grid_size) * cell_width]> (
       <["target_y" := (i / grid_size) * cell_height]> ∅))))))
    <$> enumerate rois
  else [].

(** ** ROIExtractor: the ROI loop of
       [Resizer._add_x_y_coords_to_each_segment_batch] *)

(** A face detection of one frame: [None], or the bounding boxes
    [x1, y1, x2, y2] of the faces. *)
Definition bbox : Type := Z * Z * Z * Z.
Definition face_detection : Type := option (list bbox).

Definition _calc_segment_rois (face_detections : list face_detection)
    : result (list Rect.t) :=
  let rois :=
    flat_map
      (fun fd : face_detection =>
         match fd with
         | Some boxes =>
             (fun '(x1, y1, x2, y2) => Rect.mk x1 y1 (x2 - x1) (y2 - y1))
               <$> boxes
         | None => []
         end)
      face_detections in
  (* merge overlapping ROIs *)
  merge_rois rois default_overlap_threshold.

(** The segment dict when the ROI loop starts: [num_samples] is the number
    of frames the sampling loop took for the segment (set only when
    [found_face] is true). *)
Module FaceSegment.
Record t : Type :=
  mk { seg : SpeakerSegment.t;
       first_face_sec : Q;
       found_face : bool;
       num_samples : nat }.
End FaceSegment.

Section RoiLoop.
(** [video_width], [video_height]: [video_file.get_width_pixels()] and
    [get_height_pixels()].  The sampling loop that precedes the ROI loop
    (random frame choice, frame extraction, face detection) is input
    output: its results, [face_detections], are an input here. *)
Variables video_width video_height resize_width resize_height : Z.
Variable face_detections : list face_detection.

(** One iteration of [for segment in segments]; the state is [idx] and
    the segments already updated. *)
Definition add_x_y_coords (st : nat * list CropSegment.t)
    (segment : FaceSegment.t) : result (nat * list CropSegment.t) :=
  let '(idx, updated) := st in
  '(rois, idx) ←
    (if FaceSegment.found_face segment then
       rois ← _calc_segment_rois
                (py_slice idx (idx + FaceSegment.num_samples segment)
                   face_detections);
       Ok (rois, (idx + FaceSegment.num_samples segment)%nat)
     else
       Ok ([Rect.mk (video_width / 4) (video_height / 4)
                    (video_width / 2) (video_height / 2)], idx));
  let crop :=
    match rois with
    | [roi] =>
        let crop := _calc_crop roi resize_width resize_height in
        Single (Rect.x crop) (Rect.y crop)
    | _ :: _ :: _ =>
        Split (_calc_split_screen_crops rois resize_width resize_height)
    | [] =>
        (* fallback to center crop if no ROIs found *)
        Single ((video_width - resize_width) / 2)
               ((video_height - resize_height) / 2)
    end in
  let base := FaceSegment.seg segment in
  Ok (idx,
      updated ++ [CropSegment.mk (SpeakerSegment.speakers base)
                    (SpeakerSegment.start_time base)
                    (SpeakerSegment.end_time base) crop]).

Definition add_x_y_coords_loop (segments : list FaceSegment.t)
    : result (list CropSegment.t) :=
  st ← for_each add_x_y_coords segments (0%nat, []);
  Ok (snd st).
End RoiLoop.

(** ** The output loop of [Resizer.resize] *)

Definition crop_segments_of (segment : CropSegment.t)
    : result (list Segment.t) :=
  if String.eqb (CropSegment.crop_type segment) "single" then
    x ← CropSegment.x segment;
    y ← CropSegment.y segment;
    Ok [Segment.mk (CropSegment.speakers segment)
          (CropSegment.start_time segment) (CropSegment.end_time segment)
          x y None None None None]
  else if String.eqb (CropSegment.crop_type segment) "split" then
    crops ← CropSegment.crops segment;
    mapM (fun crop : gmap string Z =>
            x ← getitem crop "x";
            y ← getitem crop "y";
            width ← getitem crop "width";
            height ← getitem crop "height";
            target_x ← getitem crop "target_x";
            target_y ← getitem crop "target_y";
            Ok (Segment.mk (CropSegment.speakers segment)
                  (CropSegment.start_time segment)
                  (CropSegment.end_time segment)
                  x y (Some width) (Some height)
                  (Some target_x) (Some target_y)))
         crops
  else Ok [].

Definition build_crop_segments (segments : list CropSegment.t)
    : result (list Segment.t) :=
  for_each (fun crop_segments segment =>
              new ← crop_segments_of segment;
              Ok (crop_segments ++ new))
    segments [].

(** ** SegmentCoalescer ([Resizer._merge_identical_segments]) *)

Definition _are_single_crops_similar (segment1 segment2 : CropSegment.t)
    (video_width video_height : Z) (max_diff_ratio : Q) : result bool :=
  x1 ← CropSegment.x segment1;
  x2 ← CropSegment.x segment2;
  x_diff ← py_truediv (Z.abs (x1 - x2)) video_width;
  y1 ← CropSegment.y segment1;
  y2 ← CropSegment.y segment2;
  y_diff ← py_truediv (Z.abs (y1 - y2)) video_height;
  Ok (Qlt_bool x_diff max_diff_ratio && Qlt_bool y_diff max_diff_ratio).

(** The loop [for crop1, crop2 in zip(crops1, crops2)]. *)
Fixpoint zipped_crops_similar (pairs : list (gmap string Z * gmap string Z))
    (video_width video_height : Z) (max_diff_ratio : Q) : result bool :=
  match pairs with
  | [] => Ok true
  | (crop1, crop2) :: pairs' =>
      x1 ← getitem crop1 "x";
      x2 ← getitem crop2 "x";
      x_diff ← py_truediv (Z.abs (x1 - x2)) video_width;
      y1 ← getitem crop1 "y";
      y2 ← getitem crop2 "y";
      y_diff ← py_truediv (Z.abs (y1 - y2)) video_height;
      if Qle_bool max_diff_ratio x_diff || Qle_bool max_diff_ratio y_diff
      then Ok false
      else zipped_crops_similar pairs' video_width video_height
             max_diff_ratio
  end.

Definition _are_split_crops_similar (crops1 crops2 : list (gmap string Z))
    (video_width video_height : Z) (max_diff_ratio : Q) : result bool :=
  if negb (length crops1 =? length crops2)%nat then Ok false
  else zipped_crops_similar (zip crops1 crops2) video_width video_height
         max_diff_ratio.

(** [segment1] after [_merge_single_crop_segments(segment1, segment2)]. *)
Definition _merge_single_crop_segments (segment1 segment2 : CropSegment.t)
    : result CropSegment.t :=
  x1 ← CropSegment.x segment1;
  x2 ← CropSegment.x segment2;
  y1 ← CropSegment.y segment1;
  y2 ← CropSegment.y segment2;
  Ok (CropSegment.mk (CropSegment.speakers segment1)
        (CropSegment.start_time segment1) (CropSegment.end_time segment2)
        (Single ((x1 + x2) / 2) ((y1 + y2) / 2))).

Definition merge_crop_pair (pair : gmap string Z * gmap string Z)
    : result (gmap string Z) :=
  let '(crop1, crop2) := pair in
  x1 ← getitem crop1 "x";
  x2 ← getitem crop2 "x";
  let crop1 := <["x" := (x1 + x2) / 2]> crop1 in
  y1 ← getitem crop1 "y";
  y2 ← getitem crop2 "y";
  Ok (<["y" := (y1 + y2) / 2]> crop1).

(** [segment1] after [_merge_split_crop_segments(segment1, segment2)]:
    [zip] stops at the shorter list, the crops of [segment1] beyond it are
    left as they are. *)
Definition _merge_split_crop_segments (segment1 segment2 : CropSegment.t)
    : result CropSegment.t :=
  crops1 ← CropSegment.crops segment1;
  crops2 ← CropSegment.crops segment2;
  merged ← mapM merge_crop_pair (zip crops1 crops2);
  Ok (CropSegment.mk (CropSegment.speakers segment1)
        (CropSegment.start_time segment1) (CropSegment.end_time segment2)
        (Split (merged ++ drop (length crops2) crops1))).

Definition max_position_difference_ratio : Q := 0.04.

Section Coalescer.
Variables video_width video_height : Z.

(** State of the loop: [(segments, idx)]. *)
Definition coalesce_cond (st : list CropSegment.t * nat) : bool :=
  (Z.of_nat (snd st) <? Z.of_nat (length (fst st)) - 1).

Definition coalesce_body (st : list CropSegment.t * nat)
    : result (list CropSegment.t * nat) :=
  let '(segments, idx) := st in
  current_segment ← list_get segments idx;
  next_segment ← list_get segments (S idx);
  if negb (String.eqb (CropSegment.crop_type current_segment)
                      (CropSegment.crop_type next_segment))
  then Ok (segments, S idx)
  else if String.eqb (CropSegment.crop_type current_segment) "single" then
    similar ← _are_single_crops_similar current_segment next_segment
                video_width video_height max_position_difference_ratio;
    if (similar : bool) then
      merged ← _merge_single_crop_segments current_segment next_segment;
      Ok (delete (S idx) (<[idx := merged]> segments), idx)
    else Ok (segments, S idx)
  else if String.eqb (CropSegment.crop_type current_segment) "split" then
    crops1 ← CropSegment.crops current_segment;
    crops2 ← CropSegment.crops next_segment;
    similar ← _are_split_crops_similar crops1 crops2
                video_width video_height max_position_difference_ratio;
    if (similar : bool) then
      merged ← _merge_split_crop_segments current_segment next_segment;
      Ok (delete (S idx) (<[idx := merged]> segments), idx)
    else Ok (segments, S idx)
  else
    (* unknown crop type, move to next segment *)
    Ok (segments, S idx).

(** Each iteration removes a segment or advances [idx]: [len(segments)]
    iterations are enough. *)
Definition _merge_identical_segments (segments : list CropSegment.t)
    : result (list CropSegment.t) :=
  st ← while_loop (length segments) coalesce_cond coalesce_body
         (segments, 0%nat);
  Ok (fst st).
End Coalescer.

(** ** FacePresenceScanner
       ([Resizer._find_first_sec_with_face_for_each_segment]) *)

Section FacePresenceScanner.
(** The video and the machine: see [_calc_n_batches]. *)
Variable calc_img_bytes : Z -> Z -> Z -> Z.
Variables vid_height vid_width free_cpu_memory : Z.
Variable cuda_is_available : bool.
(** [extract_frames] followed by [_detect_faces] on one batch of
    timestamps: for each frame, whether its detection [is not None]. *)
Variable detect : list Q -> list bool.
Variables face_detect_width n_face_detect_batches : Z.

Definition sample_period : Z := 1.

(** The first loop: the search starts an eighth of the way through. *)
Definition init_segment (segment : SpeakerSegment.t) : ScanSegment.t :=
  let start_time := SpeakerSegment.start_time segment in
  let end_time := SpeakerSegment.end_time segment in
  ScanSegment.mk segment (start_time + (end_time - start_time) / 8)%Q
    false false 0.

(** [range(n)] as ints. *)
Definition range (n : Z) : list Z := Z.of_nat <$> seq 0 (Z.to_nat n).

(** "select times to detect faces from": one iteration; the state is the
    segments already visited and [detect_secs]. *)
Definition select_times (batch_period : Z)
    (st : list ScanSegment.t * list Q) (segment : ScanSegment.t)
    : list ScanSegment.t * list Q :=
  let '(visited, detect_secs) := st in
  if ScanSegment.is_analyzed segment then (visited ++ [segment], detect_secs)
  else
    let first_face_sec := ScanSegment.first_face_sec segment in
    let segment_secs_left :=
      (SpeakerSegment.end_time (ScanSegment.seg segment)
       - first_face_sec)%Q in
    let shortest :=
      if Qlt_bool segment_secs_left (inject_Z batch_period)
      then segment_secs_left else inject_Z batch_period in
    let num_samples := Qfloor (shortest / inject_Z sample_period)%Q in
    let num_samples := Z.max 1 num_samples in
    (visited ++ [ScanSegment.mk (ScanSegment.seg segment) first_face_sec
                   (ScanSegment.found_face segment)
                   (ScanSegment.is_analyzed segment) num_samples],
     detect_secs ++
       ((fun i => (first_face_sec + inject_Z (i * sample_period))%Q)
          <$> range num_samples)).

(** "detect faces": the batches are slices of [detect_secs].  The batch
    count is positive whenever [_calc_n_batches] is given a positive
    amount of free memory, so the slice bounds are not negative. *)
Definition detect_in_batches (detect_secs : list Q) : result (list bool) :=
  let len := Z.of_nat (length detect_secs) in
  n_batches ← _calc_n_batches calc_img_bytes vid_height vid_width
                free_cpu_memory cuda_is_available
                len face_detect_width n_face_detect_batches;
  q ← py_floordiv len n_batches;
  let frames_per_batch := q + 1 in
  Ok (concat
        ((fun i =>
            detect (py_slice (Z.to_nat (i * frames_per_batch))
                      (Z.to_nat (Z.min ((i + 1) * frames_per_batch) len))
                      detect_secs))
           <$> range n_batches)).

(** [for _ in range(num_samples)] with its [break]: returns
    [(found_face, first_face_sec)]. *)
Fixpoint check_samples (num_samples : nat) (face_detections : list bool)
    (idx : nat) (first_face_sec : Q) : result (bool * Q) :=
  match num_samples with
  | O => Ok (false, first_face_sec)
  | S num_samples' =>
      faces ← list_get face_detections idx;
      if (faces : bool) then Ok (true, first_face_sec)
      else check_samples num_samples' face_detections (S idx)
             (first_face_sec + inject_Z sample_period)%Q
  end.

(** "check if any faces were found for each segment": one iteration; the
    state is the segments already visited, [idx] and
    [analyzed_segments]. *)
Definition check_faces (face_detections : list bool)
    (st : list ScanSegment.t * nat * Z) (segment : ScanSegment.t)
    : result (list ScanSegment.t * nat * Z) :=
  let '(visited, idx, analyzed_segments) := st in
  if ScanSegment.is_analyzed segment
  then Ok (visited ++ [segment], idx, analyzed_segments)
  else
    let segment_idx := idx in
    let num_samples := Z.to_nat (ScanSegment.num_samples segment) in
    '(found, first_face_sec) ←
      check_samples num_samples face_detections idx
        (ScanSegment.first_face_sec segment);
    let found_face := found || ScanSegment.found_face segment in
    let is_analyzed :=
      found_face
      || Qle_bool (SpeakerSegment.end_time (ScanSegment.seg segment) - 0.25)
                  first_face_sec in
    Ok (visited ++ [ScanSegment.mk (ScanSegment.seg segment) first_face_sec
                      found_face is_analyzed
                      (ScanSegment.num_samples segment)],
        (segment_idx + num_samples)%nat,
        if is_analyzed then analyzed_segments + 1 else analyzed_segments).

(** State of the [while] loop:
    [(segments, batch_period, analyzed_segments)]. *)
Definition scan_cond (st : list ScanSegment.t * Z * Z) : bool :=
  let '(segments, _, analyzed_segments) := st in
  analyzed_segments <? Z.of_nat (length segments).

Definition scan_round (st : list ScanSegment.t * Z * Z)
    : result (list ScanSegment.t * Z * Z) :=
  let '(segments, batch_period, analyzed_segments) := st in
  let '(segments, detect_secs) :=
    foldl (select_times batch_period) ([], []) segments in
  face_detections ← detect_in_batches detect_secs;
  '(segments, _, analyzed_segments) ←
    for_each (check_faces face_detections) segments
      ([], 0%nat, analyzed_segments);
  (* increase period for next iteration *)
  Ok (segments, (batch_period + 3) * 2, analyzed_segments).

(** The [while] loop is unrolled at most [rounds] times.  The keys
    [num_samples] and [is_analyzed], which the last loop deletes, are
    still present in the result. *)
Definition _find_first_sec_with_face_for_each_segment (rounds : nat)
    (segments : list SpeakerSegment.t) : result (list ScanSegment.t) :=
  st ← while_loop rounds scan_cond scan_round
         (init_segment <$> segments, 1, 0);
  Ok (fst (fst st)).
End FacePresenceScanner.

(** ** [segment.py]: the other methods of [Segment] *)

(** The values of the dict [to_dict] returns: the speaker list, a float or
    an int. *)
Inductive value : Type :=
| VList (speakers : list Z)
| VFloat (q : Q)
| VInt (z : Z).

(** The argument of [__eq__]: a [Segment], or an object of another type. *)
Inductive pyobject : Type :=
| SegmentObject (s : Segment.t)
| OtherObject.

(** [a == b] on two values that are [None] or an int. *)
Definition option_eqb (a b : option Z) : bool :=
  match a, b with
  | Some x, Some y => x =? y
  | None, None => true
  | _, _ => false
  end.

Module SegmentMethods.
(** [Segment.copy]: the new segment has a copy of the speaker list. *)
Definition copy (self : Segment.t) : Segment.t :=
  Segment.mk (Segment.speakers self) (Segment.start_time self)
    (Segment.end_time self) (Segment.x self) (Segment.y self)
    (Segment.width self) (Segment.height self)
    (Segment.target_x self) (Segment.target_y self).

(** [if v is not None: segment_dict[key] = v] *)
Definition set_if_not_None (key : string) (v : option Z)
    (segment_dict : gmap string value) : gmap string value :=
  match v with
  | Some z => <[key := VInt z]> segment_dict
  | None => segment_dict
  end.

(** [Segment.to_dict] *)
Definition to_dict (self : Segment.t) : gmap string value :=
  let segment_dict : gmap string value :=
    <["speakers" := VList (Segment.speakers self)]> (
    <["start_time" := VFloat (Segment.start_time self)]> (
    <["end_time" := VFloat (Segment.end_time self)]> (
    <["x" := VInt (Segment.x self)]> (
    <["y" := VInt (Segment.y self)]> ∅)))) in
  let segment_dict := set_if_not_None "width" (Segment.width self)
                        segment_dict in
  let segment_dict := set_if_not_None "height" (Segment.height self)
                        segment_dict in
  let segment_dict := set_if_not_None "target_x" (Segment.target_x self)
                        segment_dict in
  let segment_dict := set_if_not_None "target_y" (Segment.target_y self)
                        segment_dict in
  segment_dict.

(** [Segment.__eq__] *)
Definition __eq__ (self : Segment.t) (__value : pyobject) : bool :=
  match __value with
  | OtherObject => false
  | SegmentObject other =>
      bool_decide (Segment.speakers self = Segment.speakers other)
      && Qeq_bool (Segment.start_time self) (Segment.start_time other)
      && Qeq_bool (Segment.end_time self) (Segment.end_time other)
      && (Segment.x self =? Segment.x other)
      && (Segment.y self =? Segment.y other)
      && option_eqb (Segment.width self) (Segment.width other)
      && option_eqb (Segment.height self) (Segment.height other)
      && option_eqb (Segment.target_x self) (Segment.target_x other)
      && option_eqb (Segment.target_y self) (Segment.target_y other)
  end.

(** [Segment.__ne__] *)
Definition __ne__ (self : Segment.t) (__value : pyobject) : bool :=
  negb (__eq__ self __value).
End SegmentMethods.

(** ** The batches of [Resizer._add_x_y_coords_to_each_segment] *)

Section SegmentBatches.
(** The video and the machine: see [_calc_n_batches]. *)
Variable calc_img_bytes : Z -> Z -> Z -> Z.
Variables vid_height vid_width free_cpu_memory : Z.
Variable cuda_is_available : bool.
(** [_add_x_y_coords_to_each_segment_batch] on one batch of segments: it
    samples frames at random and detects faces before it runs the ROI
    loop ([add_x_y_coords_loop]), so it is a parameter here. *)
Variable add_batch : list FaceSegment.t -> result (list CropSegment.t).
Variables samples_per_segment face_detect_width n_face_detect_batches : Z.

(** [for i in range(n_batches)], with its [break] on an empty batch. *)
Fixpoint batches_loop (segments : list FaceSegment.t)
    (segments_per_batch : Z) (batches : list Z)
    (segments_with_xy_coords : list CropSegment.t)
    : result (list CropSegment.t) :=
  match batches with
  | [] => Ok segments_with_xy_coords
  | i :: batches' =>
      let cur_segments :=
        py_slice (Z.to_nat (i * segments_per_batch))
          (Z.to_nat (Z.min ((i + 1) * segments_per_batch)
                       (Z.of_nat (length segments))))
          segments in
      match cur_segments with
      | [] => Ok segments_with_xy_coords
      | _ :: _ =>
          new ← add_batch cur_segments;
          batches_loop segments segments_per_batch batches'
            (segments_with_xy_coords ++ new)
      end
  end.

Definition _add_x_y_coords_to_each_segment (segments : list FaceSegment.t)
    : result (list CropSegment.t) :=
  let num_segments := Z.of_nat (length segments) in
  let num_frames := num_segments * samples_per_segment in
  n_batches ← _calc_n_batches calc_img_bytes vid_height vid_width
                free_cpu_memory cuda_is_available
                num_frames face_detect_width n_face_detect_batches;
  q ← py_floordiv num_segments n_batches;
  let segments_per_batch := q + 1 in
  batches_loop segments segments_per_batch (range n_batches) [].
End SegmentBatches.

(** ** The unused single-ROI variant ([Resizer._calc_segment_roi]) *)

Section SingleRoi.
(** The branch for several faces in a frame (k-means clustering of the
    boxes, mouth movement from the face mesh, most frequent face) depends
    on the clustering and landmark libraries: it is a parameter. *)
Variable most_active_roi : list face_detection -> result Rect.t.

(** [np.mean(column).astype(np.int16)] on int16 values: the mean lies
    between them, so the conversion only truncates. *)
Definition mean_int (column : list Z) : Z :=
  let total := foldr Z.add 0 column in
  let count := Z.of_nat (length column) in
  py_int (inject_Z total / inject_Z count)%Q.

Definition _calc_segment_roi (face_detections : list face_detection)
    : result Rect.t :=
  (* preprocessing for kmeans *)
  let '(bounding_boxes, k) :=
    foldl (fun '(bounding_boxes, k) (face_detection : face_detection) =>
             match face_detection with
             | None => (bounding_boxes, k)
             | Some boxes =>
                 (bounding_boxes ++ boxes, Nat.max k (length boxes))
             end)
      ([], 0%nat) face_detections in
  (* no faces detected *)
  if (k =? 0)%nat then Raise (ResizerError "No faces detected in segment.")
  (* single face detected *)
  else if (k =? 1)%nat then
    let x1 := mean_int ((fun '(x1, _, _, _) => x1) <$> bounding_boxes) in
    let y1 := mean_int ((fun '(_, y1, _, _) => y1) <$> bounding_boxes) in
    let x2 := mean_int ((fun '(_, _, x2, _) => x2) <$> bounding_boxes) in
    let y2 := mean_int ((fun '(_, _, _, y2) => y2) <$> bounding_boxes) in
    Ok (Rect.mk x1 y1 (x2 - x1) (y2 - y1))
  else most_active_roi face_detections.
End SingleRoi.

(** ** Predicates used in the statements *)


(** The similarity test of the SegmentCoalescer, as a decision on two
    segment dicts: the crop types match and every coordinate delta,
    |dx| / video_width and |dy| / video_height, is strictly below
    [max_position_difference_ratio]; for split crops the sub-crop counts
    match and the test holds for each pair of corresponding sub-crops. *)
Definition deltas_below (video_width video_height : Z) (x1 y1 x2 y2 : Z)
    : bool :=
  Qlt_bool (inject_Z (Z.abs (x1 - x2)) / inject_Z video_width)
    max_position_difference_ratio
  && Qlt_bool (inject_Z (Z.abs (y1 - y2)) / inject_Z video_height)
       max_position_difference_ratio.

Definition sub_crops_similar (video_width video_height : Z)
    (pair : gmap string Z * gmap string Z) : bool :=
  match fst pair !! "x", snd pair !! "x", fst pair !! "y", snd pair !! "y"
  with
  | Some x1, Some x2, Some y1, Some y2 =>
      deltas_below video_width video_height x1 y1 x2 y2
  | _, _, _, _ => false
  end.

Definition similar (video_width video_height : Z)
    (segment1 segment2 : CropSegment.t) : bool :=
  match CropSegment.crop segment1, CropSegment.crop segment2 with
  | Single x1 y1, Single x2 y2 =>
      deltas_below video_width video_height x1 y1 x2 y2
  | Split crops1, Split crops2 =>
      (length crops1 =? length crops2)%nat
      && forallb (sub_crops_similar video_width video_height)
           (zip crops1 crops2)
  | _, _ => false
  end.

(** The first segment after a merge with the second: it keeps its
    speakers and start time, takes the end time of the second and the
    averages (integer division) of each pair of coordinates. *)
Definition averaged_sub_crop (pair : gmap string Z * gmap string Z)
    : gmap string Z :=
  match fst pair !! "x", snd pair !! "x", fst pair !! "y", snd pair !! "y"
  with
  | Some x1, Some x2, Some y1, Some y2 =>
      <["y" := (y1 + y2) / 2]> (<["x" := (x1 + x2) / 2]> (fst pair))
  | _, _, _, _ => fst pair
  end.

Definition merged_segment (segment1 segment2 : CropSegment.t)
    : CropSegment.t :=
  CropSegment.mk (CropSegment.speakers segment1)
    (CropSegment.start_time segment1) (CropSegment.end_time segment2)
    match CropSegment.crop segment1, CropSegment.crop segment2 with
    | Single x1 y1, Single x2 y2 => Single ((x1 + x2) / 2) ((y1 + y2) / 2)
    | Split crops1, Split crops2 =>
        Split (averaged_sub_crop <$> zip crops1 crops2)
    | crop1, _ => crop1
    end.

(** A run of consecutive segments merged from left to right. *)
Definition merge_run (run : list CropSegment.t) : option CropSegment.t :=
  match run with
  | [] => None
  | first :: others => Some (foldl merged_segment first others)
  end.

(** The single forward pass of the coalescer as a recursion on the
    segments that follow the current one. *)
Fixpoint coalesce (video_width video_height : Z) (current : CropSegment.t)
    (rest : list CropSegment.t) : list CropSegment.t :=
  match rest with
  | [] => [current]
  | next :: rest' =>
      if similar video_width video_height current next
      then coalesce video_width video_height
             (merged_segment current next) rest'
      else current :: coalesce video_width video_height next rest'
  end.

(** The segment dicts the layout stage produces: a single crop has x and
    y, each sub-crop of a split crop has x and y, nothing else is tagged
    single or split. *)
Definition has_x_y (crop : gmap string Z) : Prop :=
  is_Some (crop !! "x") /\ is_Some (crop !! "y").

Definition well_formed (segment : CropSegment.t) : Prop :=
  match CropSegment.crop segment with
  | Single _ _ => True
  | Split crops => Forall has_x_y crops
  | Other crop_type => crop_type <> "single" /\ crop_type <> "split"
  end.

(** Statements about the TimelineMerger. *)

(** Each segment's end_time equals the next segment's start_time. *)
Definition contiguous (segments : list SpeakerSegment.t) : Prop :=
  forall (i : nat) (a b : SpeakerSegment.t),
    segments !! i = Some a -> segments !! S i = Some b ->
    (SpeakerSegment.end_time a == SpeakerSegment.start_time b)%Q.

Fixpoint strictly_increasing (times : list Q) : Prop :=
  match times with
  | [] => True
  | t :: times' =>
      match times' with
      | [] => True
      | t' :: _ => (t < t')%Q
      end /\ strictly_increasing times'
  end.

(** The valid inputs of the merge: segments with start < end and without
    gaps, scene changes strictly increasing and within the covered range
    [first.start, last.end]. *)
Definition valid_input (speaker_segments : list SpeakerSegment.t)
    (scene_changes : list Q) (first_segment last_segment : SpeakerSegment.t)
    : Prop :=
  head speaker_segments = Some first_segment
  /\ last speaker_segments = Some last_segment
  /\ Forall (fun s => (SpeakerSegment.start_time s
                       < SpeakerSegment.end_time s)%Q) speaker_segments
  /\ contiguous speaker_segments
  /\ strictly_increasing scene_changes
  /\ Forall (fun t => (SpeakerSegment.start_time first_segment <= t)%Q
                      /\ (t <= SpeakerSegment.end_time last_segment)%Q)
       scene_changes.

(** [repeats_of l l']: [l'] is [l] with some elements repeated in place.
    On the lists of speaker sets: every segment produced by a split has
    the speakers of the segment it was split from, the others keep
    theirs. *)
Inductive repeats_of {A : Type} : list A -> list A -> Prop :=
| repeats_nil : repeats_of [] []
| repeats_next (x : A) (l l' : list A) :
    repeats_of l l' -> repeats_of (x :: l) (x :: l')
| repeats_again (x : A) (l l' : list A) :
    repeats_of (x :: l) (x :: l') -> repeats_of (x :: l) (x :: x :: l').

(** [contiguous], by recursion on the list. *)
Fixpoint chained (segments : list SpeakerSegment.t) : Prop :=
  match segments with
  | [] => True
  | a :: rest =>
      match rest with
      | [] => True
      | b :: _ =>
          (SpeakerSegment.end_time a == SpeakerSegment.start_time b)%Q
      end /\ chained rest
  end.

(** What every iteration of the merge keeps: the segments are chained, the
    first start has not moved below [first_start], the last end has not
    moved above [last_end], and the speakers are those of the input with
    repetitions. *)
Definition merge_invariant (first_start last_end : Q)
    (speakers0 : list (list Z)) (segments : list SpeakerSegment.t) : Prop :=
  chained segments
  /\ (exists s, head (SpeakerSegment.start_time <$> segments) = Some s
                /\ (first_start <= s)%Q)
  /\ (exists e, last (SpeakerSegment.end_time <$> segments) = Some e
                /\ (e <= last_end)%Q)
  /\ repeats_of speakers0 (SpeakerSegment.speakers <$> segments).

Definition ends_at (last_end : Q) (segments : list SpeakerSegment.t)
    : Prop :=
  exists e, last (SpeakerSegment.end_time <$> segments) = Some e
            /\ (e == last_end)%Q.

(** Statements about the FacePresenceScanner. *)

(** A segment is resolved: a face was found, or the cursor is within
    0.25 seconds of the segment end. *)
Definition resolved (segment : ScanSegment.t) : Prop :=
  ScanSegment.found_face segment = true
  \/ (SpeakerSegment.end_time (ScanSegment.seg segment) - 0.25
      <= ScanSegment.first_face_sec segment)%Q.

(** A bound on the rounds an unresolved segment can still take: each round
    moves its cursor at least one second further. *)
Definition remaining (segment : ScanSegment.t) : nat :=
  if ScanSegment.is_analyzed segment then 0%nat
  else S (Z.to_nat
            (Qceiling (SpeakerSegment.end_time (ScanSegment.seg segment)
                       - ScanSegment.first_face_sec segment))).

Definition rounds_bound (segments : list ScanSegment.t) : nat :=
  list_sum (remaining <$> segments).

Definition analyzed_count (segments : list ScanSegment.t) : Z :=
  foldr (fun s n => (if ScanSegment.is_analyzed s then 1 else 0) + n) 0
    segments.

(** The samples a segment takes from the face detections of a round. *)
Definition samples_of (s : ScanSegment.t) : nat :=
  if ScanSegment.is_analyzed s then 0%nat
  else Z.to_nat (ScanSegment.num_samples s).

(** The segment after "select times": its number of samples is set. *)
Definition with_samples (batch_period : Z) (segment : ScanSegment.t)
    : ScanSegment.t :=
  if ScanSegment.is_analyzed segment then segment
  else
    let segment_secs_left :=
      (SpeakerSegment.end_time (ScanSegment.seg segment)
       - ScanSegment.first_face_sec segment)%Q in
    let shortest :=
      if Qlt_bool segment_secs_left (inject_Z batch_period)
      then segment_secs_left else inject_Z batch_period in
    ScanSegment.mk (ScanSegment.seg segment)
      (ScanSegment.first_face_sec segment)
      (ScanSegment.found_face segment) (ScanSegment.is_analyzed segment)
      (Z.max 1 (Qfloor (shortest / inject_Z sample_period)%Q)).

(** The timestamps "select times" takes from a segment. *)
Definition sample_times (batch_period : Z) (segment : ScanSegment.t)
    : list Q :=
  if ScanSegment.is_analyzed segment then []
  else
    (fun i => (ScanSegment.first_face_sec segment
               + inject_Z (i * sample_period))%Q)
      <$> range (ScanSegment.num_samples (with_samples batch_period segment)).

(** What one round does to a segment: a resolved segment is left alone;
    an unresolved one is given at least one sample, and its cursor moves
    one second per no-face sample, over all its samples when no face is
    found. *)
Definition scanned_in_round (segment segment' : ScanSegment.t) : Prop :=
  if ScanSegment.is_analyzed segment then segment' = segment
  else
    ScanSegment.seg segment' = ScanSegment.seg segment
    /\ 1 <= ScanSegment.num_samples segment'
    /\ (exists no_face : nat,
          (Z.of_nat no_face <= ScanSegment.num_samples segment')
          /\ (ScanSegment.first_face_sec segment'
              == ScanSegment.first_face_sec segment
                 + inject_Z (Z.of_nat no_face))%Q
          /\ (ScanSegment.found_face segment' = false ->
              Z.of_nat no_face = ScanSegment.num_samples segment'))
    /\ ScanSegment.is_analyzed segment'
       = ScanSegment.found_face segment'
         || Qle_bool (SpeakerSegment.end_time (ScanSegment.seg segment)
                      - 0.25)
                     (ScanSegment.first_face_sec segment').

(** The no-face answers before the first face. *)
Fixpoint leading_no_face (answers : list bool) : nat :=
  match answers with
  | false :: answers' => S (leading_no_face answers')
  | _ => 0%nat
  end.

(** What one round does to a segment, given the [answers] of the detector
    for the timestamps the round took from the segment ([sample_times]):
    a resolved segment is left alone; the cursor of an unresolved one
    moves one second per no-face answer before the first face, and a face
    was found when one of the answers is a face. *)
Definition sampled (batch_period : Z) (segment : ScanSegment.t)
    (answers : list bool) (segment' : ScanSegment.t) : Prop :=
  if ScanSegment.is_analyzed segment then segment' = segment
  else
    ScanSegment.seg segment' = ScanSegment.seg segment
    /\ ScanSegment.num_samples segment'
       = Z.of_nat (length (sample_times batch_period segment))
    /\ (ScanSegment.first_face_sec segment'
        == ScanSegment.first_face_sec segment
           + inject_Z (Z.of_nat (leading_no_face answers)))%Q
    /\ ScanSegment.found_face segment'
       = existsb id answers || ScanSegment.found_face segment
    /\ ScanSegment.is_analyzed segment'
       = ScanSegment.found_face segment'
         || Qle_bool (SpeakerSegment.end_time (ScanSegment.seg segment)
                      - 0.25)
                     (ScanSegment.first_face_sec segment').

(** One round on all segments: the face detections of the round are the
    answers for the timestamps of the first segment, then of the second,
    and so on. *)
Fixpoint sampled_in_round (batch_period : Z)
    (segments : list ScanSegment.t) (face_detections : list bool)
    (segments' : list ScanSegment.t) : Prop :=
  match segments, segments' with
  | [], [] => True
  | s :: segments, s' :: segments' =>
      let n := length (sample_times batch_period s) in
      sampled batch_period s (take n face_detections) s'
      /\ sampled_in_round batch_period segments (drop n face_detections)
           segments'
  | _, _ => False
  end.

(** The states a [while cond: body] loop goes through from [s]. *)
Inductive iterates {S : Type} (cond : S -> bool) (body : S -> result S)
    (s : S) : S -> Prop :=
| iterates_start : iterates cond body s s
| iterates_step (s1 s2 : S) :
    iterates cond body s s1 -> cond s1 = true -> body s1 = Ok s2 ->
    iterates cond body s s2.

(** The collaborators of the scanner behave: image sizes are not negative,
    there is free memory, the detection width is positive, and the
    detector answers for every frame it is given. *)
Definition collaborators_behave (calc_img_bytes : Z -> Z -> Z -> Z)
    (vid_height vid_width free_cpu_memory : Z)
    (detect : list Q -> list bool) (face_detect_width : Z) : Prop :=
  (forall h w c, 0 <= h -> 0 <= w -> 0 <= c -> 0 <= calc_img_bytes h w c)
  /\ 0 <= vid_height /\ 0 <= vid_width
  /\ 0 < free_cpu_memory /\ 0 < face_detect_width
  /\ (forall secs, length (detect secs) = length secs).

(** What the scanning loop keeps: the counter counts the resolved
    segments, the segments are those of the input, and every segment
    marked as analyzed is resolved. *)
Definition scan_invariant (segments : list SpeakerSegment.t)
    (st : list ScanSegment.t * Z * Z) : Prop :=
  let '(scanned, _, analyzed_segments) := st in
  analyzed_segments = analyzed_count scanned
  /\ Forall2 (fun s0 s => ScanSegment.seg s = s0
                          /\ (ScanSegment.is_analyzed s = true -> resolved s))
       segments scanned.

(** The cursor of a scanned segment: where the search started (an eighth
    of the way through the segment) plus a whole number of seconds. *)
Definition whole_seconds_on (s0 : SpeakerSegment.t) (s : ScanSegment.t)
    : Prop :=
  exists n : nat,
    (ScanSegment.first_face_sec s
     == SpeakerSegment.start_time s0
        + (SpeakerSegment.end_time s0 - SpeakerSegment.start_time s0) / 8
        + inject_Z (Z.of_nat n))%Q.

(** A time that is an eighth of the way through the segment plus a whole
    number of seconds: not in the first eighth of the segment. *)
Definition from_eighth (s0 : SpeakerSegment.t) (t : Q) : Prop :=
  exists n : nat,
    (t == SpeakerSegment.start_time s0
          + (SpeakerSegment.end_time s0 - SpeakerSegment.start_time s0) / 8
          + inject_Z (Z.of_nat n))%Q.

(** Statements about rectangles. *)

(** A face box as [_detect_faces] gives it: clamped at zero and within
    the 16-bit range. *)
Definition face_box (rect : Rect.t) : Prop :=
  0 <= Rect.x rect /\ 0 <= Rect.y rect
  /\ 0 <= Rect.width rect /\ 0 <= Rect.height rect
  /\ Rect.x rect + Rect.width rect <= 32767
  /\ Rect.y rect + Rect.height rect <= 32767.

(** The IoU of two rectangles in exact integer arithmetic. *)
Definition iou_exact (rect1 rect2 : Rect.t) : Q :=
  let x1 := Z.max (Rect.x rect1) (Rect.x rect2) in
  let y1 := Z.max (Rect.y rect1) (Rect.y rect2) in
  let x2 := Z.min (Rect.x rect1 + Rect.width rect1)
                  (Rect.x rect2 + Rect.width rect2) in
  let y2 := Z.min (Rect.y rect1 + Rect.height rect1)
                  (Rect.y rect2 + Rect.height rect2) in
  let intersection := Z.max 0 (x2 - x1) * Z.max 0 (y2 - y1) in
  let union := Rect.width rect1 * Rect.height rect1
               + Rect.width rect2 * Rect.height rect2 - intersection in
  if 0 <? union then (inject_Z intersection / inject_Z union)%Q else 0%Q.


(** [inner] lies within [outer]. *)
Definition contains (outer inner : Rect.t) : Prop :=
  Rect.x outer <= Rect.x inner
  /\ Rect.y outer <= Rect.y inner
  /\ Rect.x inner + Rect.width inner <= Rect.x outer + Rect.width outer
  /\ Rect.y inner + Rect.height inner <= Rect.y outer + Rect.height outer.

(** A rectangle obtained from the rectangles of [rois] by [union_rois]. *)
Inductive union_of (rois : list Rect.t) : Rect.t -> Prop :=
| union_of_input (r : Rect.t) : r ∈ rois -> union_of rois r
| union_of_union (a b : Rect.t) :
    union_of rois a -> union_of rois b -> union_of rois (union_rois a b).

(** Statements about the layout. *)

(** The cell of the output canvas a sub-crop is drawn into. *)
Definition target_cell (crop : gmap string Z) : option Rect.t :=
  target_x ← crop !! "target_x";
  target_y ← crop !! "target_y";
  width ← crop !! "width";
  height ← crop !! "height";
  Some (Rect.mk target_x target_y width height).

(** Two rectangles that share no pixel. *)
Definition apart (a b : Rect.t) : Prop :=
  Rect.x a + Rect.width a <= Rect.x b
  \/ Rect.x b + Rect.width b <= Rect.x a
  \/ Rect.y a + Rect.height a <= Rect.y b
  \/ Rect.y b + Rect.height b <= Rect.y a.

(** The output canvas. *)
Definition canvas (resize_width resize_height : Z) : Rect.t :=
  Rect.mk 0 0 resize_width resize_height.

(** Statements about the output loop of [resize]. *)

(** A sub-crop dict with every key the output loop reads. *)
Definition complete_crop (crop : gmap string Z) : Prop :=
  Forall (fun key => is_Some (crop !! key))
    ["x"; "y"; "width"; "height"; "target_x"; "target_y"].

Definition renderable (segment : CropSegment.t) : Prop :=
  match CropSegment.crop segment with
  | Single _ _ => True
  | Split crops => Forall complete_crop crops
  | Other crop_type => crop_type <> "single" /\ crop_type <> "split"
  end.

(** The number of [Segment] objects a segment dict gives. *)
Definition crop_count (segment : CropSegment.t) : nat :=
  match CropSegment.crop segment with
  | Single _ _ => 1%nat
  | Split crops => length crops
  | Other _ => 0%nat
  end.

(** The [Segment] [s] has the speakers and times of the dict [segment]. *)
Definition same_span (segment : CropSegment.t) (s : Segment.t) : Prop :=
  Segment.speakers s = CropSegment.speakers segment
  /\ Segment.start_time s = CropSegment.start_time segment
  /\ Segment.end_time s = CropSegment.end_time segment.

(** The [Segment] [s] has the six values of the sub-crop dict [crop]. *)
Definition built_from (crop : gmap string Z) (s : Segment.t) : Prop :=
  crop !! "x" = Some (Segment.x s)
  /\ crop !! "y" = Some (Segment.y s)
  /\ crop !! "width" = Segment.width s
  /\ crop !! "height" = Segment.height s
  /\ crop !! "target_x" = Segment.target_x s
  /\ crop !! "target_y" = Segment.target_y s.

(** Statements about the ROI loop. *)

(** The segment dict [updated] has the speakers and times of [segment]. *)
Definition keeps_span (segment : FaceSegment.t) (updated : CropSegment.t)
    : Prop :=
  CropSegment.speakers updated
  = SpeakerSegment.speakers (FaceSegment.seg segment)
  /\ CropSegment.start_time updated
     = SpeakerSegment.start_time (FaceSegment.seg segment)
  /\ CropSegment.end_time updated
     = SpeakerSegment.end_time (FaceSegment.seg segment).

(** The crop of a segment in which no face was found: the window around
    the centre box of the video. *)
Definition centre_box_crop (video_width video_height : Z)
    (resize_width resize_height : Z) : crop_info :=
  let crop :=
    _calc_crop (Rect.mk (video_width / 4) (video_height / 4)
                  (video_width / 2) (video_height / 2))
      resize_width resize_height in
  Single (Rect.x crop) (Rect.y crop).

(** Statements about the BatchSizer. *)

(** The bytes of the extracted frames, and of the frames scaled down for
    face detection. *)
Definition extract_bytes (calc_img_bytes : Z -> Z -> Z -> Z)
    (vid_height vid_width num_frames : Z) : Z :=
  num_frames * calc_img_bytes vid_height vid_width 3.

Definition face_detect_bytes (calc_img_bytes : Z -> Z -> Z -> Z)
    (vid_height vid_width num_frames face_detect_width : Z) : Z :=
  let ratio := double_quotient vid_width face_detect_width in
  let downsample_factor := if Qlt_bool ratio 1 then 1%Q else ratio in
  num_frames
  * calc_img_bytes (Qfloor (inject_Z vid_height / downsample_factor)%Q)
      face_detect_width 3.

(** The bytes held in CPU memory: with CUDA the extracted frames, without
    it also the frames for face detection. *)
Definition cpu_bytes (calc_img_bytes : Z -> Z -> Z -> Z)
    (vid_height vid_width : Z) (cuda_is_available : bool)
    (num_frames face_detect_width : Z) : Z :=
  extract_bytes calc_img_bytes vid_height vid_width num_frames
  + (if cuda_is_available then 0
     else face_detect_bytes calc_img_bytes vid_height vid_width num_frames
            face_detect_width).

(** Statements about the SegmentCoalescer. *)

(** Each segment dict ends where the next one starts. *)
Fixpoint crop_chained (segments : list CropSegment.t) : Prop :=
  match segments with
  | [] => True
  | a :: rest =>
      match rest with
      | [] => True
      | b :: _ => (CropSegment.end_time a == CropSegment.start_time b)%Q
      end /\ crop_chained rest
  end.

(** No segment dict is similar to the one that follows it. *)
Definition no_adjacent_similar (video_width video_height : Z)
    (segments : list CropSegment.t) : Prop :=
  forall (i : nat) (a b : CropSegment.t),
    segments !! i = Some a -> segments !! S i = Some b ->
    similar video_width video_height a b = false.

(** Statements about the single-ROI variant. *)

(** The bounding boxes of all frames, and the largest number of faces in
    one frame. *)
Definition all_boxes (face_detections : list face_detection) : list bbox :=
  flat_map (fun fd : face_detection => default [] fd) face_detections.

Definition max_faces (face_detections : list face_detection) : nat :=
  foldr (fun (fd : face_detection) m => Nat.max (length (default [] fd)) m)
    0%nat face_detections.

(** * Properties *)

(** ** Generic facts *)

Lemma Qlt_bool_iff a b : Qlt_bool a b = true <-> (a < b)%Q.
Proof.
  unfold Qlt_bool. rewrite negb_true_iff.
  destruct (Qle_bool b a) eqn:E.
  - apply Qle_bool_iff in E. split; [discriminate | intros H; lra].
  - split; [intros _ | reflexivity].
    destruct (Qlt_le_dec a b) as [Hlt | Hle]; [exact Hlt |].
    apply Qle_bool_iff in Hle. congruence.
Qed.

Lemma Qlt_bool_false a b : Qlt_bool a b = false <-> (b <= a)%Q.
Proof.
  unfold Qlt_bool. rewrite negb_false_iff. apply Qle_bool_iff.
Qed.

Lemma bind_Ok_l {A B : Type} (a : A) (k : A -> result B) :
  Ok a ≫= k = k a.
Proof. reflexivity. Qed.

Lemma bind_Ok {A B : Type} (r : result A) (k : A -> result B) (b : B) :
  r ≫= k = Ok b -> exists a, r = Ok a /\ k a = Ok b.
Proof. destruct r; cbn; intros H; try discriminate. eauto. Qed.

(** A total-correctness rule for [while_loop]: an invariant [I] that the
    body preserves and a variant [V] that it decreases. *)
Lemma while_loop_total {S : Type} (I : S -> Prop) (V : S -> nat)
    (cond : S -> bool) (body : S -> result S) :
  (forall s, I s -> cond s = true ->
     exists s', body s = Ok s' /\ I s' /\ (V s' < V s)%nat) ->
  forall fuel s, I s -> (V s <= fuel)%nat ->
    exists s', while_loop fuel cond body s = Ok s' /\ I s' /\ cond s' = false.
Proof.
  intros Hbody fuel. induction fuel as [| fuel IH]; intros s HI HV.
  - cbn. destruct (cond s) eqn:Hc; [| eauto].
    destruct (Hbody s HI Hc) as (s' & _ & _ & Hlt). lia.
  - cbn. destruct (cond s) eqn:Hc; [| eauto].
    destruct (Hbody s HI Hc) as (s' & Hb & HI' & Hlt).
    rewrite Hb. cbn. apply IH; [exact HI' | lia].
Qed.

Lemma while_loop_done {S : Type} (fuel : nat) (cond : S -> bool)
    (body : S -> result S) (s : S) :
  cond s = false -> while_loop fuel cond body s = Ok s.
Proof. intros H. destruct fuel; cbn; now rewrite H. Qed.

Lemma while_loop_step {S : Type} (fuel : nat) (cond : S -> bool)
    (body : S -> result S) (s : S) :
  cond s = true ->
  while_loop (Datatypes.S fuel) cond body s
  = body s ≫= while_loop fuel cond body.
Proof. intros H. cbn. now rewrite H. Qed.

(** ** Resize dimensions *)

Example calc_resize_square_to_portrait :
  _calc_resize_width_and_height_pixels 1000 1000 (9, 16) = Ok (562, 1000).
Proof. reflexivity. Qed.

Example calc_resize_portrait_to_landscape :
  _calc_resize_width_and_height_pixels 1080 1920 (16, 9) = Ok (1080, 607).
Proof. reflexivity. Qed.

Example calc_resize_zero_height :
  _calc_resize_width_and_height_pixels 1920 0 (9, 16)
  = Raise ZeroDivisionError.
Proof. reflexivity. Qed.

(** C1, as the spec states it, fails: the width of the 9:16 crop of a
    1920x1080 source is not 608. *)
Lemma calc_resize_1920x1080_not_608 :
  _calc_resize_width_and_height_pixels 1920 1080 (9, 16) <> Ok (608, 1080).
Proof. vm_compute. discriminate. Qed.

(** C1 (amended): for a source of width 1920 and height 1080 and the target
    aspect ratio (9, 16), the resize dimensions are crop_width = 607
    (1080 * 9 / 16 = 607.5, truncated by [int]) and crop_height = 1080. *)
Theorem calc_resize_1920x1080 :
  _calc_resize_width_and_height_pixels 1920 1080 (9, 16) = Ok (607, 1080).
Proof. vm_compute. reflexivity. Qed.

(** ** Segment truthiness *)

Lemma calc_crop_left_edge (roi : Rect.t) (resize_width resize_height : Z) :
  Rect.x roi + Rect.width roi / 2 <= resize_width / 2 ->
  Rect.x (_calc_crop roi resize_width resize_height) = 0.
Proof. intros H. cbn. lia. Qed.

Example segment_bool_ordinary :
  Segment.__bool__ (Segment.mk [1] 2.5 4 100 20 None None None None) = true.
Proof. reflexivity. Qed.

(** C10: a [Segment] whose x is 0, whose y is 0, whose start_time is 0 or
    whose speaker list is empty is falsy under [bool()], although the
    pipeline produces such segments (a crop clamped to the left edge has
    x = 0, see [calc_crop_left_edge]; the first segment starts at 0). *)
Theorem segment_bool_false_on_valid (s : Segment.t) :
  Segment.x s = 0 \/ Segment.y s = 0
  \/ (Segment.start_time s == 0)%Q \/ Segment.speakers s = [] ->
  Segment.__bool__ s = false.
Proof.
  intros H. unfold Segment.__bool__.
  repeat rewrite andb_false_iff. rewrite !negb_false_iff.
  destruct H as [Hx | [Hy | [Ht | Hs]]].
  - left. apply Z.eqb_eq in Hx. tauto.
  - right. now apply Z.eqb_eq.
  - do 3 left. right. now apply Qeq_bool_iff.
  - do 4 left. now apply bool_decide_eq_true.
Qed.

Lemma segment_bool_false_on_valid_witness :
  Segment.__bool__
    (Segment.mk [1] 0 12.5
       (Rect.x (_calc_crop (Rect.mk 40 300 200 200) 608 1080))
       (Rect.y (_calc_crop (Rect.mk 40 300 200 200) 608 1080))
       None None None None) = false.
Proof.
  apply segment_bool_false_on_valid. left. reflexivity.
Defined.

(** ** Split-screen layout and the output loop *)

(** Lookups in a dict literal [{"k1": v1, ...}]. *)
Ltac dict_lookup :=
  repeat (rewrite lookup_insert_eq
          || (rewrite lookup_insert_ne by discriminate));
  rewrite ?lookup_empty.

Example split_three_rois_grid :
  (fun crop : gmap string Z => (crop !! "target_x", crop !! "target_y"))
    <$> _calc_split_screen_crops
          [Rect.mk 0 0 10 10; Rect.mk 500 0 10 10; Rect.mk 0 500 10 10]
          608 1080
  = [(Some 0, Some 0); (Some 304, Some 0); (Some 0, Some 540)].
Proof. vm_compute. reflexivity. Qed.

Example output_single :
  build_crop_segments [CropSegment.mk [1] 0 4 (Single 656 0)]
  = Ok [Segment.mk [1] 0 4 656 0 None None None None].
Proof. reflexivity. Qed.

(** C2: with exactly two ROIs the sub-crops have full target width, half
    target height and target_y 0 and height/2, but no key target_x, and the
    output loop of [resize] raises [KeyError] on [crop["target_x"]]
    instead of constructing the Segment records. *)
Theorem split_two_rois_lack_target_x (roi1 roi2 : Rect.t)
    (resize_width resize_height : Z) (speakers : list Z) (t0 t1 : Q) :
  let crops :=
    _calc_split_screen_crops [roi1; roi2] resize_width resize_height in
  (fun crop : gmap string Z =>
     (crop !! "width", crop !! "height", crop !! "target_y",
      crop !! "target_x")) <$> crops
  = [(Some resize_width, Some (resize_height / 2), Some 0, None);
     (Some resize_width, Some (resize_height / 2),
      Some (resize_height / 2), None)]
  /\ crop_segments_of (CropSegment.mk speakers t0 t1 (Split crops))
     = Raise (KeyError "target_x").
Proof.
  intros crops. subst crops. unfold _calc_split_screen_crops.
  cbn [length Z.of_nat]. change (Z.of_nat 2 =? 2) with true.
  cbn [enumerate imap fmap list_fmap]. split.
  - cbn. dict_lookup. repeat f_equal; lia.
  - unfold crop_segments_of.
    cbn [CropSegment.crop_type CropSegment.crop String.eqb Ascii.eqb
         Bool.eqb CropSegment.crops mbind result_bind bind mapM].
    unfold getitem. dict_lookup. reflexivity.
Qed.

(** ** Zero faces in a segment with found_face = true *)

Lemma merge_rois_nil (overlap_threshold : Q) :
  merge_rois [] overlap_threshold = Ok [].
Proof. reflexivity. Qed.

Lemma calc_segment_rois_no_faces (face_detections : list face_detection) :
  Forall (fun fd => fd = None \/ fd = Some []) face_detections ->
  _calc_segment_rois face_detections = Ok [].
Proof.
  intros H. unfold _calc_segment_rois.
  replace (flat_map _ face_detections) with (@nil Rect.t);
    [apply merge_rois_nil |].
  induction H as [| fd fds [-> | ->] _ IH]; cbn; auto.
Qed.

(** C3, as the spec states it, fails: a segment with found_face = true and
    no face in any of its three sampled frames gets the center crop of a
    1920x1080 video, and no [ResizerError] is raised. *)
Lemma zero_faces_not_raised :
  let segment := FaceSegment.mk (SpeakerSegment.mk [1] 0 8) 1 true 3 in
  add_x_y_coords_loop 1920 1080 608 1080 [None; None; None] [segment]
  = Ok [CropSegment.mk [1] 0 8 (Single 656 0)]
  /\ forall msg,
       add_x_y_coords_loop 1920 1080 608 1080 [None; None; None] [segment]
       <> Raise (ResizerError msg).
Proof. split; [reflexivity | intros msg; discriminate]. Qed.

(** C3 (amended): if a segment has found_face = true but no face is
    detected in any of its sampled analysis frames, the ROI loop does not
    raise: the segment silently gets the fallback crop of type single at
    ((video_width - resize_width) // 2, (video_height - resize_height) // 2). *)
Theorem zero_faces_center_crop
    (video_width video_height resize_width resize_height : Z)
    (face_detections : list face_detection) (idx : nat)
    (updated : list CropSegment.t) (segment : FaceSegment.t) :
  FaceSegment.found_face segment = true ->
  Forall (fun fd => fd = None \/ fd = Some [])
    (py_slice idx (idx + FaceSegment.num_samples segment) face_detections) ->
  add_x_y_coords video_width video_height resize_width resize_height
    face_detections (idx, updated) segment
  = Ok ((idx + FaceSegment.num_samples segment)%nat,
        updated ++
          [CropSegment.mk
             (SpeakerSegment.speakers (FaceSegment.seg segment))
             (SpeakerSegment.start_time (FaceSegment.seg segment))
             (SpeakerSegment.end_time (FaceSegment.seg segment))
             (Single ((video_width - resize_width) / 2)
                     ((video_height - resize_height) / 2))]).
Proof.
  intros Hfound Hnone. unfold add_x_y_coords. rewrite Hfound.
  rewrite (calc_segment_rois_no_faces _ Hnone). reflexivity.
Qed.

Lemma zero_faces_center_crop_witness :
  add_x_y_coords 1920 1080 608 1080 [Some [(5, 5, 50, 50)]; None; Some []]
    (1%nat, []) (FaceSegment.mk (SpeakerSegment.mk [2] 8 16) 9 true 2)
  = Ok (3%nat, [CropSegment.mk [2] 8 16 (Single 656 0)]).
Proof.
  apply (zero_faces_center_crop 1920 1080 608 1080
           [Some [(5, 5, 50, 50)]; None; Some []] 1 []
           (FaceSegment.mk (SpeakerSegment.mk [2] 8 16) 9 true 2)).
  - reflexivity.
  - cbn. constructor; [left; reflexivity |].
    constructor; [right; reflexivity |]. constructor.
Defined.

(** ** BatchSizer *)

Lemma Qfloor_div_nonneg (a : Z) (d : Q) :
  0 <= a -> (1 <= d)%Q -> 0 <= Qfloor (inject_Z a / d)%Q.
Proof.
  intros Ha Hd.
  change 0 with (Qfloor 0). apply Qfloor_resp_le.
  apply Qle_shift_div_l; [lra |].
  rewrite Qmult_0_l. change 0%Q with (inject_Z 0). now rewrite <- Zle_Qle.
Qed.

Lemma py_floordiv_Ok (a b : Z) : b <> 0 -> py_floordiv a b = Ok (a / b).
Proof.
  intros Hb. unfold py_floordiv. apply Z.eqb_neq in Hb. now rewrite Hb.
Qed.

Lemma py_truediv_Ok (a b : Z) :
  b <> 0 -> py_truediv a b = Ok (inject_Z a / inject_Z b)%Q.
Proof.
  intros Hb. unfold py_truediv. apply Z.eqb_neq in Hb. now rewrite Hb.
Qed.

Lemma py_truediv_double_Ok (a b : Z) :
  b <> 0 -> py_truediv_double a b = Ok (double_quotient a b).
Proof.
  intros Hb. unfold py_truediv_double. apply Z.eqb_neq in Hb.
  now rewrite Hb.
Qed.

Section BatchSizerFacts.
Variable calc_img_bytes : Z -> Z -> Z -> Z.
Hypothesis calc_img_bytes_nonneg :
  forall h w c, 0 <= h -> 0 <= w -> 0 <= c -> 0 <= calc_img_bytes h w c.

Lemma calc_n_batches_Ok (vid_height vid_width free_cpu_memory : Z)
    (cuda_is_available : bool)
    (num_frames face_detect_width n_face_detect_batches : Z) :
  0 <= vid_height -> 0 <= vid_width -> 0 <= num_frames ->
  0 < face_detect_width -> 0 < free_cpu_memory ->
  exists n_batches,
    _calc_n_batches calc_img_bytes vid_height vid_width free_cpu_memory
      cuda_is_available num_frames face_detect_width n_face_detect_batches
    = Ok n_batches
    /\ 1 <= n_batches.
Proof using calc_img_bytes_nonneg.
  intros Hh Hw Hn Hfdw Hfree. unfold _calc_n_batches.
  rewrite py_truediv_double_Ok by lia. cbn [mbind result_bind bind].
  set (df := if Qlt_bool _ 1 then 1%Q else _).
  assert (Hdf : (1 <= df)%Q).
  { subst df. destruct (Qlt_bool _ 1) eqn:E; [apply Qle_refl |].
    now apply Qlt_bool_false in E. }
  pose proof (Qfloor_div_nonneg vid_height df Hh Hdf) as Hfh.
  set (fh := Qfloor _) in *.
  pose proof (calc_img_bytes_nonneg vid_height vid_width 3
                Hh Hw ltac:(lia)) as Hb1.
  pose proof (calc_img_bytes_nonneg fh face_detect_width 3
                Hfh ltac:(lia) ltac:(lia)) as Hb2.
  set (b1 := calc_img_bytes vid_height vid_width 3) in *.
  set (b2 := calc_img_bytes fh face_detect_width 3) in *.
  assert (Hq : forall a, 0 <= a -> 0 <= a / free_cpu_memory)
    by (intros a Ha; apply Z.div_pos; lia).
  pose proof (Hq (num_frames * b1) ltac:(nia)).
  pose proof (Hq (num_frames * b1 + num_frames * b2) ltac:(nia)).
  destruct cuda_is_available, (n_face_detect_batches =? 0) eqn:E;
    repeat (rewrite py_floordiv_Ok by lia; cbn [mbind result_bind bind]);
    rewrite ?E; repeat (rewrite py_floordiv_Ok by lia);
    cbn; eexists; (split; [reflexivity | lia]).
Qed.

Lemma calc_n_batches_no_memory (vid_height vid_width : Z)
    (cuda_is_available : bool)
    (num_frames face_detect_width n_face_detect_batches : Z) :
  face_detect_width <> 0 ->
  _calc_n_batches calc_img_bytes vid_height vid_width 0
    cuda_is_available num_frames face_detect_width n_face_detect_batches
  = Raise ZeroDivisionError.
Proof using Type.
  intros Hfdw. unfold _calc_n_batches.
  rewrite py_truediv_double_Ok by lia. cbn [mbind result_bind bind].
  destruct cuda_is_available; reflexivity.
Qed.
End BatchSizerFacts.

Example calc_n_batches_hd :
  _calc_n_batches (fun h w c => h * w * c) 1080 1920 (2 ^ 30) true
    400 960 8 = Ok 8
  /\ _calc_n_batches (fun h w c => h * w * c) 1080 1920 (2 ^ 30) false
       400 960 8 = Ok 3.
Proof. split; vm_compute; reflexivity. Qed.

(** The double nearest to 1600 / 960 is above 5/3, so a video of 1600 by
    900 pixels is scaled to 539 rows, not 540, and one frame fits in
    5875200 free bytes. *)
Example calc_n_batches_1600x900 :
  Qfloor (900 / double_quotient 1600 960) = 539
  /\ _calc_n_batches (fun h w c => h * w * c) 900 1600 5875200 false
       1 960 0 = Ok 1.
Proof. split; vm_compute; reflexivity. Qed.

(** C4, as the spec states it, fails: with zero free memory the batch
    count of 13 frames of a 1920x1080 video is not computed, the floor
    division by the free memory raises. *)
Lemma calc_n_batches_zero_memory_raises :
  _calc_n_batches (fun h w c => h * w * c) 1080 1920 0 true 13 960 8
  = Raise ZeroDivisionError
  /\ _calc_n_batches (fun h w c => h * w * c) 1080 1920 0 false 13 960 8
     = Raise ZeroDivisionError.
Proof. split; vm_compute; reflexivity. Qed.

(** C4 (amended): there is no guard on the free-memory budget.  When it is
    zero the batch-count calculation fails with a division-by-zero error;
    when it is positive, for every frame count and video dimension the
    returned batch count is an integer >= 1. *)
Theorem calc_n_batches_by_free_memory
    (calc_img_bytes : Z -> Z -> Z -> Z)
    (vid_height vid_width free_cpu_memory : Z) (cuda_is_available : bool)
    (num_frames face_detect_width n_face_detect_batches : Z) :
  (forall h w c, 0 <= h -> 0 <= w -> 0 <= c -> 0 <= calc_img_bytes h w c) ->
  0 <= vid_height -> 0 <= vid_width -> 0 <= num_frames ->
  0 < face_detect_width ->
  (free_cpu_memory = 0 ->
   _calc_n_batches calc_img_bytes vid_height vid_width free_cpu_memory
     cuda_is_available num_frames face_detect_width n_face_detect_batches
   = Raise ZeroDivisionError)
  /\ (0 < free_cpu_memory ->
      exists n_batches,
        _calc_n_batches calc_img_bytes vid_height vid_width free_cpu_memory
          cuda_is_available num_frames face_detect_width
          n_face_detect_batches
        = Ok n_batches
        /\ 1 <= n_batches).
Proof.
  intros Hbytes Hh Hw Hn Hfdw. split.
  - intros ->. apply calc_n_batches_no_memory. lia.
  - intros Hfree. now apply calc_n_batches_Ok.
Qed.

Lemma calc_n_batches_by_free_memory_witness :
  exists n_batches,
    _calc_n_batches (fun h w c => h * w * c) 1080 1920 (2 ^ 30) false
      400 960 8 = Ok n_batches
    /\ 1 <= n_batches.
Proof.
  destruct (calc_n_batches_by_free_memory (fun h w c => h * w * c)
              1080 1920 (2 ^ 30) false 400 960 8) as [_ Hpos].
  - intros h w c Hh Hw Hc. apply Z.mul_nonneg_nonneg; [| exact Hc].
    now apply Z.mul_nonneg_nonneg.
  - lia.
  - lia.
  - lia.
  - lia.
  - apply Hpos. reflexivity.
Defined.

(** ** ROIMerger *)

Example iou_disjoint : iou (Rect.mk 0 0 10 10) (Rect.mk 20 0 10 10) == 0.
Proof. vm_compute. reflexivity. Qed.

Example iou_same : iou (Rect.mk 3 4 10 10) (Rect.mk 3 4 10 10) == 1.
Proof. vm_compute. reflexivity. Qed.

Example iou_empty_rects : iou (Rect.mk 3 4 0 0) (Rect.mk 3 4 0 0) == 0.
Proof. vm_compute. reflexivity. Qed.

(** The areas of two boxes of 190 by 190 pixels wrap around, and so does
    the union: the quotient is above 1. *)
Example iou_wraps_above_1 :
  iou (Rect.mk 0 0 190 190) (Rect.mk 0 160 190 190) == 1425 # 241.
Proof. vm_compute. reflexivity. Qed.

(** A face of 200 by 200 pixels seen twice is kept twice: the area wraps
    to a negative number and the IoU of the box with itself is 0. *)
Example merge_rois_keeps_large_face_twice :
  merge_rois [Rect.mk 300 100 200 200; Rect.mk 300 100 200 200] 0.5
  = Ok [Rect.mk 300 100 200 200; Rect.mk 300 100 200 200].
Proof. vm_compute. reflexivity. Qed.

Example merge_rois_repeated_face :
  merge_rois [Rect.mk 100 100 50 50; Rect.mk 400 90 60 60;
              Rect.mk 102 101 50 50] 0.5
  = Ok [Rect.mk 100 100 52 51; Rect.mk 400 90 60 60].
Proof. vm_compute. reflexivity. Qed.

Lemma list_get_Ok {A : Type} (l : list A) (i : nat) :
  (i < length l)%nat -> exists a, l !! i = Some a /\ list_get l i = Ok a.
Proof.
  intros Hi. destruct (lookup_lt_is_Some_2 l i Hi) as [a Ha].
  exists a. unfold list_get. now rewrite Ha.
Qed.

Lemma list_get_cases {A : Type} (l : list A) (i : nat) :
  (exists a, l !! i = Some a /\ list_get l i = Ok a)
  \/ list_get l i = Raise IndexError.
Proof. unfold list_get. destruct (l !! i); eauto. Qed.

(** The inner loop returns, and does not lengthen the list. *)
Lemma absorb_loop_length (overlap_threshold : Q) (roi : Rect.t)
    (rest : list Rect.t) :
  exists roi' rest' i,
    while_loop (length rest) absorb_cond (absorb_body overlap_threshold)
      (roi, rest, 0%nat) = Ok (roi', rest', i)
    /\ (length rest' <= length rest)%nat.
Proof.
  destruct (while_loop_total
              (fun '(_, rois, i) =>
                 (i <= length rois)%nat /\ (length rois <= length rest)%nat)
              (fun '(_, rois, i) => (length rois - i)%nat)
              absorb_cond (absorb_body overlap_threshold))
    with (fuel := length rest) (s := (roi, rest, 0%nat))
    as ([[roi' rest'] i] & Hrun & [_ Hlen] & _).
  - intros [[r rois] i] [Hi Hlen] Hc. cbn in Hc. apply Nat.ltb_lt in Hc.
    destruct (list_get_Ok rois i Hc) as (a & Ha & Hget).
    unfold absorb_body. rewrite Hget. cbn [mbind result_bind bind].
    destruct (Qlt_bool _ _).
    + eexists. split; [reflexivity |]. cbn.
      rewrite length_delete by eauto. lia.
    + eexists. split; [reflexivity |]. cbn. lia.
  - lia.
  - lia.
  - exists roi', rest', i. auto.
Qed.


(** [merge_rois] returns for every list, with at most as many rectangles
    as it was given. *)
Lemma merge_rois_length (rois : list Rect.t) (overlap_threshold : Q) :
  exists merged,
    merge_rois rois overlap_threshold = Ok merged
    /\ (length merged <= length rois)%nat.
Proof.
  unfold merge_rois.
  destruct (while_loop_total
              (fun st : list Rect.t * list Rect.t =>
                 (length (fst st) + length (snd st) <= length rois)%nat)
              (fun st => length (fst st))
              (fun st => negb (bool_decide (fst st = [])))
              (merge_rois_body overlap_threshold))
    with (fuel := length rois) (s := (rois, @nil Rect.t))
    as ([rest merged] & Hrun & Hlen & Hc).
  - intros [[| roi rest] merged] Hlen Hc; [discriminate |].
    cbn [fst snd] in Hlen. unfold merge_rois_body.
    destruct (absorb_loop_length overlap_threshold roi rest)
      as (roi' & rest' & i & -> & Hle).
    cbn [mbind result_bind bind]. eexists. split; [reflexivity |].
    cbn [fst snd length] in *. rewrite length_app. cbn. lia.
  - cbn. lia.
  - cbn. lia.
  - rewrite Hrun. cbn. eexists. split; [reflexivity |].
    cbn [fst snd] in *. lia.
Qed.



(** The IoU of two rectangles does not depend on their order. *)
Lemma iou_symmetric (rect1 rect2 : Rect.t) :
  iou rect1 rect2 = iou rect2 rect1.
Proof.
  unfold iou.
  rewrite (Z.max_comm (Rect.x rect1)), (Z.max_comm (Rect.y rect1)).
  rewrite (Z.min_comm (int16 (Rect.x rect1 + Rect.width rect1))),
    (Z.min_comm (int16 (Rect.y rect1 + Rect.height rect1))).
  rewrite (Z.add_comm (int16 (Rect.width rect1 * Rect.height rect1))).
  reflexivity.
Qed.










(** ** SegmentCoalescer *)

Example coalesce_merges_30 :
  _merge_identical_segments 1000 1000
    [CropSegment.mk [1] 0 2 (Single 100 0);
     CropSegment.mk [1] 2 5 (Single 130 0)]
  = Ok [CropSegment.mk [1] 0 5 (Single 115 0)].
Proof. vm_compute. reflexivity. Qed.

Example coalesce_keeps_50 :
  _merge_identical_segments 1000 1000
    [CropSegment.mk [1] 0 2 (Single 100 0);
     CropSegment.mk [1] 2 5 (Single 150 0)]
  = Ok [CropSegment.mk [1] 0 2 (Single 100 0);
        CropSegment.mk [1] 2 5 (Single 150 0)].
Proof. vm_compute. reflexivity. Qed.

Example coalesce_zero_width :
  _merge_identical_segments 0 1000
    [CropSegment.mk [1] 0 2 (Single 100 0);
     CropSegment.mk [1] 2 5 (Single 150 0)]
  = Raise ZeroDivisionError.
Proof. vm_compute. reflexivity. Qed.

Lemma getitem_Some (d : gmap string Z) (k : string) (v : Z) :
  d !! k = Some v -> getitem d k = Ok v.
Proof. intros H. unfold getitem. now rewrite H. Qed.

Section CoalescerFacts.
Variables video_width video_height : Z.
Hypothesis width_nonzero : video_width <> 0.
Hypothesis height_nonzero : video_height <> 0.

Lemma zipped_crops_similar_Ok (pairs : list (gmap string Z * gmap string Z)) :
  Forall (fun pair => has_x_y (fst pair) /\ has_x_y (snd pair)) pairs ->
  zipped_crops_similar pairs video_width video_height
    max_position_difference_ratio
  = Ok (forallb (sub_crops_similar video_width video_height) pairs).
Proof using width_nonzero height_nonzero.
  induction 1 as [| [crop1 crop2] pairs [[[x1 Hx1] [y1 Hy1]] [[x2 Hx2] [y2 Hy2]]]
                    _ IH]; [reflexivity |].
  cbn [fst snd] in *. cbn [zipped_crops_similar forallb].
  unfold sub_crops_similar at 1. cbn [fst snd].
  rewrite Hx1, Hx2, Hy1, Hy2.
  rewrite (getitem_Some _ _ _ Hx1), (getitem_Some _ _ _ Hx2),
    (getitem_Some _ _ _ Hy1), (getitem_Some _ _ _ Hy2).
  cbn [mbind result_bind bind].
  rewrite !py_truediv_Ok by assumption. cbn [mbind result_bind bind].
  unfold deltas_below, Qlt_bool.
  destruct (Qle_bool _ _), (Qle_bool _ _); cbn; auto.
Qed.

Lemma merge_crop_pairs_Ok (pairs : list (gmap string Z * gmap string Z)) :
  Forall (fun pair => has_x_y (fst pair) /\ has_x_y (snd pair)) pairs ->
  mapM merge_crop_pair pairs = Ok (averaged_sub_crop <$> pairs).
Proof using Type.
  induction 1 as [| [crop1 crop2] pairs [[[x1 Hx1] [y1 Hy1]] [[x2 Hx2] [y2 Hy2]]]
                    _ IH]; [reflexivity |].
  cbn [fst snd] in *. cbn [mapM fmap list_fmap]. rewrite IH.
  unfold merge_crop_pair, averaged_sub_crop. cbn [fst snd].
  rewrite Hx1, Hx2, Hy1, Hy2.
  rewrite (getitem_Some _ _ _ Hx1), (getitem_Some _ _ _ Hx2).
  cbn [mbind result_bind bind].
  assert (Hy1' : <["x" := (x1 + x2) / 2]> crop1 !! "y" = Some y1)
    by (rewrite lookup_insert_ne by discriminate; exact Hy1).
  rewrite (getitem_Some _ _ _ Hy1'), (getitem_Some _ _ _ Hy2).
  reflexivity.
Qed.

Lemma averaged_sub_crop_has_x_y (pair : gmap string Z * gmap string Z) :
  has_x_y (fst pair) -> has_x_y (averaged_sub_crop pair).
Proof using Type.
  intros Hwf. unfold averaged_sub_crop.
  repeat case_match; try exact Hwf. split.
  - rewrite lookup_insert_ne by discriminate.
    rewrite lookup_insert_eq. eauto.
  - rewrite lookup_insert_eq. eauto.
Qed.

Lemma zip_has_x_y (crops1 crops2 : list (gmap string Z)) :
  Forall has_x_y crops1 -> Forall has_x_y crops2 ->
  Forall (fun pair => has_x_y (fst pair) /\ has_x_y (snd pair))
    (zip crops1 crops2).
Proof using Type.
  intros H1. revert crops2.
  induction H1 as [| c1 cs1 Hc1 _ IH]; intros crops2 H2; [constructor |].
  destruct H2 as [| c2 cs2 Hc2 H2]; [constructor |].
  cbn. constructor; auto.
Qed.

Lemma merged_segment_well_formed (segment1 segment2 : CropSegment.t) :
  well_formed segment1 -> well_formed segment2 ->
  well_formed (merged_segment segment1 segment2).
Proof using Type.
  unfold well_formed, merged_segment. cbn [CropSegment.crop].
  destruct (CropSegment.crop segment1) as [x1 y1 | crops1 | c1],
           (CropSegment.crop segment2) as [x2 y2 | crops2 | c2];
    intros H1 H2; auto.
  apply Forall_fmap.
  eapply Forall_impl; [apply (zip_has_x_y _ _ H1 H2) |].
  intros pair [Hp _]. now apply averaged_sub_crop_has_x_y.
Qed.

Lemma replace_and_pop {A : Type} (l1 l2 : list A) (a b m : A) :
  delete (S (length l1)) (<[length l1 := m]> (l1 ++ a :: b :: l2))
  = l1 ++ m :: l2.
Proof using Type.
  rewrite insert_app_r_alt by lia. rewrite Nat.sub_diag.
  change (<[0%nat := m]> (a :: b :: l2)) with (m :: b :: l2).
  rewrite (cons_middle m), app_assoc.
  replace (S (length l1)) with (length (l1 ++ [m]))
    by (rewrite length_app; cbn; lia).
  rewrite delete_middle. now rewrite <- app_assoc.
Qed.

Lemma list_get_middle {A : Type} (l1 l2 : list A) (a : A) :
  list_get (l1 ++ a :: l2) (length l1) = Ok a.
Proof using Type.
  unfold list_get. now rewrite list_lookup_middle.
Qed.

Lemma list_get_after_middle {A : Type} (l1 l2 : list A) (a b : A) :
  list_get (l1 ++ a :: b :: l2) (S (length l1)) = Ok b.
Proof using Type.
  rewrite (cons_middle a), app_assoc.
  replace (S (length l1)) with (length (l1 ++ [a]))
    by (rewrite length_app; cbn; lia).
  apply list_get_middle.
Qed.

(** One iteration of the loop on well-formed segments: it merges the
    current segment with the next one when they are similar, and moves
    on otherwise. *)
Lemma coalesce_body_spec (visited rest : list CropSegment.t)
    (current next : CropSegment.t) :
  well_formed current -> well_formed next ->
  coalesce_body video_width video_height
    (visited ++ current :: next :: rest, length visited)
  = Ok (if similar video_width video_height current next
        then (visited ++ merged_segment current next :: rest,
              length visited)
        else (visited ++ current :: next :: rest, S (length visited))).
Proof using width_nonzero height_nonzero.
  intros Hwf1 Hwf2. unfold coalesce_body.
  rewrite list_get_middle, list_get_after_middle.
  cbn [mbind result_bind bind].
  destruct current as [sp1 st1 et1 c1], next as [sp2 st2 et2 c2].
  unfold well_formed, similar, merged_segment, CropSegment.crop_type,
    CropSegment.crops, _are_single_crops_similar,
    _merge_single_crop_segments, _merge_split_crop_segments,
    _are_split_crops_similar, CropSegment.x, CropSegment.y in *.
  cbn [CropSegment.crop CropSegment.speakers CropSegment.start_time
       CropSegment.end_time] in *.
  destruct c1 as [x1 y1 | crops1 | t1], c2 as [x2 y2 | crops2 | t2].
  - (* single, single *)
    cbn [String.eqb Ascii.eqb Bool.eqb andb negb mbind result_bind bind].
    rewrite !py_truediv_Ok by assumption.
    cbn [mbind result_bind bind]. fold (deltas_below video_width
      video_height x1 y1 x2 y2).
    destruct (deltas_below _ _ _ _ _ _); [| reflexivity].
    now rewrite replace_and_pop.
  - reflexivity.
  - destruct Hwf2 as [Hs _]. apply String.eqb_neq in Hs.
    rewrite String.eqb_sym in Hs. now rewrite Hs.
  - reflexivity.
  - (* split, split *)
    cbn [String.eqb Ascii.eqb Bool.eqb andb negb]. rewrite ?bind_Ok_l.
    destruct (length crops1 =? length crops2)%nat eqn:Hlen;
      cbn [negb andb]; [| reflexivity].
    pose proof (zip_has_x_y _ _ Hwf1 Hwf2) as Hzip.
    rewrite (zipped_crops_similar_Ok _ Hzip), bind_Ok_l.
    destruct (forallb _ _); [| reflexivity].
    unfold CropSegment.crops. cbn [CropSegment.crop].
    rewrite ?bind_Ok_l, (merge_crop_pairs_Ok _ Hzip), ?bind_Ok_l.
    apply Nat.eqb_eq in Hlen.
    rewrite drop_ge by lia. rewrite app_nil_r.
    now rewrite replace_and_pop.
  - destruct Hwf2 as [_ Hs]. apply String.eqb_neq in Hs.
    rewrite String.eqb_sym in Hs. now rewrite Hs.
  - destruct Hwf1 as [Hs _]. apply String.eqb_neq in Hs. now rewrite Hs.
  - destruct Hwf1 as [_ Hs]. apply String.eqb_neq in Hs. now rewrite Hs.
  - destruct Hwf1 as [Hs1 Hs2]. apply String.eqb_neq in Hs1, Hs2.
    destruct (String.eqb t1 t2); cbn [negb]; [| reflexivity].
    now rewrite Hs1, Hs2.
Qed.

Lemma coalesce_loop (rest : list CropSegment.t) :
  forall (visited : list CropSegment.t) (current : CropSegment.t)
         (fuel : nat),
    well_formed current -> Forall well_formed rest ->
    (length rest <= fuel)%nat ->
    while_loop fuel coalesce_cond (coalesce_body video_width video_height)
      (visited ++ current :: rest, length visited)
    = Ok (visited ++ coalesce video_width video_height current rest,
          (length (visited ++ coalesce video_width video_height
                                current rest) - 1)%nat).
Proof using width_nonzero height_nonzero.
  induction rest as [| next rest IH];
    intros visited current fuel Hcur Hrest Hfuel.
  - rewrite while_loop_done.
    + cbn [coalesce]. repeat f_equal. rewrite length_app. cbn. lia.
    + unfold coalesce_cond. cbn [fst snd]. rewrite length_app.
      cbn [length]. apply Z.ltb_ge. lia.
  - destruct fuel as [| fuel]; [cbn in Hfuel; lia |].
    apply Forall_cons in Hrest as [Hnext Hrest].
    rewrite while_loop_step.
    2:{ unfold coalesce_cond. cbn [fst snd]. rewrite length_app.
        cbn [length]. apply Z.ltb_lt. lia. }
    rewrite coalesce_body_spec by assumption. rewrite bind_Ok_l.
    cbn [coalesce]. cbn [length] in Hfuel.
    destruct (similar video_width video_height current next).
    + apply IH; [now apply merged_segment_well_formed | exact Hrest | lia].
    + rewrite (cons_middle current), !app_assoc.
      replace (S (length visited)) with (length (visited ++ [current]))
        by (rewrite length_app; cbn; lia).
      rewrite (IH _ _ fuel Hnext Hrest ltac:(lia)).
      now rewrite <- !app_assoc.
Qed.

(** On well-formed segments the loop is the single forward pass. *)
Lemma merge_identical_segments_coalesce (segments : list CropSegment.t) :
  Forall well_formed segments ->
  _merge_identical_segments video_width video_height segments
  = Ok match segments with
       | [] => []
       | first :: rest => coalesce video_width video_height first rest
       end.
Proof using width_nonzero height_nonzero.
  intros Hwf. unfold _merge_identical_segments.
  destruct Hwf as [| first rest Hfirst Hrest]; [reflexivity |].
  change (first :: rest, 0%nat)
    with ([] ++ first :: rest, length (@nil CropSegment.t)).
  rewrite coalesce_loop by (cbn; auto with lia).
  reflexivity.
Qed.

(** The single forward pass cuts the segments into runs: each returned
    segment is the merge of a run, and is not similar to the first
    segment of the next run. *)
Lemma coalesce_runs (rest : list CropSegment.t) :
  forall current : CropSegment.t,
  exists runs : list (list CropSegment.t),
    concat runs = current :: rest
    /\ Forall2 (fun run out => merge_run run = Some out) runs
         (coalesce video_width video_height current rest)
    /\ (forall i a run b,
          coalesce video_width video_height current rest !! i = Some a ->
          runs !! S i = Some run -> head run = Some b ->
          similar video_width video_height a b = false).
Proof using Type.
  induction rest as [| next rest IH]; intros current.
  - exists [[current]]. repeat split.
    + repeat constructor.
    + intros i a run b _ Hrun. destruct i; discriminate.
  - cbn [coalesce].
    destruct (similar video_width video_height current next) eqn:Hsim.
    + destruct (IH (merged_segment current next))
        as (runs & Hcat & Hruns & Hchain).
      destruct Hruns as [| run out runs outs Hrun Hruns];
        [discriminate |].
      destruct run as [| first others]; [discriminate |].
      injection Hcat as -> Hcat.
      exists ((current :: next :: others) :: runs). repeat split.
      * cbn. now rewrite Hcat.
      * constructor; [exact Hrun | exact Hruns].
      * intros i a run b Ha Hr Hb. exact (Hchain i a run b Ha Hr Hb).
    + destruct (IH next) as (runs & Hcat & Hruns & Hchain).
      exists ([current] :: runs). repeat split.
      * cbn. now rewrite Hcat.
      * constructor; [reflexivity | exact Hruns].
      * intros [| i] a run b Ha Hr Hb.
        -- injection Ha as <-. cbn in Hr.
           destruct runs as [| run' runs']; [discriminate |].
           injection Hr as ->.
           destruct run as [| first others]; [discriminate |].
           injection Hcat as -> _. injection Hb as <-. exact Hsim.
        -- exact (Hchain i a run b Ha Hr Hb).
Qed.
End CoalescerFacts.

(** C8, as the spec states it, fails: on a 1000x1000 source the crops at
    x = 50 and x = 5 are not merged (0.045), the crops at 5 and 30 are
    (0.025) and become x = 17; the loop does not go back, and the two
    returned segments are similar (0.033 < 0.04). *)
Lemma coalesce_not_fixed_point :
  _merge_identical_segments 1000 1000
    [CropSegment.mk [1] 0 2 (Single 50 0);
     CropSegment.mk [2] 2 4 (Single 5 0);
     CropSegment.mk [2] 4 9 (Single 30 0)]
  = Ok [CropSegment.mk [1] 0 2 (Single 50 0);
        CropSegment.mk [2] 2 9 (Single 17 0)]
  /\ similar 1000 1000 (CropSegment.mk [1] 0 2 (Single 50 0))
       (CropSegment.mk [2] 2 9 (Single 17 0)) = true.
Proof. split; vm_compute; reflexivity. Qed.

(** C8 (amended): segment coalescing is a single forward pass.  On
    well-formed segments of a video with non-zero width and height it
    returns; each returned segment is the left-to-right merge of a run of
    consecutive input segments, and it is not similar (matching crop_type
    and all coordinate deltas strictly below 0.04) to the first input
    segment of the next run, the one it was compared with.  The next
    returned segment itself, whose coordinates are averaged with those of
    its followers afterwards, may be similar to it. *)
Theorem coalesce_single_pass (video_width video_height : Z)
    (segments : list CropSegment.t) :
  video_width <> 0 -> video_height <> 0 ->
  Forall well_formed segments ->
  exists (merged : list CropSegment.t) (runs : list (list CropSegment.t)),
    _merge_identical_segments video_width video_height segments = Ok merged
    /\ concat runs = segments
    /\ Forall2 (fun run out => merge_run run = Some out) runs merged
    /\ (forall i a run b,
          merged !! i = Some a -> runs !! S i = Some run ->
          head run = Some b ->
          similar video_width video_height a b = false).
Proof.
  intros Hw Hh Hwf.
  rewrite (merge_identical_segments_coalesce _ _ Hw Hh _ Hwf).
  destruct segments as [| first rest].
  - exists [], []. repeat split; [constructor |].
    intros i a run b Ha. destruct i; discriminate.
  - destruct (coalesce_runs video_width video_height rest first)
      as (runs & Hcat & Hruns & Hchain).
    exists (coalesce video_width video_height first rest), runs. auto.
Qed.

Lemma coalesce_single_pass_witness :
  exists (merged : list CropSegment.t) (runs : list (list CropSegment.t)),
    _merge_identical_segments 1000 1000
      [CropSegment.mk [1] 0 2 (Single 50 0);
       CropSegment.mk [2] 2 4 (Single 5 0);
       CropSegment.mk [2] 4 9 (Single 30 0)] = Ok merged
    /\ concat runs = [CropSegment.mk [1] 0 2 (Single 50 0);
                      CropSegment.mk [2] 2 4 (Single 5 0);
                      CropSegment.mk [2] 4 9 (Single 30 0)]
    /\ Forall2 (fun run out => merge_run run = Some out) runs merged
    /\ (forall i a run b,
          merged !! i = Some a -> runs !! S i = Some run ->
          head run = Some b -> similar 1000 1000 a b = false).
Proof.
  apply (coalesce_single_pass 1000 1000).
  - lia.
  - lia.
  - repeat constructor.
Defined.

(** ** TimelineMerger *)

Example merge_split :
  _merge_scene_change_and_speaker_segments
    [SpeakerSegment.mk [1] 0 10; SpeakerSegment.mk [2] 10 20]
    [4%Q; 15%Q] 0.25
  = Ok [SpeakerSegment.mk [1] 0 4; SpeakerSegment.mk [1] 4 10;
        SpeakerSegment.mk [2] 10 15; SpeakerSegment.mk [2] 15 20].
Proof. vm_compute. reflexivity. Qed.

Example merge_snap_to_end :
  _merge_scene_change_and_speaker_segments
    [SpeakerSegment.mk [1] 0 10; SpeakerSegment.mk [2] 10 20]
    [9.9%Q] 0.25
  = Ok [SpeakerSegment.mk [1] 0 9.9; SpeakerSegment.mk [2] 9.9 20].
Proof. vm_compute. reflexivity. Qed.

Example merge_snap_to_start :
  _merge_scene_change_and_speaker_segments
    [SpeakerSegment.mk [1] 0 10; SpeakerSegment.mk [2] 10 20]
    [10.1%Q] 0.25
  = Ok [SpeakerSegment.mk [1] 0 10.1; SpeakerSegment.mk [2] 10.1 20].
Proof. vm_compute. reflexivity. Qed.

(** A second scene change after one that snapped the end of the last
    segment runs the cursor off the list. *)
Example merge_index_error :
  _merge_scene_change_and_speaker_segments
    [SpeakerSegment.mk [1] 0 10] [9.9%Q; 9.95%Q] 0.25
  = Raise IndexError.
Proof. vm_compute. reflexivity. Qed.

Lemma chained_contiguous (segments : list SpeakerSegment.t) :
  chained segments <-> contiguous segments.
Proof.
  induction segments as [| a rest IH].
  - split; [intros _ i a b Ha; discriminate | constructor].
  - cbn [chained]. rewrite IH. split.
    + intros [Hab Hrest] [| i] x y Hx Hy.
      * injection Hx as <-. destruct rest as [| b rest]; [discriminate |].
        injection Hy as <-. exact Hab.
      * exact (Hrest i x y Hx Hy).
    + intros H. split.
      * destruct rest as [| b rest]; [exact I |].
        exact (H 0%nat a b eq_refl eq_refl).
      * intros i x y Hx Hy. exact (H (S i) x y Hx Hy).
Qed.

Lemma chained_app (l1 l2 : list SpeakerSegment.t) :
  chained (l1 ++ l2)
  <-> chained l1 /\ chained l2
      /\ (forall a b, last l1 = Some a -> head l2 = Some b ->
            (SpeakerSegment.end_time a == SpeakerSegment.start_time b)%Q).
Proof.
  induction l1 as [| x l1 IH].
  - cbn. split; [| tauto]. intros H. split; [exact I |]. split; [exact H |].
    intros a b Ha. discriminate.
  - cbn [app chained]. rewrite IH. clear IH. destruct l1 as [| y l1].
    + cbn [app chained last]. destruct l2 as [| z l2]; cbn [head].
      * split; intros _.
        -- split; [tauto |]. split; [exact I |].
           intros a b _ Hb. discriminate.
        -- split; [exact I |]. split; [exact I |]. split; [exact I |].
           intros a b Ha. discriminate.
      * split.
        -- intros (Hxz & _ & Hl2 & _). split; [tauto |]. split; [exact Hl2 |].
           intros a b [= <-] [= <-]. exact Hxz.
        -- intros (_ & Hl2 & H). split; [now apply H |].
           split; [exact I |]. split; [exact Hl2 |].
           intros a b Ha. discriminate.
    + cbn [app]. rewrite last_cons_cons. tauto.
Qed.

Lemma repeats_of_refl {A : Type} (l : list A) : repeats_of l l.
Proof. induction l; constructor; auto. Qed.

Lemma repeats_of_again_inside {A : Type} (l m : list A) :
  repeats_of l m ->
  forall pre x post, m = pre ++ x :: post ->
    repeats_of l (pre ++ x :: x :: post).
Proof.
  induction 1 as [| y l l' H IH | y l l' H IH]; intros pre x post Heq.
  - destruct pre; discriminate.
  - destruct pre as [| p pre]; cbn in Heq; injection Heq as -> ->.
    + apply repeats_again, repeats_next, H.
    + cbn. apply repeats_next. now apply IH.
  - destruct pre as [| p pre]; cbn in Heq; injection Heq as -> Heq.
    + subst post. apply repeats_again, repeats_again, H.
    + specialize (IH pre x post Heq). cbn.
      destruct pre as [| q pre]; cbn in Heq, IH |- *;
        injection Heq as -> ->; apply repeats_again, IH.
Qed.

Lemma advance_cursor_finds (t : Q) (last_segment : SpeakerSegment.t)
    (rest : list SpeakerSegment.t) :
  forall idx,
    last rest = Some last_segment ->
    (t <= SpeakerSegment.end_time last_segment)%Q ->
    exists pre segment post,
      rest = pre ++ segment :: post
      /\ advance_cursor rest idx t = Ok (idx + length pre)%nat
      /\ (t <= SpeakerSegment.end_time segment)%Q.
Proof.
  induction rest as [| s rest IH]; intros idx Hlast Ht; [discriminate |].
  cbn [advance_cursor].
  destruct (Qlt_bool (SpeakerSegment.end_time s) t) eqn:Hcmp.
  - destruct rest as [| s' rest].
    + injection Hlast as <-. apply Qlt_bool_iff in Hcmp. lra.
    + rewrite last_cons_cons in Hlast.
      destruct (IH (S idx) Hlast Ht) as (pre & seg & post & -> & Hrun & Hle).
      exists (s :: pre), seg, post.
      split; [reflexivity |]. split; [| exact Hle].
      rewrite Hrun. f_equal. cbn. lia.
  - apply Qlt_bool_false in Hcmp.
    exists [], s, rest.
    split; [reflexivity |]. split; [| exact Hcmp].
    f_equal. cbn. lia.
Qed.
Lemma last_drop {A : Type} (l : list A) (n : nat) :
  (n < length l)%nat -> last (drop n l) = last l.
Proof.
  intros Hn. rewrite <- (take_drop n l) at 2. rewrite last_app.
  destruct (last (drop n l)) eqn:E; [reflexivity |].
  apply last_None in E. apply (f_equal length) in E.
  rewrite length_drop in E. cbn in E. lia.
Qed.

Lemma list_insert_middle {A : Type} (l1 l2 : list A) (a x : A) :
  <[length l1 := x]> (l1 ++ a :: l2) = l1 ++ x :: l2.
Proof.
  rewrite insert_app_r_alt by lia. now rewrite Nat.sub_diag.
Qed.

Lemma chained_cons (a : SpeakerSegment.t) (l : list SpeakerSegment.t) :
  chained (a :: l)
  <-> (forall b, head l = Some b ->
         (SpeakerSegment.end_time a == SpeakerSegment.start_time b)%Q)
      /\ chained l.
Proof.
  cbn [chained]. destruct l as [| b l]; cbn [head].
  - split; [intros _; split; [intros b Hb; discriminate | exact I] | tauto].
  - split.
    + intros [Hab Hl]. split; [intros b' [= <-]; exact Hab | exact Hl].
    + intros [Hab Hl]. split; [now apply Hab | exact Hl].
Qed.

Lemma chained_middle (pre post : list SpeakerSegment.t)
    (seg : SpeakerSegment.t) :
  chained (pre ++ seg :: post)
  <-> chained pre /\ chained post
      /\ (forall a, last pre = Some a ->
            (SpeakerSegment.end_time a == SpeakerSegment.start_time seg)%Q)
      /\ (forall b, head post = Some b ->
            (SpeakerSegment.end_time seg == SpeakerSegment.start_time b)%Q).
Proof.
  rewrite chained_app, chained_cons. cbn [head]. split.
  - intros (Hpre & (Hsb & Hpost) & Hj). repeat (split; [assumption |]).
    split; [| exact Hsb]. intros a Ha. now apply Hj.
  - intros (Hpre & Hpost & Hj1 & Hj2).
    split; [exact Hpre |]. split; [split; assumption |].
    intros a b Ha [= <-]. now apply Hj1.
Qed.

Lemma take_after_middle {A : Type} (l1 l2 : list A) (x : A) :
  take (S (length l1)) (l1 ++ x :: l2) = l1 ++ [x].
Proof.
  rewrite (cons_middle x), app_assoc.
  apply take_app_length'. rewrite length_app. cbn. lia.
Qed.

Lemma drop_after_middle {A : Type} (l1 l2 : list A) (x : A) :
  drop (S (length l1)) (l1 ++ x :: l2) = l2.
Proof.
  rewrite (cons_middle x), app_assoc.
  apply drop_app_length'. rewrite length_app. cbn. lia.
Qed.

Lemma snoc_cases {A : Type} (l : list A) :
  l = [] \/ exists l' x, l = l' ++ [x].
Proof. induction l using rev_ind; eauto. Qed.

Lemma head_start_middle (pre post post' : list SpeakerSegment.t)
    (seg seg' : SpeakerSegment.t) (first_start : Q) :
  (exists s, head (SpeakerSegment.start_time
                     <$> pre ++ seg :: post) = Some s
             /\ (first_start <= s)%Q) ->
  (SpeakerSegment.start_time seg <= SpeakerSegment.start_time seg')%Q ->
  exists s, head (SpeakerSegment.start_time
                    <$> pre ++ seg' :: post') = Some s
            /\ (first_start <= s)%Q.
Proof.
  intros (s & Hs & Hle) Hseg. destruct pre as [| p pre]; cbn in *.
  - injection Hs as <-. eexists. split; [reflexivity | lra].
  - eauto.
Qed.

Ltac list_ends :=
  rewrite ?fmap_app, ?fmap_cons, ?last_app_cons, ?last_cons_cons in *.

Lemma merge_scene_change_step (thr first_start last_end : Q)
    (speakers0 : list (list Z)) (segments : list SpeakerSegment.t)
    (idx : nat) (t : Q) :
  merge_invariant first_start last_end speakers0 segments ->
  ends_at last_end segments ->
  (idx < length segments)%nat ->
  (t <= last_end)%Q ->
  exists segments' idx',
    merge_scene_change thr (segments, idx) t = Ok (segments', idx')
    /\ merge_invariant first_start last_end speakers0 segments'
    /\ (idx' < length segments')%nat
    /\ ((t <= last_end - thr)%Q -> ends_at last_end segments').
Proof.
  intros (Hchain & Hfirst & _ & Hsp) (e & He & HeE) Hidx Ht.
  destruct (last segments) as [l |] eqn:Hl;
    [| rewrite fmap_last, Hl in He; discriminate].
  assert (HlE : (SpeakerSegment.end_time l == last_end)%Q).
  { rewrite fmap_last, Hl in He. injection He as <-. exact HeE. }
  destruct (advance_cursor_finds t l (drop idx segments) idx)
    as (pre0 & seg & post & Hdrop & Hadv & Hseg).
  { now rewrite last_drop. }
  { lra. }
  unfold merge_scene_change. rewrite Hadv, bind_Ok_l.
  assert (Hsegs : segments = (take idx segments ++ pre0) ++ seg :: post).
  { rewrite <- app_assoc, <- Hdrop. now rewrite take_drop. }
  assert (Hlen : (idx + length pre0)%nat
                 = length (take idx segments ++ pre0)).
  { rewrite length_app, length_take. lia. }
  rewrite Hlen. clear Hlen Hadv Hdrop Hidx Hl HlE.
  set (pre := take idx segments ++ pre0) in *. clearbody pre. clear pre0.
  subst segments. rewrite list_get_middle, bind_Ok_l.
  rewrite !list_insert_middle.
  apply chained_middle in Hchain as (Hpre & Hpost & Hj1 & Hj2).
  unfold merge_invariant, ends_at.
  destruct (Qlt_bool 0 (SpeakerSegment.end_time seg - t)
            && Qlt_bool (SpeakerSegment.end_time seg - t) thr) eqn:C1.
  { apply andb_true_iff in C1 as [C1a C1b].
    apply Qlt_bool_iff in C1a, C1b.
    destruct post as [| next post].
    - (* the last segment: its end is snapped *)
      rewrite (proj2 (Nat.eqb_eq _ _)) by (rewrite length_app; cbn; lia).
      eexists _, _. split; [reflexivity |].
      split; [| split; [rewrite length_app; cbn; lia |]].
      + split; [| split; [| split]].
        * apply chained_middle. repeat (split; [assumption |]).
          intros b Hb. discriminate.
        * apply (head_start_middle pre [] [] seg); [exact Hfirst |].
          cbn. lra.
        * list_ends. cbn in *. injection He as <-.
          eexists. split; [reflexivity | lra].
        * list_ends. exact Hsp.
      + intros Hearly. exfalso. list_ends. cbn in He.
        injection He as <-. lra.
    - rewrite (proj2 (Nat.eqb_neq _ _)) by (rewrite length_app; cbn; lia).
      rewrite list_get_after_middle, bind_Ok_l.
      rewrite (cons_middle (SpeakerSegment.set_end_time seg t)), app_assoc.
      replace (S (length pre))
        with (length (pre ++ [SpeakerSegment.set_end_time seg t]))
        by (rewrite length_app; cbn; lia).
      rewrite list_insert_middle, <- app_assoc. cbn [app].
      eexists _, _. split; [reflexivity |].
      apply chained_cons in Hpost as [Hnext Hpost].
      split; [| split; [rewrite !length_app; cbn; lia |]].
      + split; [| split; [| split]].
        * apply chained_middle. split; [exact Hpre |].
          split; [apply chained_cons; split; assumption |].
          split; [exact Hj1 |]. intros b [= <-]. reflexivity.
        * apply (head_start_middle pre (next :: post) _ seg);
            [exact Hfirst |]. cbn. lra.
        * list_ends. cbn in *. eexists. split; [exact He | lra].
        * list_ends. exact Hsp.
      + intros _. list_ends. cbn in *. eauto.
  }
  clear C1.
  destruct (Qlt_bool 0 (t - SpeakerSegment.start_time seg)
            && Qlt_bool (t - SpeakerSegment.start_time seg) thr) eqn:C2.
  { apply andb_true_iff in C2 as [C2a C2b].
    apply Qlt_bool_iff in C2a, C2b.
    destruct (snoc_cases pre) as [-> | (pre' & prev & ->)].
    - (* the first segment: its start is snapped *)
      cbn [length app]. eexists _, _. split; [reflexivity |].
      split; [| split; [cbn; lia |]].
      + split; [| split; [| split]].
        * apply chained_cons. split; assumption.
        * apply (head_start_middle [] post post seg); [exact Hfirst |].
          cbn. lra.
        * list_ends. cbn in *. eexists. split; [exact He | lra].
        * exact Hsp.
      + intros _. list_ends. cbn in *. eauto.
    - rewrite length_app. cbn [length]. rewrite Nat.add_1_r.
      rewrite <- !app_assoc. cbn [app].
      rewrite list_get_middle, bind_Ok_l, list_insert_middle.
      eexists _, _. split; [reflexivity |].
      apply chained_middle in Hpre as (Hpre' & _ & Hj0 & _).
      rewrite <- app_assoc in Hfirst, He, Hsp. cbn [app] in Hfirst, He, Hsp.
      split; [| split; [rewrite !length_app; cbn; lia |]].
      + split; [| split; [| split]].
        * apply chained_middle. split; [exact Hpre' |].
          split; [apply chained_cons; split; assumption |].
          split; [exact Hj0 |]. intros b [= <-]. reflexivity.
        * apply (head_start_middle pre' (seg :: post) _ prev);
            [exact Hfirst |]. cbn. lra.
        * list_ends. cbn in *. eexists. split; [exact He | lra].
        * list_ends. exact Hsp.
      + intros _. list_ends. cbn in *. eauto.
  }
  clear C2.
  assert (Hkeep : merge_invariant first_start last_end speakers0
                    (pre ++ seg :: post)).
  { split; [| split; [| split]]; auto.
    - apply chained_middle. auto.
    - eexists. split; [exact He | lra]. }
  destruct (Qeq_bool t (SpeakerSegment.end_time seg)) eqn:C3.
  { (* the scene change is already a boundary *)
    eexists _, _. split; [reflexivity |].
    split; [exact Hkeep |]. split; [rewrite length_app; cbn; lia |].
    intros _. eauto. }
  (* the segment is split *)
  rewrite take_after_middle, drop_after_middle.
  rewrite <- app_assoc. cbn [app].
  eexists _, _. split; [reflexivity |].
  split; [| split; [rewrite !length_app; cbn; lia |]].
  + split; [| split; [| split]].
    * apply chained_middle. split; [exact Hpre |].
      split; [apply chained_cons; split; assumption |].
      split; [exact Hj1 |]. intros b [= <-]. reflexivity.
    * apply (head_start_middle pre post _ seg); [exact Hfirst |].
      cbn. lra.
    * list_ends. cbn in *.
      destruct post as [| next post]; list_ends; cbn in *;
        eexists; (split; [exact He | lra]).
    * list_ends. cbn. now apply repeats_of_again_inside with (1 := Hsp).
  + intros _. list_ends. cbn in *.
    destruct post as [| next post]; list_ends; cbn in *; eauto.
Qed.

Lemma merge_scene_changes_loop (thr first_start last_end : Q)
    (speakers0 : list (list Z)) (scene_changes : list Q) :
  forall (segments : list SpeakerSegment.t) (idx : nat),
    merge_invariant first_start last_end speakers0 segments ->
    ends_at last_end segments ->
    (idx < length segments)%nat ->
    Forall (fun t => (t <= last_end)%Q) scene_changes ->
    (forall i t, scene_changes !! i = Some t ->
                 (S i < length scene_changes)%nat ->
                 (t <= last_end - thr)%Q) ->
    exists segments' idx',
      for_each (merge_scene_change thr) scene_changes (segments, idx)
      = Ok (segments', idx')
      /\ merge_invariant first_start last_end speakers0 segments'.
Proof.
  induction scene_changes as [| t scene_changes IH];
    intros segments idx Hinv Hends Hidx Hle Hearly.
  - exists segments, idx. split; [reflexivity | exact Hinv].
  - apply Forall_cons in Hle as [Ht Hle]. cbn [for_each].
    destruct (merge_scene_change_step thr first_start last_end speakers0
                segments idx t Hinv Hends Hidx Ht)
      as (segments1 & idx1 & -> & Hinv1 & Hidx1 & Hends1).
    rewrite bind_Ok_l.
    destruct scene_changes as [| t' scene_changes].
    + exists segments1, idx1. split; [reflexivity | exact Hinv1].
    + apply IH; auto.
      * apply Hends1. apply (Hearly 0%nat t eq_refl). cbn. lia.
      * intros i u Hu Hi. apply (Hearly (S i) u Hu). cbn in *. lia.
Qed.

(** C5, as the spec states it, fails: a scene change 0.1 s before the end
    of the last segment snaps that end, and the output covers [0, 9.9]
    where the input covered [0, 10]. *)
Lemma timeline_merge_coverage_shrinks :
  valid_input [SpeakerSegment.mk [1] 0 10] [9.9%Q]
    (SpeakerSegment.mk [1] 0 10) (SpeakerSegment.mk [1] 0 10)
  /\ _merge_scene_change_and_speaker_segments
       [SpeakerSegment.mk [1] 0 10] [9.9%Q] 0.25
     = Ok [SpeakerSegment.mk [1] 0 9.9]
  /\ ~ Qeq (SpeakerSegment.end_time (SpeakerSegment.mk [1] 0 9.9))
           (SpeakerSegment.end_time (SpeakerSegment.mk [1] 0 10)).
Proof.
  split; [| split].
  - split; [reflexivity |]. split; [reflexivity |].
    split; [repeat constructor |]. split; [| split].
    + intros [| i] a b Ha Hb; discriminate.
    + cbn. tauto.
    + repeat (constructor; [cbn; lra |]). constructor.
  - vm_compute. reflexivity.
  - cbn. intros H. lra.
Qed.

(** C5 (amended): for every valid input (speaker segments with start < end
    and gap-free, scene changes strictly increasing and within the covered
    range) in which every scene change but the last is at least the merge
    threshold before the end of the last segment, the timeline merge
    returns a contiguous segment list (each segment's end_time equals the
    next segment's start_time) whose coverage lies within the input's
    coverage: first.start is not before the input's and last.end is not
    after the input's (a scene change within the threshold of either
    boundary snaps it, so the coverage can shrink).  Every segment
    produced by a split inherits the speaker set of the segment it was
    split from. *)
Theorem timeline_merge_contiguous
    (speaker_segments : list SpeakerSegment.t) (scene_changes : list Q)
    (scene_merge_threshold : Q)
    (first_segment last_segment : SpeakerSegment.t) :
  valid_input speaker_segments scene_changes first_segment last_segment ->
  (forall i t, scene_changes !! i = Some t ->
               (S i < length scene_changes)%nat ->
               (t <= SpeakerSegment.end_time last_segment
                     - scene_merge_threshold)%Q) ->
  exists merged first_merged last_merged,
    _merge_scene_change_and_speaker_segments speaker_segments scene_changes
      scene_merge_threshold = Ok merged
    /\ contiguous merged
    /\ head merged = Some first_merged
    /\ last merged = Some last_merged
    /\ (SpeakerSegment.start_time first_segment
        <= SpeakerSegment.start_time first_merged)%Q
    /\ (SpeakerSegment.end_time last_merged
        <= SpeakerSegment.end_time last_segment)%Q
    /\ repeats_of (SpeakerSegment.speakers <$> speaker_segments)
         (SpeakerSegment.speakers <$> merged).
Proof.
  intros (Hhead & Hlast & _ & Hcont & _ & Hrange) Hearly.
  unfold _merge_scene_change_and_speaker_segments.
  destruct (merge_scene_changes_loop scene_merge_threshold
              (SpeakerSegment.start_time first_segment)
              (SpeakerSegment.end_time last_segment)
              (SpeakerSegment.speakers <$> speaker_segments)
              scene_changes speaker_segments 0%nat)
    as (merged & idx & -> & Hchain & (s & Hs & HsS) & (e & He & HeE) & Hsp).
  - split; [now apply chained_contiguous |].
    split; [| split].
    + destruct speaker_segments; [discriminate |].
      injection Hhead as ->. eexists. split; [reflexivity | lra].
    + rewrite fmap_last, Hlast. eexists. split; [reflexivity | lra].
    + apply repeats_of_refl.
  - unfold ends_at. rewrite fmap_last, Hlast. eexists. split; reflexivity.
  - destruct speaker_segments; [discriminate | cbn; lia].
  - eapply Forall_impl; [exact Hrange |]. cbn. tauto.
  - exact Hearly.
  - rewrite bind_Ok_l. cbn [fst].
    rewrite fmap_last in He.
    destruct (last merged) as [last_merged |] eqn:Hl; [| discriminate].
    destruct merged as [| first_merged merged']; [discriminate |].
    injection He as <-. injection Hs as <-.
    exists (first_merged :: merged'), first_merged, last_merged.
    split; [reflexivity |]. split; [now apply chained_contiguous |].
    auto.
Qed.

Lemma timeline_merge_contiguous_witness :
  exists merged first_merged last_merged,
    _merge_scene_change_and_speaker_segments
      [SpeakerSegment.mk [1] 0 10; SpeakerSegment.mk [2] 10 20]
      [4%Q; 19.9%Q] 0.25 = Ok merged
    /\ contiguous merged
    /\ head merged = Some first_merged
    /\ last merged = Some last_merged
    /\ (0 <= SpeakerSegment.start_time first_merged)%Q
    /\ (SpeakerSegment.end_time last_merged <= 20)%Q
    /\ repeats_of [[1]; [2]] (SpeakerSegment.speakers <$> merged).
Proof.
  apply (timeline_merge_contiguous
           [SpeakerSegment.mk [1] 0 10; SpeakerSegment.mk [2] 10 20]
           [4%Q; 19.9%Q] 0.25
           (SpeakerSegment.mk [1] 0 10) (SpeakerSegment.mk [2] 10 20)).
  - split; [reflexivity |]. split; [reflexivity |].
    split; [repeat constructor |]. split; [| split].
    + intros [| [| i]] a b Ha Hb; try discriminate.
      injection Ha as <-. injection Hb as <-. reflexivity.
    + cbn. split; [reflexivity | tauto].
    + repeat (constructor; [cbn; lra |]). constructor.
  - intros [| [| i]] t Ht Hi; cbn in Hi; try lia.
    injection Ht as <-. cbn. lra.
Defined.

(** ** FacePresenceScanner *)

Lemma select_times_spec (batch_period : Z) (segments : list ScanSegment.t) :
  forall visited detect_secs,
    foldl (select_times batch_period) (visited, detect_secs) segments
    = (visited ++ (with_samples batch_period <$> segments),
       detect_secs ++ concat (sample_times batch_period <$> segments)).
Proof.
  induction segments as [| s segments IH]; intros visited detect_secs.
  - cbn. now rewrite !app_nil_r.
  - cbn [foldl fmap list_fmap concat].
    replace (select_times batch_period (visited, detect_secs) s)
      with (visited ++ [with_samples batch_period s],
            detect_secs ++ sample_times batch_period s).
    + rewrite IH, <- !app_assoc. reflexivity.
    + unfold select_times, with_samples, sample_times.
      destruct (ScanSegment.is_analyzed s) eqn:E.
      * now rewrite app_nil_r.
      * unfold with_samples. rewrite E. reflexivity.
Qed.

Lemma length_range (n : Z) : length (range n) = Z.to_nat n.
Proof. unfold range. now rewrite length_fmap, length_seq. Qed.

Lemma length_sample_times (batch_period : Z) (s : ScanSegment.t) :
  length (sample_times batch_period s)
  = if ScanSegment.is_analyzed s then 0%nat
    else Z.to_nat (ScanSegment.num_samples (with_samples batch_period s)).
Proof.
  unfold sample_times. destruct (ScanSegment.is_analyzed s); [reflexivity |].
  now rewrite length_fmap, length_range.
Qed.

Lemma with_samples_positive (batch_period : Z) (s : ScanSegment.t) :
  ScanSegment.is_analyzed s = false ->
  1 <= ScanSegment.num_samples (with_samples batch_period s).
Proof. intros E. unfold with_samples. rewrite E. cbn. lia. Qed.

(** The inner loop: the cursor moves one second per no-face sample. *)
Lemma check_samples_Ok (face_detections : list bool) (num_samples : nat) :
  forall idx first_face_sec found first_face_sec',
    check_samples num_samples face_detections idx first_face_sec
    = Ok (found, first_face_sec') ->
    exists no_face : nat,
      (no_face <= num_samples)%nat
      /\ (first_face_sec' == first_face_sec + inject_Z (Z.of_nat no_face))%Q
      /\ (found = false -> no_face = num_samples).
Proof.
  induction num_samples as [| n IH]; intros idx ffs found ffs' Hrun.
  - cbn in Hrun. injection Hrun as <- <-. exists 0%nat.
    split; [lia |]. split; [| reflexivity].
    change (inject_Z (Z.of_nat 0)) with 0%Q. now rewrite Qplus_0_r.
  - cbn [check_samples] in Hrun.
    destruct (list_get face_detections idx) as [[|] | e |];
      cbn in Hrun; try discriminate.
    + injection Hrun as <- <-. exists 0%nat.
      split; [lia |]. split; [| discriminate].
      change (inject_Z (Z.of_nat 0)) with 0%Q. now rewrite Qplus_0_r.
    + destruct (IH _ _ _ _ Hrun) as (k & Hk & Heq & Hnone).
      exists (S k). split; [lia |]. split.
      * rewrite Heq. rewrite Nat2Z.inj_succ. unfold Z.succ.
        rewrite inject_Z_plus. unfold sample_period. lra.
      * intros Hf. now rewrite (Hnone Hf).
Qed.

Lemma check_samples_not_cut (face_detections : list bool)
    (num_samples : nat) :
  forall idx first_face_sec,
    check_samples num_samples face_detections idx first_face_sec
    <> OutOfFuel.
Proof.
  induction num_samples as [| n IH]; intros idx ffs; cbn; [discriminate |].
  destruct (list_get face_detections idx) as [[|] | e |] eqn:E; cbn;
    try discriminate; [apply IH |].
  unfold list_get in E. destruct (face_detections !! idx); discriminate.
Qed.

Lemma check_samples_total (face_detections : list bool) (num_samples : nat) :
  forall idx first_face_sec,
    (idx + num_samples <= length face_detections)%nat ->
    exists r,
      check_samples num_samples face_detections idx first_face_sec = Ok r.
Proof.
  induction num_samples as [| n IH]; intros idx ffs Hlen; cbn; [eauto |].
  destruct (list_get_Ok face_detections idx ltac:(lia)) as (b & _ & ->).
  cbn. destruct b; [eauto |]. apply IH. lia.
Qed.

Lemma analyzed_count_cons (s : ScanSegment.t) (l : list ScanSegment.t) :
  analyzed_count (s :: l)
  = (if ScanSegment.is_analyzed s then 1 else 0) + analyzed_count l.
Proof. reflexivity. Qed.

Lemma analyzed_count_bounds (l : list ScanSegment.t) :
  0 <= analyzed_count l <= Z.of_nat (length l).
Proof.
  induction l as [| s l IH]; [cbn; lia |].
  rewrite analyzed_count_cons. cbn [length].
  destruct (ScanSegment.is_analyzed s); lia.
Qed.

Lemma analyzed_count_all (l : list ScanSegment.t) :
  analyzed_count l = Z.of_nat (length l) ->
  Forall (fun s => ScanSegment.is_analyzed s = true) l.
Proof.
  induction l as [| s l IH]; [constructor |].
  rewrite analyzed_count_cons. cbn [length].
  pose proof (analyzed_count_bounds l) as Hb.
  destruct (ScanSegment.is_analyzed s) eqn:E; intros H; [| lia].
  constructor; [exact E | apply IH; lia].
Qed.

Lemma check_faces_step (face_detections : list bool)
    (visited : list ScanSegment.t) (idx : nat) (analyzed_segments : Z)
    (s : ScanSegment.t) (r : list ScanSegment.t * nat * Z) :
  (ScanSegment.is_analyzed s = false -> 1 <= ScanSegment.num_samples s) ->
  check_faces face_detections (visited, idx, analyzed_segments) s = Ok r ->
  exists s',
    r = (visited ++ [s'], (idx + samples_of s)%nat,
         analyzed_segments + analyzed_count [s'] - analyzed_count [s])
    /\ scanned_in_round s s'.
Proof.
  intros Hpos. unfold check_faces, samples_of, scanned_in_round.
  unfold analyzed_count. cbn [foldr].
  destruct (ScanSegment.is_analyzed s) eqn:E.
  - intros [= <-]. exists s. rewrite E. split; [| reflexivity].
    repeat f_equal; lia.
  - specialize (Hpos eq_refl). intros Hrun.
    apply bind_Ok in Hrun as ([found ffs'] & Hcheck & Hrun).
    injection Hrun as <-.
    apply check_samples_Ok in Hcheck as (k & Hk & Hffs & Hnone).
    set (found_face := found || ScanSegment.found_face s).
    exists (ScanSegment.mk (ScanSegment.seg s) ffs' found_face
              (found_face
               || Qle_bool (SpeakerSegment.end_time (ScanSegment.seg s)
                            - 0.25) ffs')
              (ScanSegment.num_samples s)).
    split; [| cbn; split; [reflexivity |]; split; [exact Hpos |];
              split; [| reflexivity]].
    + cbn [ScanSegment.is_analyzed]. repeat f_equal.
      destruct (found_face || _); lia.
    + exists k. split; [lia |]. split; [exact Hffs |].
      intros Hf. apply orb_false_iff in Hf as [Hf _].
      rewrite (Hnone Hf). lia.
Qed.

Lemma scanned_in_round_with_samples (batch_period : Z)
    (s s' : ScanSegment.t) :
  scanned_in_round (with_samples batch_period s) s' ->
  scanned_in_round s s'.
Proof.
  unfold scanned_in_round, with_samples.
  destruct (ScanSegment.is_analyzed s) eqn:E; cbn; rewrite ?E; auto.
Qed.

Lemma check_faces_loop (face_detections : list bool)
    (segments : list ScanSegment.t) :
  forall visited idx analyzed_segments r,
    Forall (fun s => ScanSegment.is_analyzed s = false ->
                     1 <= ScanSegment.num_samples s) segments ->
    for_each (check_faces face_detections) segments
      (visited, idx, analyzed_segments) = Ok r ->
    exists segments',
      r = (visited ++ segments',
           (idx + list_sum (samples_of <$> segments))%nat,
           analyzed_segments + analyzed_count segments'
           - analyzed_count segments)
      /\ Forall2 scanned_in_round segments segments'.
Proof.
  induction segments as [| s segments IH];
    intros visited idx an r Hpos Hrun.
  - injection Hrun as <-. exists []. split; [| constructor].
    rewrite app_nil_r. cbn. f_equal; [f_equal; lia | lia].
  - apply Forall_cons in Hpos as [Hs Hpos]. cbn [for_each] in Hrun.
    apply bind_Ok in Hrun as (st & Hstep & Hrun).
    apply check_faces_step in Hstep as (s' & -> & Hs'); [| exact Hs].
    apply IH in Hrun as (segments' & -> & Hall); [| exact Hpos].
    exists (s' :: segments'). split; [| now constructor].
    rewrite <- app_assoc. cbn [app fmap list_fmap list_sum].
    unfold analyzed_count. cbn [foldr].
    fold (analyzed_count segments). fold (analyzed_count segments').
    f_equal; [f_equal; unfold list_sum; cbn [foldr]; lia |].
    destruct (ScanSegment.is_analyzed s), (ScanSegment.is_analyzed s'); lia.
Qed.

Lemma check_faces_loop_total (face_detections : list bool)
    (segments : list ScanSegment.t) :
  forall visited idx analyzed_segments,
    (idx + list_sum (samples_of <$> segments)
     <= length face_detections)%nat ->
    exists r,
      for_each (check_faces face_detections) segments
        (visited, idx, analyzed_segments) = Ok r.
Proof.
  induction segments as [| s segments IH]; intros visited idx an Hlen;
    [cbn; eauto |].
  cbn [for_each fmap list_fmap] in *.
  unfold list_sum in Hlen. cbn [foldr] in Hlen.
  fold (list_sum (samples_of <$> segments)) in Hlen.
  unfold samples_of at 1 in Hlen. cbn [check_faces].
  destruct (ScanSegment.is_analyzed s).
  - rewrite bind_Ok_l. apply IH. lia.
  - destruct (check_samples_total face_detections
                (Z.to_nat (ScanSegment.num_samples s)) idx
                (ScanSegment.first_face_sec s) ltac:(lia)) as ([f q] & ->).
    rewrite !bind_Ok_l. apply IH. lia.
Qed.

Lemma check_faces_loop_not_cut (face_detections : list bool)
    (segments : list ScanSegment.t) :
  forall st, for_each (check_faces face_detections) segments st <> OutOfFuel.
Proof.
  induction segments as [| s segments IH]; intros [[visited idx] an];
    [discriminate |].
  cbn [for_each check_faces].
  destruct (ScanSegment.is_analyzed s).
  - rewrite bind_Ok_l. apply IH.
  - pose proof (check_samples_not_cut face_detections
                  (Z.to_nat (ScanSegment.num_samples s)) idx
                  (ScanSegment.first_face_sec s)) as Hcut.
    destruct (check_samples _ _ _ _) as [[f q] | e |];
      [| discriminate | congruence].
    rewrite !bind_Ok_l. apply IH.
Qed.

Lemma while_loop_not_cut {S : Type} (I : S -> Prop) (V : S -> nat)
    (cond : S -> bool) (body : S -> result S) :
  (forall s s', I s -> cond s = true -> body s = Ok s' ->
     I s' /\ (V s' < V s)%nat) ->
  (forall s, body s <> OutOfFuel) ->
  forall fuel s, I s -> (V s < fuel)%nat ->
    while_loop fuel cond body s <> OutOfFuel.
Proof.
  intros Hbody Hcut fuel. induction fuel as [| fuel IH]; intros s HI HV;
    [lia |].
  cbn. destruct (cond s) eqn:Hc; [| discriminate].
  specialize (Hcut s). destruct (body s) as [s' | e |] eqn:Hb;
    [| discriminate | congruence].
  destruct (Hbody s s' HI Hc Hb) as [HI' Hlt].
  cbn. apply IH; [exact HI' | lia].
Qed.

Lemma py_truediv_not_cut (a b : Z) : py_truediv a b <> OutOfFuel.
Proof. unfold py_truediv. destruct (b =? 0); discriminate. Qed.

Lemma py_truediv_double_not_cut (a b : Z) :
  py_truediv_double a b <> OutOfFuel.
Proof. unfold py_truediv_double. destruct (b =? 0); discriminate. Qed.

Lemma py_floordiv_not_cut (a b : Z) : py_floordiv a b <> OutOfFuel.
Proof. unfold py_floordiv. destruct (b =? 0); discriminate. Qed.

Lemma bind_not_cut {A B : Type} (r : result A) (k : A -> result B) :
  r <> OutOfFuel -> (forall a, k a <> OutOfFuel) -> r ≫= k <> OutOfFuel.
Proof. destruct r; cbn; auto; discriminate. Qed.

Lemma calc_n_batches_not_cut (calc_img_bytes : Z -> Z -> Z -> Z)
    (vid_height vid_width free_cpu_memory : Z) (cuda_is_available : bool)
    (num_frames face_detect_width n_face_detect_batches : Z) :
  _calc_n_batches calc_img_bytes vid_height vid_width free_cpu_memory
    cuda_is_available num_frames face_detect_width n_face_detect_batches
  <> OutOfFuel.
Proof.
  unfold _calc_n_batches.
  apply bind_not_cut; [apply py_truediv_double_not_cut |]. intros ratio.
  apply bind_not_cut.
  - destruct cuda_is_available;
      (apply bind_not_cut; [apply py_floordiv_not_cut | discriminate]).
  - intros [[teb neb] nfdb].
    apply bind_not_cut; [apply py_floordiv_not_cut |]. intros _.
    apply bind_not_cut; [| discriminate].
    destruct (nfdb =? 0); [discriminate | apply py_floordiv_not_cut].
Qed.

Lemma remaining_decreases (s s' : ScanSegment.t) :
  scanned_in_round s s' ->
  (remaining s' <= remaining s)%nat
  /\ (ScanSegment.is_analyzed s = false ->
      (remaining s' < remaining s)%nat).
Proof.
  unfold scanned_in_round, remaining.
  destruct (ScanSegment.is_analyzed s) eqn:E.
  - intros ->. rewrite E. split; [lia | discriminate].
  - intros (Hseg & Hpos & (k & Hk & Hffs & Hnone) & Han).
    destruct (ScanSegment.is_analyzed s') eqn:E'; [split; intros; lia |].
    symmetry in Han. apply orb_false_iff in Han as [Hfound Hfar].
    specialize (Hnone Hfound).
    assert (Hlt : (ScanSegment.first_face_sec s'
                   < SpeakerSegment.end_time (ScanSegment.seg s) - 0.25)%Q).
    { destruct (Qlt_le_dec (ScanSegment.first_face_sec s')
                  (SpeakerSegment.end_time (ScanSegment.seg s) - 0.25))
        as [Hlt | Hle]; [exact Hlt |].
      apply Qle_bool_iff in Hle. congruence. }
    rewrite Hseg.
    set (x := (SpeakerSegment.end_time (ScanSegment.seg s)
               - ScanSegment.first_face_sec s)%Q).
    set (x' := (SpeakerSegment.end_time (ScanSegment.seg s)
                - ScanSegment.first_face_sec s')%Q).
    assert (H1 : (inject_Z 1 <= inject_Z (Z.of_nat k))%Q)
      by (rewrite <- Zle_Qle; lia).
    assert (Hx : (x' <= x - 1)%Q).
    { subst x x'. rewrite Hffs. change (inject_Z 1) with 1%Q in H1. lra. }
    assert (Hx' : (0 < x')%Q) by (subst x'; lra).
    pose proof (Qle_ceiling x') as Hc1.
    pose proof (Qceiling_lt x') as Hc2.
    pose proof (Qle_ceiling x) as Hc3.
    assert (Hpos' : 0 < Qceiling x').
    { rewrite Zlt_Qlt. change (inject_Z 0) with 0%Q. lra. }
    assert (Hcc : Qceiling x' < Qceiling x).
    { assert (inject_Z (Qceiling x' - 1) < inject_Z (Qceiling x - 1))%Q.
      { eapply Qlt_le_trans; [exact Hc2 |].
        eapply Qle_trans; [exact Hx |].
        unfold Z.sub. rewrite inject_Z_plus.
        change (inject_Z (- (1))) with (- (1))%Q. lra. }
      rewrite <- Zlt_Qlt in H. lia. }
    split; intros; lia.
Qed.

Lemma rounds_bound_decreases (segments segments' : list ScanSegment.t) :
  Forall2 scanned_in_round segments segments' ->
  (rounds_bound segments' <= rounds_bound segments)%nat
  /\ (analyzed_count segments < Z.of_nat (length segments) ->
      (rounds_bound segments' < rounds_bound segments)%nat).
Proof.
  unfold rounds_bound.
  induction 1 as [| s s' segments segments' Hs _ [IHle IHlt]];
    [cbn; split; [lia |]; intros; lia |].
  cbn [fmap list_fmap length]. unfold list_sum in *. cbn [foldr].
  rewrite analyzed_count_cons.
  destruct (remaining_decreases s s' Hs) as [Hle Hlt].
  split; [lia |]. intros Hcount.
  destruct (ScanSegment.is_analyzed s) eqn:E.
  - assert ((foldr Init.Nat.add 0 (remaining <$> segments')
             < foldr Init.Nat.add 0 (remaining <$> segments))%nat)
      by (apply IHlt; lia).
    lia.
  - specialize (Hlt eq_refl). lia.
Qed.

Lemma scanned_in_round_resolved (s s' : ScanSegment.t) :
  scanned_in_round s s' ->
  (ScanSegment.is_analyzed s = true -> resolved s) ->
  ScanSegment.seg s' = ScanSegment.seg s
  /\ (ScanSegment.is_analyzed s' = true -> resolved s').
Proof.
  unfold scanned_in_round, resolved.
  destruct (ScanSegment.is_analyzed s) eqn:E.
  - intros -> H. split; [reflexivity | intros _; now apply H].
  - intros (Hseg & _ & _ & ->) _. split; [exact Hseg |].
    intros Han. apply orb_true_iff in Han as [Hf | Hq]; [now left |].
    right. rewrite Hseg. now apply Qle_bool_iff.
Qed.

Lemma length_py_slice {A : Type} (a b : nat) (l : list A) :
  length (py_slice a b l) = Nat.min (b - a) (length l - a).
Proof. unfold py_slice. now rewrite length_take, length_drop. Qed.

Section ScannerFacts.
Variable calc_img_bytes : Z -> Z -> Z -> Z.
Variables vid_height vid_width free_cpu_memory : Z.
Variable cuda_is_available : bool.
Variable detect : list Q -> list bool.
Variables face_detect_width n_face_detect_batches : Z.

Local Abbreviation behave :=
  (collaborators_behave calc_img_bytes vid_height vid_width
     free_cpu_memory detect face_detect_width).

Lemma batches_cover (detect_secs : list Q) (frames_per_batch : nat)
    (n_batches : nat) :
  (forall secs, length (detect secs) = length secs) ->
  length
    (concat
       ((fun i =>
           detect
             (py_slice (Z.to_nat (i * Z.of_nat frames_per_batch))
                (Z.to_nat (Z.min ((i + 1) * Z.of_nat frames_per_batch)
                             (Z.of_nat (length detect_secs))))
                detect_secs))
          <$> (Z.of_nat <$> seq 0 n_batches)))
  = Nat.min (n_batches * frames_per_batch) (length detect_secs).
Proof using Type.
  intros Hdetect. induction n_batches as [| n IH]; [reflexivity |].
  rewrite seq_S, !fmap_app, concat_app, length_app, IH.
  cbn [fmap list_fmap concat Nat.add]. rewrite app_nil_r, Hdetect.
  rewrite length_py_slice.
  replace (Z.to_nat (Z.of_nat n * Z.of_nat frames_per_batch))
    with (n * frames_per_batch)%nat by lia.
  replace (Z.to_nat (Z.min ((Z.of_nat n + 1) * Z.of_nat frames_per_batch)
                       (Z.of_nat (length detect_secs))))
    with (Nat.min (S n * frames_per_batch) (length detect_secs)) by lia.
  lia.
Qed.

Lemma detect_in_batches_length (detect_secs : list Q) :
  behave ->
  exists face_detections,
    detect_in_batches calc_img_bytes vid_height vid_width free_cpu_memory
      cuda_is_available detect face_detect_width n_face_detect_batches
      detect_secs = Ok face_detections
    /\ length face_detections = length detect_secs.
Proof using Type.
  intros (Hbytes & Hh & Hw & Hfree & Hfdw & Hdetect).
  unfold detect_in_batches.
  destruct (calc_n_batches_Ok calc_img_bytes Hbytes vid_height vid_width
              free_cpu_memory cuda_is_available
              (Z.of_nat (length detect_secs)) face_detect_width
              n_face_detect_batches Hh Hw ltac:(lia) Hfdw Hfree)
    as (n & -> & Hn).
  rewrite bind_Ok_l, py_floordiv_Ok, bind_Ok_l by lia.
  eexists. split; [reflexivity |]. unfold range.
  set (q := Z.of_nat (length detect_secs) / n).
  assert (Hq : 0 <= q) by (apply Z.div_pos; lia).
  replace (q + 1) with (Z.of_nat (Z.to_nat (q + 1))) by lia.
  rewrite batches_cover by exact Hdetect.
  pose proof (Z.mul_succ_div_gt (Z.of_nat (length detect_secs)) n
                ltac:(lia)) as Hgt.
  fold q in Hgt. nia.
Qed.

Local Abbreviation round :=
  (scan_round calc_img_bytes vid_height vid_width free_cpu_memory
     cuda_is_available detect face_detect_width n_face_detect_batches).

Lemma with_samples_all_positive (batch_period : Z)
    (segments : list ScanSegment.t) :
  Forall (fun s => ScanSegment.is_analyzed s = false ->
                   1 <= ScanSegment.num_samples s)
    (with_samples batch_period <$> segments).
Proof using Type.
  apply Forall_fmap, Forall_forall. intros s _. unfold compose.
  intros E. apply with_samples_positive. revert E. unfold with_samples.
  destruct (ScanSegment.is_analyzed s) eqn:E'; cbn; intros; congruence.
Qed.

Lemma analyzed_count_with_samples (batch_period : Z)
    (segments : list ScanSegment.t) :
  analyzed_count (with_samples batch_period <$> segments)
  = analyzed_count segments.
Proof using Type.
  induction segments as [| s segments IH]; [reflexivity |].
  cbn [fmap list_fmap]. rewrite !analyzed_count_cons, IH. f_equal.
  unfold with_samples.
  destruct (ScanSegment.is_analyzed s) eqn:E; cbn; rewrite ?E; reflexivity.
Qed.

(** One round: the batch period grows as (period + 3) * 2, and every
    segment is scanned as [scanned_in_round] says. *)
Lemma scan_round_progress (segments : list ScanSegment.t)
    (batch_period analyzed_segments : Z)
    (st' : list ScanSegment.t * Z * Z) :
  round (segments, batch_period, analyzed_segments) = Ok st' ->
  exists segments',
    st' = (segments', (batch_period + 3) * 2,
           analyzed_segments + analyzed_count segments'
           - analyzed_count segments)
    /\ Forall2 scanned_in_round segments segments'.
Proof using Type.
  unfold scan_round. rewrite select_times_spec. cbn [app].
  intros Hrun.
  apply bind_Ok in Hrun as (face_detections & _ & Hrun).
  apply bind_Ok in Hrun as ([[segments' idx] an] & Hcheck & Hrun).
  injection Hrun as <-.
  apply check_faces_loop in Hcheck as (scanned & Heq & Hall);
    [| apply with_samples_all_positive].
  injection Heq as -> _ ->. cbn [app].
  rewrite analyzed_count_with_samples.
  exists scanned. split; [reflexivity |].
  rewrite Forall2_fmap_l in Hall.
  eapply Forall2_impl; [exact Hall |]. cbn.
  intros s s'. apply scanned_in_round_with_samples.
Qed.

Lemma scan_round_not_cut (st : list ScanSegment.t * Z * Z) :
  round st <> OutOfFuel.
Proof using Type.
  destruct st as [[segments batch_period] analyzed_segments].
  unfold scan_round. rewrite select_times_spec. cbn [app].
  apply bind_not_cut.
  - unfold detect_in_batches.
    apply bind_not_cut; [apply calc_n_batches_not_cut |]. intros n.
    apply bind_not_cut; [apply py_floordiv_not_cut | discriminate].
  - intros face_detections. apply bind_not_cut.
    + apply check_faces_loop_not_cut.
    + intros [[segments' idx] an]. discriminate.
Qed.

Lemma samples_of_with_samples (batch_period : Z)
    (segments : list ScanSegment.t) :
  list_sum (samples_of <$> (with_samples batch_period <$> segments))
  = length (concat (sample_times batch_period <$> segments)).
Proof using Type.
  induction segments as [| s segments IH]; [reflexivity |].
  cbn [fmap list_fmap concat]. rewrite length_app, <- IH.
  rewrite length_sample_times. unfold list_sum. cbn [foldr]. f_equal.
  unfold samples_of, with_samples.
  destruct (ScanSegment.is_analyzed s) eqn:E; cbn; rewrite ?E; reflexivity.
Qed.

Lemma scan_round_Ok (st : list ScanSegment.t * Z * Z) :
  behave -> exists st', round st = Ok st'.
Proof using Type.
  intros Hgood. destruct st as [[segments batch_period] an].
  unfold scan_round. rewrite select_times_spec. cbn [app].
  destruct (detect_in_batches_length
              (concat (sample_times batch_period <$> segments)) Hgood)
    as (face_detections & -> & Hlen).
  rewrite bind_Ok_l.
  destruct (check_faces_loop_total face_detections
              (with_samples batch_period <$> segments) [] 0%nat an)
    as ([[segments' idx] an'] & ->).
  - rewrite samples_of_with_samples. lia.
  - rewrite bind_Ok_l. eauto.
Qed.

Lemma scan_invariant_round (segments : list SpeakerSegment.t)
    (st st' : list ScanSegment.t * Z * Z) :
  scan_invariant segments st -> scan_cond st = true ->
  round st = Ok st' ->
  scan_invariant segments st'
  /\ (rounds_bound (fst (fst st')) < rounds_bound (fst (fst st)))%nat.
Proof using Type.
  destruct st as [[scanned batch_period] an].
  intros [Han Hall] Hcond Hrun.
  apply scan_round_progress in Hrun as (scanned' & -> & Hround).
  cbn [fst scan_invariant]. split; [split |].
  - lia.
  - clear Hcond Han. revert scanned' Hround.
    induction Hall as [| s0 s segments scanned [Hseg Hres] _ IH];
      intros scanned' Hround; inversion Hround as [| ? s' ? rest Hs Hrest];
      subst; constructor.
    + destruct (scanned_in_round_resolved s s' Hs Hres) as [Hseg' Hres'].
      split; [now rewrite Hseg' | exact Hres'].
    + now apply IH.
  - apply rounds_bound_decreases; [exact Hround |].
    unfold scan_cond in Hcond. apply Z.ltb_lt in Hcond. lia.
Qed.
Lemma iterates_prepend {S : Type} (cond : S -> bool) (body : S -> result S)
    (s s1 s' : S) :
  cond s = true -> body s = Ok s1 -> iterates cond body s1 s' ->
  iterates cond body s s'.
Proof using Type.
  intros Hc Hb H. induction H as [| s2 s3 _ IH Hc2 Hb2].
  - eapply iterates_step; [apply iterates_start | exact Hc | exact Hb].
  - eapply iterates_step; [exact IH | exact Hc2 | exact Hb2].
Qed.

(** What a [while] loop returns is a state it goes through, and one in
    which the guard is false. *)
Lemma while_loop_iterates {S : Type} (cond : S -> bool)
    (body : S -> result S) (fuel : nat) :
  forall s s', while_loop fuel cond body s = Ok s' ->
    iterates cond body s s' /\ cond s' = false.
Proof using Type.
  induction fuel as [| fuel IH]; intros s s' Hrun.
  - cbn in Hrun. destruct (cond s) eqn:Hc; [discriminate |].
    injection Hrun as <-. split; [apply iterates_start | exact Hc].
  - cbn in Hrun. destruct (cond s) eqn:Hc.
    + apply bind_Ok in Hrun as (s1 & Hb & Hrun).
      destruct (IH _ _ Hrun) as [Hit Hc'].
      split; [eapply iterates_prepend; eauto | exact Hc'].
    + injection Hrun as <-. split; [apply iterates_start | exact Hc].
Qed.

(** The inner loop reads the answers from [idx] on: it finds a face when
    one of the [num_samples] answers is a face, and moves the cursor one
    second per no-face answer before it. *)
Lemma check_samples_answers (face_detections : list bool)
    (num_samples : nat) :
  forall idx first_face_sec found first_face_sec',
    check_samples num_samples face_detections idx first_face_sec
    = Ok (found, first_face_sec') ->
    let answers := take num_samples (drop idx face_detections) in
    found = existsb id answers
    /\ (first_face_sec'
        == first_face_sec
           + inject_Z (Z.of_nat (leading_no_face answers)))%Q.
Proof using Type.
  induction num_samples as [| n IH]; intros idx ffs found ffs' Hrun;
    cbv zeta.
  - cbn in Hrun. injection Hrun as <- <-. cbn. split; [reflexivity |].
    change (inject_Z 0) with 0%Q. now rewrite Qplus_0_r.
  - cbn [check_samples] in Hrun.
    destruct (list_get_cases face_detections idx)
      as [(b & Hb & Hget) | Hget]; rewrite Hget in Hrun;
      [| discriminate].
    rewrite bind_Ok_l in Hrun. rewrite (drop_S _ _ _ Hb).
    cbn [take]. destruct b.
    + injection Hrun as <- <-. cbn. split; [reflexivity |].
      change (inject_Z 0) with 0%Q. now rewrite Qplus_0_r.
    + destruct (IH _ _ _ _ Hrun) as [Hfound Hffs]. cbv zeta in *.
      cbn [existsb leading_no_face id orb]. split; [exact Hfound |].
      rewrite Hffs, Nat2Z.inj_succ. unfold Z.succ.
      rewrite inject_Z_plus. unfold sample_period. ring.
Qed.

Lemma with_samples_analyzed (batch_period : Z) (s : ScanSegment.t) :
  ScanSegment.is_analyzed (with_samples batch_period s)
  = ScanSegment.is_analyzed s.
Proof using Type.
  unfold with_samples. destruct (ScanSegment.is_analyzed s) eqn:E;
    [exact E | reflexivity].
Qed.

(** The loop over the segments consumes the face detections in order. *)
Lemma check_faces_loop_sampled (face_detections : list bool)
    (batch_period : Z) (segments : list ScanSegment.t) :
  forall visited idx analyzed_segments r,
    for_each (check_faces face_detections)
      (with_samples batch_period <$> segments)
      (visited, idx, analyzed_segments) = Ok r ->
    exists segments',
      fst (fst r) = visited ++ segments'
      /\ sampled_in_round batch_period segments
           (drop idx face_detections) segments'.
Proof using Type.
  induction segments as [| s segments IH]; intros visited idx an r Hrun.
  - injection Hrun as <-. exists []. split; [| exact I].
    cbn. now rewrite app_nil_r.
  - cbn [fmap list_fmap for_each] in Hrun.
    apply bind_Ok in Hrun as ([[visited1 idx1] an1] & Hstep & Hrun).
    unfold check_faces in Hstep.
    rewrite with_samples_analyzed in Hstep.
    pose proof (length_sample_times batch_period s) as Hlen.
    destruct (ScanSegment.is_analyzed s) eqn:E.
    + injection Hstep as <- <- <-.
      apply IH in Hrun as (segments' & Hfst & Hall).
      exists (with_samples batch_period s :: segments').
      split; [rewrite Hfst, <- app_assoc; reflexivity |].
      cbn [sampled_in_round]. rewrite Hlen. cbn [take drop].
      split; [| exact Hall].
      unfold sampled, with_samples. now rewrite E.
    + apply bind_Ok in Hstep as ([found ffs'] & Hcheck & Hstep).
      injection Hstep as <- <- <-.
      apply IH in Hrun as (segments' & Hfst & Hall).
      apply check_samples_answers in Hcheck as [Hfound Hffs].
      cbv zeta in Hfound, Hffs.
      eexists (_ :: segments').
      split; [rewrite Hfst, <- app_assoc; reflexivity |].
      cbn [sampled_in_round]. rewrite Hlen.
      rewrite drop_drop. split; [| exact Hall].
      unfold sampled. rewrite E.
      cbn [ScanSegment.seg ScanSegment.num_samples
           ScanSegment.first_face_sec ScanSegment.found_face
           ScanSegment.is_analyzed].
      assert (Hseg : ScanSegment.seg (with_samples batch_period s)
                     = ScanSegment.seg s)
        by (unfold with_samples; rewrite E; reflexivity).
      assert (Hcur : ScanSegment.first_face_sec
                       (with_samples batch_period s)
                     = ScanSegment.first_face_sec s)
        by (unfold with_samples; rewrite E; reflexivity).
      assert (Hff : ScanSegment.found_face (with_samples batch_period s)
                    = ScanSegment.found_face s)
        by (unfold with_samples; rewrite E; reflexivity).
      rewrite Hseg, Hff. rewrite Hcur in Hffs.
      split; [reflexivity |].
      split; [pose proof (with_samples_positive batch_period s E); lia |].
      split; [exact Hffs |]. rewrite Hfound. split; reflexivity.
Qed.

(** One round hands the timestamps of all segments to the detector and
    reads each segment's answers from the result. *)
Lemma scan_round_sampled (segments : list ScanSegment.t)
    (batch_period analyzed_segments : Z)
    (st' : list ScanSegment.t * Z * Z) :
  round (segments, batch_period, analyzed_segments) = Ok st' ->
  exists face_detections,
    detect_in_batches calc_img_bytes vid_height vid_width free_cpu_memory
      cuda_is_available detect face_detect_width n_face_detect_batches
      (concat (sample_times batch_period <$> segments))
    = Ok face_detections
    /\ sampled_in_round batch_period segments face_detections
         (fst (fst st')).
Proof using Type.
  unfold scan_round. rewrite select_times_spec. cbn [app].
  intros Hrun.
  apply bind_Ok in Hrun as (face_detections & Hdetect & Hrun).
  apply bind_Ok in Hrun as ([[segments' idx] an] & Hcheck & Hrun).
  injection Hrun as <-.
  apply check_faces_loop_sampled in Hcheck as (scanned & Hfst & Hall).
  exists face_detections. split; [exact Hdetect |].
  cbn [fst app] in *. subst segments'. exact Hall.
Qed.

(** The timestamps of an unresolved segment: at least one, the first at
    the cursor, one second apart. *)
Lemma sample_times_from_cursor (batch_period : Z) (s : ScanSegment.t) :
  ScanSegment.is_analyzed s = false ->
  (1 <= length (sample_times batch_period s))%nat
  /\ forall i t,
       sample_times batch_period s !! i = Some t ->
       t = (ScanSegment.first_face_sec s
            + inject_Z (Z.of_nat i * sample_period))%Q.
Proof using Type.
  intros E. split.
  - rewrite length_sample_times, E.
    pose proof (with_samples_positive batch_period s E). lia.
  - intros i t. unfold sample_times. rewrite E. unfold range.
    rewrite !list_lookup_fmap. intros Ht.
    destruct (seq 0 _ !! i) as [k |] eqn:Hk; [| discriminate].
    apply lookup_seq in Hk as [-> _]. cbn in Ht. now injection Ht as <-.
Qed.

End ScannerFacts.

Example scanner_finds_face :
  _find_first_sec_with_face_for_each_segment
    (fun h w c => h * w * c) 1080 1920 (2 ^ 30) false
    (fmap (fun t => Qle_bool 5 t)) 960 8 5
    [SpeakerSegment.mk [1] 0 10; SpeakerSegment.mk [2] 10 12]
  = Ok [ScanSegment.mk (SpeakerSegment.mk [1] 0 10) (42 # 8) true true 7;
        ScanSegment.mk (SpeakerSegment.mk [2] 10 12) (82 # 8) true true 1].
Proof. vm_compute. reflexivity. Qed.

(** With a face visible only at t = 9.5 in the segment [0, 10] the
    samples are 1.25, 2.25, ..., 9.25: two rounds are not enough, the third
    ends the scan without a face, the cursor at 10.25. *)
Example scanner_misses_face :
  _find_first_sec_with_face_for_each_segment
    (fun h w c => h * w * c) 1080 1920 (2 ^ 30) false
    (fmap (fun t => Qeq_bool t 9.5)) 960 8 2 [SpeakerSegment.mk [1] 0 10]
  = OutOfFuel
  /\ _find_first_sec_with_face_for_each_segment
       (fun h w c => h * w * c) 1080 1920 (2 ^ 30) false
       (fmap (fun t => Qeq_bool t 9.5)) 960 8 3 [SpeakerSegment.mk [1] 0 10]
     = Ok [ScanSegment.mk (SpeakerSegment.mk [1] 0 10) (82 # 8)
             false true 1].
Proof. split; vm_compute; reflexivity. Qed.

Lemma analyzed_count_init (segments : list SpeakerSegment.t) :
  analyzed_count (init_segment <$> segments) = 0.
Proof.
  induction segments as [| s segments IH]; [reflexivity |].
  cbn [fmap list_fmap]. rewrite analyzed_count_cons, IH. reflexivity.
Qed.

Lemma scan_invariant_init (segments : list SpeakerSegment.t) :
  scan_invariant segments (init_segment <$> segments, 1, 0).
Proof.
  split; [now rewrite analyzed_count_init |].
  apply Forall2_fmap_r, Forall_Forall2_diag, Forall_forall.
  intros s _. split; [reflexivity | discriminate].
Qed.

(** C9: the face-presence scanning loop terminates for every finite
    segment list (with or without start_time < end_time).  In each round
    the batch period grows as (period + 3) * 2; the round takes at least
    one timestamp from every unresolved segment, the first at its cursor
    and the others one second apart ([sample_times]), hands the
    timestamps of all segments to the detector and moves the cursor of
    each unresolved segment by one second per consecutive no-face answer
    for its timestamps ([sampled_in_round]).  After [rounds_bound] + 1
    rounds at most the loop has exited, and when the collaborators behave
    (free memory, a detection per frame) it has returned the segments of
    the state reached by such rounds in which every segment is resolved:
    a face found, or the cursor within 0.25 seconds of the segment end. *)
Theorem scanner_terminates (calc_img_bytes : Z -> Z -> Z -> Z)
    (vid_height vid_width free_cpu_memory : Z) (cuda_is_available : bool)
    (detect : list Q -> list bool)
    (face_detect_width n_face_detect_batches : Z)
    (segments : list SpeakerSegment.t) :
  (forall scanned batch_period analyzed_segments st',
     scan_round calc_img_bytes vid_height vid_width free_cpu_memory
       cuda_is_available detect face_detect_width n_face_detect_batches
       (scanned, batch_period, analyzed_segments) = Ok st' ->
     exists scanned',
       st' = (scanned', (batch_period + 3) * 2,
              analyzed_segments + analyzed_count scanned'
              - analyzed_count scanned)
       /\ Forall2 scanned_in_round scanned scanned'
       /\ exists face_detections,
            detect_in_batches calc_img_bytes vid_height vid_width
              free_cpu_memory cuda_is_available detect face_detect_width
              n_face_detect_batches
              (concat (sample_times batch_period <$> scanned))
            = Ok face_detections
            /\ sampled_in_round batch_period scanned face_detections
                 scanned')
  /\ (forall batch_period s,
        ScanSegment.is_analyzed s = false ->
        (1 <= length (sample_times batch_period s))%nat
        /\ forall i t,
             sample_times batch_period s !! i = Some t ->
             t = (ScanSegment.first_face_sec s
                  + inject_Z (Z.of_nat i * sample_period))%Q)
  /\ forall rounds,
       (rounds_bound (init_segment <$> segments) < rounds)%nat ->
       _find_first_sec_with_face_for_each_segment calc_img_bytes
         vid_height vid_width free_cpu_memory cuda_is_available detect
         face_detect_width n_face_detect_batches rounds segments
       <> OutOfFuel
       /\ (collaborators_behave calc_img_bytes vid_height vid_width
             free_cpu_memory detect face_detect_width ->
           exists scanned,
             _find_first_sec_with_face_for_each_segment calc_img_bytes
               vid_height vid_width free_cpu_memory cuda_is_available
               detect face_detect_width n_face_detect_batches rounds
               segments = Ok scanned
             /\ Forall2 (fun s0 s => ScanSegment.seg s = s0 /\ resolved s)
                  segments scanned
             /\ exists batch_period analyzed_segments,
                  iterates scan_cond
                    (scan_round calc_img_bytes vid_height vid_width
                       free_cpu_memory cuda_is_available detect
                       face_detect_width n_face_detect_batches)
                    (init_segment <$> segments, 1, 0)
                    (scanned, batch_period, analyzed_segments)
                  /\ scan_cond (scanned, batch_period, analyzed_segments)
                     = false).
Proof.
  split; [| split; [intros bp s; apply sample_times_from_cursor |]].
  { intros scanned bp an st' Hrun.
    destruct (scan_round_progress _ _ _ _ _ _ _ _ _ _ _ _ Hrun)
      as (scanned' & -> & Hall).
    exists scanned'. split; [reflexivity |]. split; [exact Hall |].
    exact (scan_round_sampled _ _ _ _ _ _ _ _ _ _ _ _ Hrun). }
  intros rounds Hrounds.
  unfold _find_first_sec_with_face_for_each_segment. split.
  - apply bind_not_cut; [| discriminate].
    apply (while_loop_not_cut (scan_invariant segments)
             (fun st => rounds_bound (fst (fst st)))).
    + intros st st'. apply scan_invariant_round.
    + apply scan_round_not_cut.
    + apply scan_invariant_init.
    + exact Hrounds.
  - intros Hgood.
    destruct (while_loop_total (scan_invariant segments)
                (fun st => rounds_bound (fst (fst st)))
                scan_cond
                (scan_round calc_img_bytes vid_height vid_width
                   free_cpu_memory cuda_is_available detect
                   face_detect_width n_face_detect_batches))
      with (fuel := rounds) (s := (init_segment <$> segments, 1, 0))
      as ([[scanned bp] an] & Hrun & [Han Hall] & Hcond).
    + intros st Hinv Hcond.
      destruct (scan_round_Ok calc_img_bytes vid_height vid_width
                  free_cpu_memory cuda_is_available detect
                  face_detect_width n_face_detect_batches st Hgood)
        as (st' & Hrun).
      exists st'. split; [exact Hrun |].
      eapply scan_invariant_round; eassumption.
    + apply scan_invariant_init.
    + cbn [fst]. lia.
    + destruct (while_loop_iterates _ _ _ _ _ Hrun) as [Hit _].
      rewrite Hrun, bind_Ok_l. cbn [fst]. exists scanned.
      split; [reflexivity |].
      split; [| exists bp, an; split; [exact Hit | exact Hcond]].
      unfold scan_cond in Hcond. apply Z.ltb_ge in Hcond.
      pose proof (analyzed_count_bounds scanned) as Hb.
      assert (Hdone : Forall (fun s => ScanSegment.is_analyzed s = true)
                        scanned)
        by (apply analyzed_count_all; lia).
      clear Hcond Hb Han Hrounds Hrun Hit.
      induction Hall as [| s0 s segs scs [Hs Hr] _ IH]; [constructor |].
      apply Forall_cons in Hdone as [Hd Hdone].
      constructor; [split; [exact Hs | exact (Hr Hd)] | exact (IH Hdone)].
Qed.

Lemma product_bytes_nonneg (h w c : Z) :
  0 <= h -> 0 <= w -> 0 <= c -> 0 <= h * w * c.
Proof.
  intros Hh Hw Hc. apply Z.mul_nonneg_nonneg; [| exact Hc].
  now apply Z.mul_nonneg_nonneg.
Qed.

Lemma scanner_terminates_witness :
  exists scanned,
    _find_first_sec_with_face_for_each_segment
      (fun h w c => h * w * c) 1080 1920 (2 ^ 30) false
      (fmap (fun t => Qle_bool 5 t)) 960 8 14
      [SpeakerSegment.mk [1] 0 10; SpeakerSegment.mk [2] 10 12]
    = Ok scanned
    /\ Forall2 (fun s0 s => ScanSegment.seg s = s0 /\ resolved s)
         [SpeakerSegment.mk [1] 0 10; SpeakerSegment.mk [2] 10 12]
         scanned.
Proof.
  destruct (scanner_terminates (fun h w c => h * w * c) 1080 1920 (2 ^ 30)
              false (fmap (fun t => Qle_bool 5 t)) 960 8
              [SpeakerSegment.mk [1] 0 10; SpeakerSegment.mk [2] 10 12])
    as (_ & _ & Hterm).
  destruct (Hterm 14%nat) as [_ Hreturns].
  - vm_compute. lia.
  - destruct Hreturns as (scanned & Hrun & Hall & _).
    + split; [exact product_bytes_nonneg |].
      split; [lia |]. split; [lia |]. split; [lia |]. split; [lia |].
      intros secs. apply length_fmap.
    + exists scanned. split; [exact Hrun | exact Hall].
Defined.

(** * Further properties of the code *)

(** ** Rectangles *)

Lemma int16_small (z : Z) : -32768 <= z <= 32767 -> int16 z = z.
Proof. intros H. unfold int16. rewrite Z.mod_small by lia. lia. Qed.

Lemma int16_range (z : Z) : -32768 <= int16 z <= 32767.
Proof.
  unfold int16. pose proof (Z.mod_pos_bound (z + 32768) 65536 eq_refl). lia.
Qed.

Lemma int16_add_l (a b : Z) : int16 (int16 a + b) = int16 (a + b).
Proof.
  unfold int16.
  replace ((a + 32768) mod 65536 - 32768 + b + 32768)
    with ((a + 32768) mod 65536 + b) by lia.
  rewrite Zplus_mod_idemp_l. f_equal. f_equal. lia.
Qed.

Lemma intersection_bounds (rect1 rect2 : Rect.t) :
  0 <= Rect.width rect1 -> 0 <= Rect.height rect1 ->
  0 <= Rect.width rect2 -> 0 <= Rect.height rect2 ->
  let x1 := Z.max (Rect.x rect1) (Rect.x rect2) in
  let y1 := Z.max (Rect.y rect1) (Rect.y rect2) in
  let x2 := Z.min (Rect.x rect1 + Rect.width rect1)
                  (Rect.x rect2 + Rect.width rect2) in
  let y2 := Z.min (Rect.y rect1 + Rect.height rect1)
                  (Rect.y rect2 + Rect.height rect2) in
  let intersection := Z.max 0 (x2 - x1) * Z.max 0 (y2 - y1) in
  0 <= intersection
  /\ intersection <= Rect.width rect1 * Rect.height rect1
  /\ intersection <= Rect.width rect2 * Rect.height rect2.
Proof.
  intros Hw1 Hh1 Hw2 Hh2. cbv zeta.
  generalize (Rect.x rect1), (Rect.y rect1), (Rect.x rect2), (Rect.y rect2).
  generalize dependent (Rect.width rect1).
  generalize dependent (Rect.height rect1).
  generalize dependent (Rect.width rect2).
  generalize dependent (Rect.height rect2).
  intros h2 Hh2 w2 Hw2 h1 Hh1 w1 Hw1 xa ya xb yb.
  assert (Hdx : 0 <= Z.max 0 (Z.min (xa + w1) (xb + w2) - Z.max xa xb)
                <= Z.min w1 w2) by lia.
  assert (Hdy : 0 <= Z.max 0 (Z.min (ya + h1) (yb + h2) - Z.max ya yb)
                <= Z.min h1 h2) by lia.
  revert Hdx Hdy.
  generalize (Z.max 0 (Z.min (xa + w1) (xb + w2) - Z.max xa xb)).
  generalize (Z.max 0 (Z.min (ya + h1) (yb + h2) - Z.max ya yb)).
  intros dy dx Hdx Hdy. repeat split; nia.
Qed.

(** Without overflow the 16-bit computation is the exact one. *)
Lemma iou_without_overflow (rect1 rect2 : Rect.t) :
  face_box rect1 -> face_box rect2 ->
  Rect.width rect1 * Rect.height rect1
  + Rect.width rect2 * Rect.height rect2 <= 32767 ->
  iou rect1 rect2 = iou_exact rect1 rect2.
Proof.
  intros (Hx1 & Hy1 & Hw1 & Hh1 & Hr1 & Hb1)
         (Hx2 & Hy2 & Hw2 & Hh2 & Hr2 & Hb2) Harea.
  destruct (intersection_bounds rect1 rect2 Hw1 Hh1 Hw2 Hh2)
    as (H0 & H1 & H2).
  unfold iou, iou_exact. cbv zeta in *.
  rewrite (int16_small (Rect.x rect1 + Rect.width rect1)) by lia.
  rewrite (int16_small (Rect.x rect2 + Rect.width rect2)) by lia.
  rewrite (int16_small (Rect.y rect1 + Rect.height rect1)) by lia.
  rewrite (int16_small (Rect.y rect2 + Rect.height rect2)) by lia.
  rewrite (int16_small (_ - Z.max (Rect.x rect1) _)) by lia.
  rewrite (int16_small (_ - Z.max (Rect.y rect1) _)) by lia.
  set (inter := Z.max 0 _ * Z.max 0 _) in *.
  assert (0 <= Rect.width rect1 * Rect.height rect1) by nia.
  assert (0 <= Rect.width rect2 * Rect.height rect2) by nia.
  rewrite (int16_small inter) by lia.
  rewrite (int16_small (Rect.width rect1 * _)) by lia.
  rewrite (int16_small (Rect.width rect2 * _)) by lia.
  rewrite (int16_small (_ + _)) by lia.
  rewrite (int16_small (_ - inter)) by lia.
  reflexivity.
Qed.

Lemma iou_exact_between_0_and_1 (rect1 rect2 : Rect.t) :
  0 <= Rect.width rect1 -> 0 <= Rect.height rect1 ->
  0 <= Rect.width rect2 -> 0 <= Rect.height rect2 ->
  (0 <= iou_exact rect1 rect2)%Q /\ (iou_exact rect1 rect2 <= 1)%Q.
Proof.
  intros Hw1 Hh1 Hw2 Hh2.
  destruct (intersection_bounds rect1 rect2 Hw1 Hh1 Hw2 Hh2)
    as (H0 & H1 & H2).
  unfold iou_exact. cbv zeta in *.
  set (inter := Z.max 0 _ * Z.max 0 _) in *.
  set (union := Rect.width rect1 * Rect.height rect1
                + Rect.width rect2 * Rect.height rect2 - inter).
  destruct (0 <? union) eqn:E; [| split; [apply Qle_refl | discriminate]].
  apply Z.ltb_lt in E.
  assert (Hu : (0 < inject_Z union)%Q)
    by (change 0%Q with (inject_Z 0); now rewrite <- Zlt_Qlt).
  split.
  - apply Qle_shift_div_l; [exact Hu |]. rewrite Qmult_0_l.
    change 0%Q with (inject_Z 0). rewrite <- Zle_Qle. exact H0.
  - apply Qle_shift_div_r; [exact Hu |]. rewrite Qmult_1_l.
    rewrite <- Zle_Qle. subst union. lia.
Qed.

(** X1: the IoU of two face boxes (fields not negative, right and bottom
    edge within the 16-bit range) whose areas sum to at most 32767, so
    that no product or sum of [iou] overflows 16 bits, lies between 0
    and 1. *)
Theorem iou_between_0_and_1 (rect1 rect2 : Rect.t) :
  face_box rect1 -> face_box rect2 ->
  Rect.width rect1 * Rect.height rect1
  + Rect.width rect2 * Rect.height rect2 <= 32767 ->
  (0 <= iou rect1 rect2)%Q /\ (iou rect1 rect2 <= 1)%Q.
Proof.
  intros Hbox1 Hbox2 Harea.
  rewrite (iou_without_overflow _ _ Hbox1 Hbox2 Harea).
  destruct Hbox1 as (_ & _ & Hw1 & Hh1 & _).
  destruct Hbox2 as (_ & _ & Hw2 & Hh2 & _).
  now apply iou_exact_between_0_and_1.
Qed.

Lemma iou_between_0_and_1_witness :
  (0 <= iou (Rect.mk 0 0 10 10) (Rect.mk 4 0 16 10))%Q
  /\ (iou (Rect.mk 0 0 10 10) (Rect.mk 4 0 16 10) <= 1)%Q.
Proof.
  apply iou_between_0_and_1; unfold face_box; cbn; lia.
Defined.

(** The IoU of a face box with itself: the 16-bit area decides. *)
Lemma iou_self (rect : Rect.t) :
  face_box rect ->
  let area := int16 (Rect.width rect * Rect.height rect) in
  (0 < area -> (iou rect rect == 1)%Q)
  /\ (area <= 0 -> (iou rect rect == 0)%Q).
Proof.
  intros (Hx & Hy & Hw & Hh & Hr & Hb). cbv zeta.
  unfold iou. rewrite !Z.max_id, !Z.min_id.
  rewrite (int16_small (Rect.x rect + Rect.width rect)) by lia.
  rewrite (int16_small (Rect.y rect + Rect.height rect)) by lia.
  replace (Rect.x rect + Rect.width rect - Rect.x rect)
    with (Rect.width rect) by lia.
  replace (Rect.y rect + Rect.height rect - Rect.y rect)
    with (Rect.height rect) by lia.
  rewrite (int16_small (Rect.width rect)) by lia.
  rewrite (int16_small (Rect.height rect)) by lia.
  rewrite !Z.max_r by lia.
  set (a := int16 (Rect.width rect * Rect.height rect)).
  assert (Hu : int16 (int16 (a + a) - a) = a).
  { replace (int16 (a + a) - a) with (int16 (a + a) + - a) by lia.
    rewrite int16_add_l. replace (a + a + - a) with a by lia.
    apply int16_small. apply int16_range. }
  rewrite Hu. clearbody a. split; intros Ha.
  - rewrite (proj2 (Z.ltb_lt 0 a) Ha).
    apply Qmult_inv_r. intros H. unfold Qeq in H. cbn in H. lia.
  - rewrite (proj2 (Z.ltb_ge 0 a) Ha). reflexivity.
Qed.

(** X2: the IoU of two rectangles does not depend on their order.  The
    IoU of a face box with itself is 1 when its area, wrapped to 16 bits,
    is positive, and 0 otherwise: a box of 200 by 200 pixels has IoU 0
    with itself.  Two face boxes whose horizontal or vertical extents do
    not overlap have IoU 0. *)
Theorem iou_self_and_apart (rect1 rect2 : Rect.t) :
  iou rect1 rect2 = iou rect2 rect1
  /\ (face_box rect1 ->
      (0 < int16 (Rect.width rect1 * Rect.height rect1) ->
       (iou rect1 rect1 == 1)%Q)
      /\ (int16 (Rect.width rect1 * Rect.height rect1) <= 0 ->
          (iou rect1 rect1 == 0)%Q))
  /\ (face_box rect1 -> face_box rect2 ->
      Rect.x rect1 + Rect.width rect1 <= Rect.x rect2
      \/ Rect.y rect1 + Rect.height rect1 <= Rect.y rect2 ->
      (iou rect1 rect2 == 0)%Q).
Proof.
  split; [apply iou_symmetric |]. split; [apply iou_self |].
  intros (Hx1 & Hy1 & Hw1 & Hh1 & Hr1 & Hb1)
         (Hx2 & Hy2 & Hw2 & Hh2 & Hr2 & Hb2) Hapart.
  unfold iou.
  rewrite (int16_small (Rect.x rect1 + Rect.width rect1)) by lia.
  rewrite (int16_small (Rect.x rect2 + Rect.width rect2)) by lia.
  rewrite (int16_small (Rect.y rect1 + Rect.height rect1)) by lia.
  rewrite (int16_small (Rect.y rect2 + Rect.height rect2)) by lia.
  rewrite (int16_small (_ - Z.max (Rect.x rect1) _)) by lia.
  rewrite (int16_small (_ - Z.max (Rect.y rect1) _)) by lia.
  set (x1 := Z.max (Rect.x rect1) (Rect.x rect2)).
  set (y1 := Z.max (Rect.y rect1) (Rect.y rect2)).
  set (x2 := Z.min _ _). set (y2 := Z.min _ _).
  assert (Hz : Z.max 0 (x2 - x1) * Z.max 0 (y2 - y1) = 0).
  { destruct Hapart.
    - replace (Z.max 0 (x2 - x1)) with 0 by (subst x1 x2; lia). lia.
    - replace (Z.max 0 (y2 - y1)) with 0 by (subst y1 y2; lia). lia. }
  rewrite Hz. change (int16 0) with 0.
  destruct (0 <? _); [| reflexivity].
  unfold Qdiv. now rewrite Qmult_0_l.
Qed.

Lemma iou_self_and_apart_witness :
  (iou (Rect.mk 3 4 10 20) (Rect.mk 3 4 10 20) == 1)%Q
  /\ (iou (Rect.mk 300 100 200 200) (Rect.mk 300 100 200 200) == 0)%Q
  /\ (iou (Rect.mk 3 4 10 20) (Rect.mk 13 0 5 5) == 0)%Q.
Proof.
  destruct (iou_self_and_apart (Rect.mk 3 4 10 20) (Rect.mk 13 0 5 5))
    as (_ & Hself & Hapart).
  destruct (iou_self_and_apart (Rect.mk 300 100 200 200)
              (Rect.mk 300 100 200 200))
    as (_ & Hlarge & _).
  split; [| split].
  - apply Hself; [unfold face_box; cbn; lia | reflexivity].
  - apply Hlarge; [unfold face_box; cbn; lia |]. vm_compute. discriminate.
  - apply Hapart; unfold face_box; cbn; lia.
Defined.

Lemma contains_refl (r : Rect.t) : contains r r.
Proof. unfold contains. lia. Qed.

Lemma contains_trans (a b c : Rect.t) :
  contains a b -> contains b c -> contains a c.
Proof. unfold contains. lia. Qed.

Lemma union_rois_contains_l (a b : Rect.t) : contains (union_rois a b) a.
Proof. unfold contains, union_rois. cbn. lia. Qed.

Lemma union_rois_contains_r (a b : Rect.t) : contains (union_rois a b) b.
Proof. unfold contains, union_rois. cbn. lia. Qed.

(** [union_rois] is commutative, associative and idempotent. *)
Lemma union_rois_semilattice (a b c : Rect.t) :
  union_rois a b = union_rois b a
  /\ union_rois (union_rois a b) c = union_rois a (union_rois b c)
  /\ union_rois a a = a.
Proof.
  destruct a, b, c. unfold union_rois. cbn.
  repeat split; f_equal; lia.
Qed.

(** X3: the union of two rectangles is the smallest rectangle that
    contains both; [union_rois] is commutative, associative and
    idempotent. *)
Theorem union_rois_least_cover (rect1 rect2 rect3 : Rect.t) :
  contains (union_rois rect1 rect2) rect1
  /\ contains (union_rois rect1 rect2) rect2
  /\ (forall cover, contains cover rect1 -> contains cover rect2 ->
        contains cover (union_rois rect1 rect2))
  /\ union_rois rect1 rect2 = union_rois rect2 rect1
  /\ union_rois (union_rois rect1 rect2) rect3
     = union_rois rect1 (union_rois rect2 rect3)
  /\ union_rois rect1 rect1 = rect1.
Proof.
  split; [apply union_rois_contains_l |].
  split; [apply union_rois_contains_r |].
  split; [unfold contains, union_rois; cbn; lia |].
  apply union_rois_semilattice.
Qed.

(** ** ROI merge: what the output covers *)

Lemma union_of_mono (l l' : list Rect.t) (r : Rect.t) :
  l ⊆ l' -> union_of l r -> union_of l' r.
Proof.
  intros Hsub H. induction H as [r Hr | a b _ IHa _ IHb].
  - apply union_of_input. auto.
  - now apply union_of_union.
Qed.

Lemma elem_of_delete_or {A : Type} (l : list A) (i : nat) (a x : A) :
  l !! i = Some a -> x ∈ l -> x = a \/ x ∈ delete i l.
Proof.
  intros Ha Hx. rewrite <- (take_drop_middle l i a Ha) in Hx.
  rewrite delete_take_drop.
  rewrite elem_of_app, elem_of_cons in Hx. rewrite elem_of_app. tauto.
Qed.

Lemma delete_subseteq {A : Type} (l : list A) (i : nat) :
  delete i l ⊆ l.
Proof.
  intros x Hx.
  rewrite delete_take_drop in Hx. apply elem_of_app in Hx as [Hx | Hx].
  - eapply subseteq_take; eauto.
  - eapply subseteq_drop; eauto.
Qed.

(** The inner loop returns a rectangle that contains [roi] and every
    rectangle it removed from the list. *)
Lemma absorb_loop_covers (overlap_threshold : Q) (roi : Rect.t)
    (rest : list Rect.t) :
  exists roi' rest' i,
    while_loop (length rest) absorb_cond (absorb_body overlap_threshold)
      (roi, rest, 0%nat) = Ok (roi', rest', i)
    /\ (length rest' <= length rest)%nat
    /\ contains roi' roi
    /\ (forall x, x ∈ rest -> contains roi' x \/ x ∈ rest')
    /\ rest' ⊆ rest
    /\ union_of (roi :: rest) roi'.
Proof.
  destruct (while_loop_total
              (fun '(r, rois, i) =>
                 (i <= length rois)%nat /\ (length rois <= length rest)%nat
                 /\ contains r roi
                 /\ (forall x, x ∈ rest -> contains r x \/ x ∈ rois)
                 /\ rois ⊆ rest
                 /\ union_of (roi :: rest) r)
              (fun '(_, rois, i) => (length rois - i)%nat)
              absorb_cond (absorb_body overlap_threshold))
    with (fuel := length rest) (s := (roi, rest, 0%nat))
    as ([[roi' rest'] i] & Hrun & (_ & Hlen & Hroi & Hcov & Hsub & Hun) & _).
  - intros [[r rois] i] (Hi & Hlen & Hroi & Hcov & Hsub & Hun) Hc.
    cbn in Hc. apply Nat.ltb_lt in Hc.
    destruct (list_get_Ok rois i Hc) as (a & Ha & Hget).
    unfold absorb_body. rewrite Hget. cbn [mbind result_bind bind].
    destruct (Qlt_bool _ _).
    + eexists. split; [reflexivity |]. cbn beta iota zeta.
      rewrite length_delete by eauto.
      split; [| lia]. split; [lia |]. split; [lia |].
      split; [| split; [| split]].
      * eapply contains_trans; [apply union_rois_contains_l | exact Hroi].
      * intros x Hx. destruct (Hcov x Hx) as [Hin | Hin].
        -- left. eapply contains_trans;
             [apply union_rois_contains_l | exact Hin].
        -- destruct (elem_of_delete_or rois i a x Ha Hin) as [-> | Hd].
           ++ left. apply union_rois_contains_r.
           ++ now right.
      * intros x Hx. apply Hsub. eapply delete_subseteq; eauto.
      * apply union_of_union; [exact Hun |].
        apply union_of_input. apply elem_of_cons. right. apply Hsub.
        eapply list_elem_of_lookup_2; eauto.
    + eexists. split; [reflexivity |]. cbn beta iota zeta.
      split; [| lia]. split; [lia |]. split; [lia |]. auto.
  - split; [lia |]. split; [lia |]. split; [apply contains_refl |].
    split; [auto |]. split; [auto |].
    apply union_of_input. apply elem_of_cons. now left.
  - lia.
  - exists roi', rest', i. auto 10.
Qed.

Lemma merge_rois_covers (rois : list Rect.t) (overlap_threshold : Q) :
  exists merged,
    merge_rois rois overlap_threshold = Ok merged
    /\ (forall r, r ∈ rois -> exists m, m ∈ merged /\ contains m r)
    /\ (forall m, m ∈ merged -> union_of rois m)
    /\ (rois <> [] -> merged <> []).
Proof.
  unfold merge_rois.
  destruct (while_loop_total
              (fun st : list Rect.t * list Rect.t =>
                 (forall r, r ∈ rois ->
                    (exists m, m ∈ snd st /\ contains m r) \/ r ∈ fst st)
                 /\ fst st ⊆ rois
                 /\ (forall m, m ∈ snd st -> union_of rois m)
                 /\ (rois <> [] -> fst st ++ snd st <> []))
              (fun st => length (fst st))
              (fun st => negb (bool_decide (fst st = [])))
              (merge_rois_body overlap_threshold))
    with (fuel := length rois) (s := (rois, @nil Rect.t))
    as ([rest merged] & Hrun & (Hcov & _ & Hun & Hne) & Hc).
  - intros [[| roi rest] merged] (Hcov & Hsub & Hun & Hne) Hc;
      [discriminate |].
    cbn [fst snd] in *. unfold merge_rois_body.
    destruct (absorb_loop_covers overlap_threshold roi rest)
      as (roi' & rest' & i & -> & Hle & Hroi & Hcov' & Hsub' & Hun').
    cbn [mbind result_bind bind]. eexists. split; [reflexivity |].
    cbn [fst snd length]. split; [| lia].
    split; [| split; [| split]].
    + intros r Hr. destruct (Hcov r Hr) as [(m & Hm & Hin) | Hin].
      * left. exists m. split; [| exact Hin].
        apply elem_of_app. now left.
      * apply elem_of_cons in Hin as [-> | Hin].
        -- left. exists roi'. split; [| exact Hroi].
           apply elem_of_app. right. apply list_elem_of_singleton.
           reflexivity.
        -- destruct (Hcov' r Hin) as [Hc' | Hr'].
           ++ left. exists roi'. split; [| exact Hc'].
              apply elem_of_app. right. apply list_elem_of_singleton.
              reflexivity.
           ++ now right.
    + intros x Hx. apply Hsub. apply elem_of_cons. right. now apply Hsub'.
    + intros m Hm. apply elem_of_app in Hm as [Hm | Hm]; [now apply Hun |].
      apply list_elem_of_singleton in Hm. subst m.
      eapply union_of_mono; [| exact Hun']. exact Hsub.
    + intros _ H. apply app_eq_nil in H as [_ H].
      apply app_eq_nil in H as [_ H]. discriminate.
  - cbn [fst snd]. split; [| split; [| split]].
    + intros r Hr. now right.
    + auto.
    + intros m Hm. apply elem_of_nil in Hm. contradiction.
    + intros Hne. now rewrite app_nil_r.
  - cbn. lia.
  - rewrite Hrun. cbn. cbn [fst snd] in *.
    apply negb_false_iff, bool_decide_eq_true in Hc. subst rest.
    eexists. split; [reflexivity |]. split; [| split].
    + intros r Hr. destruct (Hcov r Hr) as [H | H]; [exact H |].
      apply elem_of_nil in H. contradiction.
    + exact Hun.
    + exact Hne.
Qed.

(** X4: [merge_rois] loses no rectangle: for every input list and every
    threshold it returns, and every input rectangle lies within some
    output rectangle. *)
Theorem merge_rois_covers_input (rois : list Rect.t)
    (overlap_threshold : Q) :
  exists merged,
    merge_rois rois overlap_threshold = Ok merged
    /\ forall r, r ∈ rois -> exists m, m ∈ merged /\ contains m r.
Proof.
  destruct (merge_rois_covers rois overlap_threshold)
    as (merged & Hrun & Hcov & _).
  eauto.
Qed.

(** X5: [merge_rois] invents no rectangle: every output rectangle is an
    input rectangle or a union (by [union_rois]) of input rectangles, and
    the output is empty only when the input is. *)
Theorem merge_rois_outputs_are_unions (rois : list Rect.t)
    (overlap_threshold : Q) :
  exists merged,
    merge_rois rois overlap_threshold = Ok merged
    /\ (forall m, m ∈ merged -> union_of rois m)
    /\ (merged = [] <-> rois = []).
Proof.
  destruct (merge_rois_covers rois overlap_threshold)
    as (merged & Hrun & _ & Hun & Hne).
  exists merged. split; [exact Hrun |]. split; [exact Hun |].
  split.
  - intros ->. destruct rois as [| r rois]; [reflexivity |].
    exfalso. now apply Hne.
  - intros ->. rewrite merge_rois_nil in Hrun. congruence.
Qed.

(** ** Layout: crops and the grid *)

(** X6: the crop window of [_calc_crop] contains the ROI whenever the ROI
    starts at non-negative coordinates and is no larger than the window;
    the window never starts at a negative coordinate. *)
Theorem calc_crop_contains_roi (roi : Rect.t)
    (resize_width resize_height : Z) :
  0 <= Rect.x roi -> 0 <= Rect.y roi ->
  Rect.width roi <= resize_width -> Rect.height roi <= resize_height ->
  contains (_calc_crop roi resize_width resize_height) roi
  /\ 0 <= Rect.x (_calc_crop roi resize_width resize_height)
  /\ 0 <= Rect.y (_calc_crop roi resize_width resize_height).
Proof.
  intros Hx Hy Hw Hh. unfold contains, _calc_crop. cbn.
  Z.div_mod_to_equations. lia.
Qed.

Lemma calc_crop_contains_roi_witness :
  contains (_calc_crop (Rect.mk 900 300 200 260) 607 1080)
    (Rect.mk 900 300 200 260)
  /\ 0 <= Rect.x (_calc_crop (Rect.mk 900 300 200 260) 607 1080)
  /\ 0 <= Rect.y (_calc_crop (Rect.mk 900 300 200 260) 607 1080).
Proof.
  apply calc_crop_contains_roi; cbn; lia.
Defined.

(** X7: [_calc_crop] clamps the window at the left and top edge only: when
    the centre of the ROI is closer to the right (bottom) edge of the
    video than half the window, the window reaches beyond that edge. *)
Theorem calc_crop_not_clamped_at_far_edges (roi : Rect.t)
    (resize_width resize_height video_width video_height : Z) :
  let crop := _calc_crop roi resize_width resize_height in
  (video_width - resize_width / 2 < Rect.x roi + Rect.width roi / 2 ->
   video_width < Rect.x crop + Rect.width crop)
  /\ (video_height - resize_height / 2 < Rect.y roi + Rect.height roi / 2 ->
      video_height < Rect.y crop + Rect.height crop).
Proof.
  cbn. split; intros H; Z.div_mod_to_equations; lia.
Qed.

Lemma calc_crop_not_clamped_at_far_edges_witness :
  1920 < Rect.x (_calc_crop (Rect.mk 1700 300 200 260) 607 1080)
         + Rect.width (_calc_crop (Rect.mk 1700 300 200 260) 607 1080).
Proof.
  apply (calc_crop_not_clamped_at_far_edges (Rect.mk 1700 300 200 260)
           607 1080 1920 1080).
  vm_compute. reflexivity.
Defined.

(** The sub-crop of the [i]-th ROI in the grid layout. *)
Lemma grid_lookup (rois : list Rect.t) (resize_width resize_height : Z)
    (i : nat) (crop : gmap string Z) :
  (3 <= length rois)%nat ->
  _calc_split_screen_crops rois resize_width resize_height !! i = Some crop ->
  let grid_size := ceil_sqrt (Z.of_nat (length rois)) in
  let cell_width := resize_width / grid_size in
  let cell_height := resize_height / grid_size in
  exists roi,
    rois !! i = Some roi
    /\ crop !! "x" = Some (Rect.x (_calc_crop roi cell_width cell_height))
    /\ crop !! "y" = Some (Rect.y (_calc_crop roi cell_width cell_height))
    /\ crop !! "width" = Some cell_width
    /\ crop !! "height" = Some cell_height
    /\ crop !! "target_x" = Some ((Z.of_nat i `mod` grid_size) * cell_width)
    /\ crop !! "target_y" = Some ((Z.of_nat i / grid_size) * cell_height).
Proof.
  intros Hn. unfold _calc_split_screen_crops.
  destruct (Z.of_nat (length rois) =? 2) eqn:E2;
    [apply Z.eqb_eq in E2; lia |].
  destruct (2 <? Z.of_nat (length rois)) eqn:E3;
    [| apply Z.ltb_ge in E3; lia].
  unfold enumerate. rewrite list_lookup_fmap, list_lookup_imap.
  destruct (rois !! i) as [roi |]; [| discriminate].
  cbn [fmap option_fmap option_map]. intros [= <-]. cbv zeta.
  exists roi. split; [reflexivity |].
  repeat split; dict_lookup; reflexivity.
Qed.

Lemma grid_size_bounds (n : nat) :
  (3 <= n)%nat ->
  let grid_size := ceil_sqrt (Z.of_nat n) in
  2 <= grid_size /\ Z.of_nat n <= grid_size * grid_size.
Proof.
  intros Hn. unfold ceil_sqrt. cbv zeta.
  pose proof (Z.sqrt_up_spec (Z.of_nat n) ltac:(lia)) as [Hlo Hhi].
  pose proof (Z.sqrt_up_nonneg (Z.of_nat n)) as H0.
  split; [| unfold Z.square in *; lia].
  unfold Z.square in *. nia.
Qed.

(** X8: for three or more ROIs [_calc_split_screen_crops] returns one
    sub-crop per ROI; each has a source position at non-negative
    coordinates and a target cell that lies on the output canvas. *)
Theorem split_screen_grid_on_canvas (rois : list Rect.t)
    (resize_width resize_height : Z) :
  (3 <= length rois)%nat -> 0 <= resize_width -> 0 <= resize_height ->
  let crops := _calc_split_screen_crops rois resize_width resize_height in
  length crops = length rois
  /\ forall i crop, crops !! i = Some crop ->
       exists x y cell,
         crop !! "x" = Some x /\ crop !! "y" = Some y
         /\ 0 <= x /\ 0 <= y
         /\ target_cell crop = Some cell
         /\ 0 <= Rect.width cell /\ 0 <= Rect.height cell
         /\ contains (canvas resize_width resize_height) cell.
Proof.
  intros Hn HW HH crops. split.
  - subst crops. unfold _calc_split_screen_crops.
    destruct (Z.of_nat (length rois) =? 2) eqn:E2;
      [apply Z.eqb_eq in E2; lia |].
    destruct (2 <? Z.of_nat (length rois)) eqn:E3;
      [| apply Z.ltb_ge in E3; lia].
    unfold enumerate. now rewrite length_fmap, length_imap.
  - intros i crop Hcrop.
    pose proof (lookup_lt_Some _ _ _ Hcrop) as Hi.
    destruct (grid_lookup rois resize_width resize_height i crop Hn Hcrop)
      as (roi & Hroi & Hx & Hy & Hw & Hh & Htx & Hty).
    pose proof (lookup_lt_Some _ _ _ Hroi) as Hlt.
    destruct (grid_size_bounds (length rois) Hn) as [Hg Hsq].
    cbv zeta in *.
    set (g := ceil_sqrt (Z.of_nat (length rois))) in *.
    do 3 eexists. split; [exact Hx |]. split; [exact Hy |].
    split; [cbn; lia |]. split; [cbn; lia |].
    unfold target_cell. rewrite Htx, Hty, Hw, Hh. cbn.
    split; [reflexivity |].
    pose proof (Z.mod_pos_bound (Z.of_nat i) g ltac:(lia)) as Hmod.
    assert (Hrow : 0 <= Z.of_nat i / g < g).
    { split; [apply Z.div_pos; lia |].
      apply Z.div_lt_upper_bound; lia. }
    pose proof (Z.mul_div_le resize_width g ltac:(lia)) as HcW.
    pose proof (Z.mul_div_le resize_height g ltac:(lia)) as HcH.
    assert (0 <= resize_width / g) by (apply Z.div_pos; lia).
    assert (0 <= resize_height / g) by (apply Z.div_pos; lia).
    unfold contains, canvas. cbn.
    generalize dependent (resize_width / g).
    generalize dependent (resize_height / g).
    generalize dependent (Z.of_nat i / g).
    generalize dependent (Z.of_nat i `mod` g).
    intros. nia.
Qed.

Lemma split_screen_grid_on_canvas_witness :
  length (_calc_split_screen_crops
            [Rect.mk 0 0 10 10; Rect.mk 500 0 10 10; Rect.mk 0 500 10 10]
            608 1080) = 3%nat.
Proof.
  apply (split_screen_grid_on_canvas
           [Rect.mk 0 0 10 10; Rect.mk 500 0 10 10; Rect.mk 0 500 10 10]
           608 1080); cbn; lia.
Defined.

(** X9: in the grid layout two different ROIs are drawn into cells that
    share no pixel, provided the canvas is at least [grid_size] pixels
    wide and high (so that a cell is not empty). *)
Theorem split_screen_grid_cells_apart (rois : list Rect.t)
    (resize_width resize_height : Z) (i j : nat)
    (crop_i crop_j : gmap string Z) :
  (3 <= length rois)%nat ->
  ceil_sqrt (Z.of_nat (length rois)) <= resize_width ->
  ceil_sqrt (Z.of_nat (length rois)) <= resize_height ->
  i <> j ->
  _calc_split_screen_crops rois resize_width resize_height !! i
  = Some crop_i ->
  _calc_split_screen_crops rois resize_width resize_height !! j
  = Some crop_j ->
  exists cell_i cell_j,
    target_cell crop_i = Some cell_i /\ target_cell crop_j = Some cell_j
    /\ apart cell_i cell_j.
Proof.
  intros Hn HW HH Hij Hi Hj.
  destruct (grid_lookup rois resize_width resize_height i crop_i Hn Hi)
    as (_ & _ & _ & _ & Hwi & Hhi & Htxi & Htyi).
  destruct (grid_lookup rois resize_width resize_height j crop_j Hn Hj)
    as (_ & _ & _ & _ & Hwj & Hhj & Htxj & Htyj).
  destruct (grid_size_bounds (length rois) Hn) as [Hg _].
  cbv zeta in *.
  set (g := ceil_sqrt (Z.of_nat (length rois))) in *.
  unfold target_cell. rewrite Htxi, Htyi, Hwi, Hhi, Htxj, Htyj, Hwj, Hhj.
  cbn. do 2 eexists. split; [reflexivity |]. split; [reflexivity |].
  unfold apart. cbn.
  assert (HcW : 1 <= resize_width / g)
    by (apply Z.div_le_lower_bound; lia).
  assert (HcH : 1 <= resize_height / g)
    by (apply Z.div_le_lower_bound; lia).
  pose proof (Z.div_mod (Z.of_nat i) g ltac:(lia)) as Hdi.
  pose proof (Z.div_mod (Z.of_nat j) g ltac:(lia)) as Hdj.
  assert (Hne : Z.of_nat i `mod` g <> Z.of_nat j `mod` g
                \/ Z.of_nat i / g <> Z.of_nat j / g).
  { destruct (Z.eq_dec (Z.of_nat i `mod` g) (Z.of_nat j `mod` g)) as [Em |];
      [| now left].
    right. intros Ed. rewrite Em, Ed in Hdi. lia. }
  generalize dependent (resize_width / g).
  generalize dependent (resize_height / g).
  generalize dependent (Z.of_nat i / g).
  generalize dependent (Z.of_nat i `mod` g).
  generalize dependent (Z.of_nat j / g).
  generalize dependent (Z.of_nat j `mod` g).
  intros. nia.
Qed.

Lemma split_screen_grid_cells_apart_witness :
  exists cell_i cell_j,
    target_cell (<["x" := 0]> (<["y" := 0]> (<["width" := 304]> (
                 <["height" := 540]> (<["target_x" := 0]> (
                 <["target_y" := 0]> ∅)))))) = Some cell_i
    /\ target_cell (<["x" := 0]> (<["y" := 235]> (<["width" := 304]> (
                    <["height" := 540]> (<["target_x" := 0]> (
                    <["target_y" := 540]> ∅)))))) = Some cell_j
    /\ apart cell_i cell_j.
Proof.
  apply (split_screen_grid_cells_apart
           [Rect.mk 0 0 10 10; Rect.mk 500 0 10 10; Rect.mk 0 500 10 10]
           608 1080 0 2).
  - cbn. lia.
  - vm_compute. discriminate.
  - vm_compute. discriminate.
  - lia.
  - vm_compute. reflexivity.
  - vm_compute. reflexivity.
Defined.

(** ** The output loop of [resize] *)

Lemma mapM_Ok_intro {A B : Type} (f : A -> result B) (l : list A)
    (k : list B) :
  Forall2 (fun x y => f x = Ok y) l k -> mapM f l = Ok k.
Proof.
  induction 1 as [| x y l k Hx _ IH]; [reflexivity |].
  cbn [mapM]. rewrite Hx, bind_Ok_l, IH. reflexivity.
Qed.

Lemma mapM_Ok_inv {A B : Type} (f : A -> result B) (l : list A)
    (k : list B) :
  mapM f l = Ok k -> Forall2 (fun x y => f x = Ok y) l k.
Proof.
  revert k. induction l as [| x l IH]; intros k H.
  - cbn in H. injection H as <-. constructor.
  - cbn [mapM] in H. apply bind_Ok in H as (y & Hy & H).
    apply bind_Ok in H as (k' & Hk & H). injection H as <-.
    constructor; auto.
Qed.

Lemma mapM_Raise_head {A B : Type} (f : A -> result B) (x : A)
    (l : list A) (e : exn) :
  f x = Raise e -> mapM f (x :: l) = Raise e.
Proof. intros H. cbn [mapM]. now rewrite H. Qed.

Lemma mapM_Raise_tail {A B : Type} (f : A -> result B) (x : A) (y : B)
    (l : list A) (e : exn) :
  f x = Ok y -> mapM f l = Raise e -> mapM f (x :: l) = Raise e.
Proof. intros Hx Hl. cbn [mapM]. now rewrite Hx, bind_Ok_l, Hl. Qed.

(** The body of the loop over the sub-crops of a split segment. *)
Local Abbreviation segment_of_crop segment :=
  (fun crop : gmap string Z =>
     x ← getitem crop "x";
     y ← getitem crop "y";
     width ← getitem crop "width";
     height ← getitem crop "height";
     target_x ← getitem crop "target_x";
     target_y ← getitem crop "target_y";
     Ok (Segment.mk (CropSegment.speakers segment)
           (CropSegment.start_time segment)
           (CropSegment.end_time segment)
           x y (Some width) (Some height)
           (Some target_x) (Some target_y))).

Lemma getitem_None (d : gmap string Z) (k : string) :
  d !! k = None -> getitem d k = Raise (KeyError k).
Proof. intros H. unfold getitem. now rewrite H. Qed.

Lemma segment_of_crop_cases (segment : CropSegment.t)
    (crop : gmap string Z) :
  (complete_crop crop
   /\ exists s, segment_of_crop segment crop = Ok s
                /\ same_span segment s /\ built_from crop s)
  \/ (~ complete_crop crop
      /\ exists key, segment_of_crop segment crop = Raise (KeyError key)).
Proof.
  unfold complete_crop.
  destruct (crop !! "x") as [x |] eqn:Hx;
    [| right; split;
       [intros H; apply Forall_cons in H as [[? H] _]; congruence
       | exists "x"; now rewrite (getitem_None _ _ Hx)]].
  destruct (crop !! "y") as [y |] eqn:Hy;
    [| right; split;
       [intros H; do 1 apply Forall_cons in H as [_ H];
        apply Forall_cons in H as [[? H] _]; congruence
       | exists "y"; rewrite (getitem_Some _ _ _ Hx), bind_Ok_l;
         now rewrite (getitem_None _ _ Hy)]].
  destruct (crop !! "width") as [w |] eqn:Hw;
    [| right; split;
       [intros H; do 2 apply Forall_cons in H as [_ H];
        apply Forall_cons in H as [[? H] _]; congruence
       | exists "width";
         rewrite (getitem_Some _ _ _ Hx), bind_Ok_l,
           (getitem_Some _ _ _ Hy), bind_Ok_l;
         now rewrite (getitem_None _ _ Hw)]].
  destruct (crop !! "height") as [h |] eqn:Hh;
    [| right; split;
       [intros H; do 3 apply Forall_cons in H as [_ H];
        apply Forall_cons in H as [[? H] _]; congruence
       | exists "height";
         rewrite (getitem_Some _ _ _ Hx), bind_Ok_l,
           (getitem_Some _ _ _ Hy), bind_Ok_l,
           (getitem_Some _ _ _ Hw), bind_Ok_l;
         now rewrite (getitem_None _ _ Hh)]].
  destruct (crop !! "target_x") as [tx |] eqn:Htx;
    [| right; split;
       [intros H; do 4 apply Forall_cons in H as [_ H];
        apply Forall_cons in H as [[? H] _]; congruence
       | exists "target_x";
         rewrite (getitem_Some _ _ _ Hx), bind_Ok_l,
           (getitem_Some _ _ _ Hy), bind_Ok_l,
           (getitem_Some _ _ _ Hw), bind_Ok_l,
           (getitem_Some _ _ _ Hh), bind_Ok_l;
         now rewrite (getitem_None _ _ Htx)]].
  destruct (crop !! "target_y") as [ty |] eqn:Hty;
    [| right; split;
       [intros H; do 5 apply Forall_cons in H as [_ H];
        apply Forall_cons in H as [[? H] _]; congruence
       | exists "target_y";
         rewrite (getitem_Some _ _ _ Hx), bind_Ok_l,
           (getitem_Some _ _ _ Hy), bind_Ok_l,
           (getitem_Some _ _ _ Hw), bind_Ok_l,
           (getitem_Some _ _ _ Hh), bind_Ok_l,
           (getitem_Some _ _ _ Htx), bind_Ok_l;
         now rewrite (getitem_None _ _ Hty)]].
  left. split; [repeat constructor; eauto |].
  eexists. split.
  - rewrite (getitem_Some _ _ _ Hx), bind_Ok_l,
      (getitem_Some _ _ _ Hy), bind_Ok_l,
      (getitem_Some _ _ _ Hw), bind_Ok_l,
      (getitem_Some _ _ _ Hh), bind_Ok_l,
      (getitem_Some _ _ _ Htx), bind_Ok_l,
      (getitem_Some _ _ _ Hty), bind_Ok_l.
    reflexivity.
  - split; [repeat split |]. unfold built_from. cbn. auto 10.
Qed.

Lemma split_crops_Ok (segment : CropSegment.t)
    (crops : list (gmap string Z)) :
  Forall complete_crop crops ->
  exists out,
    mapM (segment_of_crop segment) crops = Ok out
    /\ Forall (same_span segment) out
    /\ Forall2 built_from crops out.
Proof.
  induction 1 as [| crop crops Hc _ (out & Hout & Hspan & Hbuilt)].
  - exists []. repeat constructor.
  - destruct (segment_of_crop_cases segment crop)
      as [(_ & s & Hs & Hsp & Hb) | [Hn _]]; [| contradiction].
    exists (s :: out). split; [| split; constructor; auto].
    cbn [mapM]. rewrite Hs, bind_Ok_l, Hout. reflexivity.
Qed.

Lemma split_crops_Raise (segment : CropSegment.t)
    (crops : list (gmap string Z)) :
  ~ Forall complete_crop crops ->
  exists key,
    mapM (segment_of_crop segment) crops = Raise (KeyError key).
Proof.
  induction crops as [| crop crops IH]; intros Hn.
  - exfalso. apply Hn. constructor.
  - destruct (segment_of_crop_cases segment crop)
      as [(Hc & s & Hs & _) | (_ & key & Hkey)].
    + destruct IH as [key Hkey].
      { intros H. apply Hn. now constructor. }
      exists key. eapply mapM_Raise_tail; eauto.
    + exists key. now apply mapM_Raise_head.
Qed.

Lemma crop_type_other (crop_type : string) :
  crop_type <> "single" -> crop_type <> "split" ->
  String.eqb crop_type "single" = false
  /\ String.eqb crop_type "split" = false.
Proof. intros H1 H2. split; now apply String.eqb_neq. Qed.

Lemma crop_segments_of_Ok (segment : CropSegment.t) :
  renderable segment ->
  exists out,
    crop_segments_of segment = Ok out
    /\ length out = crop_count segment
    /\ Forall (same_span segment) out
    /\ forall crops, CropSegment.crop segment = Split crops ->
         Forall2 built_from crops out.
Proof.
  unfold renderable, crop_segments_of, crop_count, CropSegment.crop_type,
    CropSegment.x, CropSegment.y, CropSegment.crops.
  destruct (CropSegment.crop segment) as [x y | crops | crop_type] eqn:E.
  - intros _. cbn. eexists. split; [reflexivity |].
    split; [reflexivity |]. split; [| discriminate].
    repeat constructor.
  - intros Hc. cbn [String.eqb Ascii.eqb Bool.eqb]. rewrite bind_Ok_l.
    destruct (split_crops_Ok segment crops Hc) as (out & -> & Hsp & Hb).
    exists out. split; [reflexivity |].
    split; [symmetry; eapply Forall2_length; eauto |].
    split; [exact Hsp |]. intros ? [= <-]. exact Hb.
  - intros [H1 H2].
    destruct (crop_type_other crop_type H1 H2) as [-> ->].
    exists []. split; [reflexivity |]. split; [reflexivity |].
    split; [constructor | discriminate].
Qed.

(** X10: the output loop turns a segment dict it can read (single; split
    with all six keys in every sub-crop; or of another crop type) into
    Segment objects with the speakers and times of the dict: one for a
    single crop, one per sub-crop, with the values of that sub-crop, for a
    split crop, and none for another crop type. *)
Theorem crop_segments_of_renderable (segment : CropSegment.t) :
  renderable segment ->
  exists out,
    crop_segments_of segment = Ok out
    /\ length out = crop_count segment
    /\ Forall (same_span segment) out
    /\ forall crops, CropSegment.crop segment = Split crops ->
         Forall2 built_from crops out.
Proof. apply crop_segments_of_Ok. Qed.

Lemma crop_segments_of_renderable_witness :
  exists out,
    crop_segments_of (CropSegment.mk [1] 0 4 (Single 656 0)) = Ok out
    /\ length out = crop_count (CropSegment.mk [1] 0 4 (Single 656 0))
    /\ Forall (same_span (CropSegment.mk [1] 0 4 (Single 656 0))) out
    /\ forall crops,
         CropSegment.crop (CropSegment.mk [1] 0 4 (Single 656 0))
         = Split crops ->
         Forall2 built_from crops out.
Proof.
  apply crop_segments_of_renderable. exact I.
Defined.

(** X11: a segment dict the output loop cannot read makes it raise
    [KeyError]: a split crop with a sub-crop that lacks one of the six
    keys, or a dict tagged single or split without the matching keys. *)
Theorem crop_segments_of_raises (segment : CropSegment.t) :
  ~ renderable segment ->
  exists key, crop_segments_of segment = Raise (KeyError key).
Proof.
  unfold renderable, crop_segments_of, CropSegment.crop_type,
    CropSegment.x, CropSegment.y, CropSegment.crops.
  destruct (CropSegment.crop segment) as [x y | crops | crop_type] eqn:E.
  - intros H. exfalso. now apply H.
  - intros Hn. cbn [String.eqb Ascii.eqb Bool.eqb]. rewrite bind_Ok_l.
    now apply split_crops_Raise.
  - intros Hn.
    destruct (String.eqb crop_type "single") eqn:E1.
    { exists "x". reflexivity. }
    destruct (String.eqb crop_type "split") eqn:E2.
    { exists "crops". reflexivity. }
    exfalso. apply Hn. split; now apply String.eqb_neq.
Qed.

Lemma crop_segments_of_raises_witness :
  exists key,
    crop_segments_of
      (CropSegment.mk [1] 0 4 (Split [<["x" := 0]> (<["y" := 0]> ∅)]))
    = Raise (KeyError key).
Proof.
  apply crop_segments_of_raises. cbn. intros H.
  apply Forall_cons in H as [H _].
  do 2 apply Forall_cons in H as [_ H].
  apply Forall_cons in H as [[w H] _]. revert H.
  dict_lookup. discriminate.
Defined.

Lemma build_crop_segments_loop (segments : list CropSegment.t)
    (crop_segments : list Segment.t) :
  Forall renderable segments ->
  exists out,
    for_each (fun crop_segments segment =>
                new ← crop_segments_of segment;
                Ok (crop_segments ++ new))
      segments crop_segments = Ok (crop_segments ++ out)
    /\ length out = list_sum (crop_count <$> segments)
    /\ Forall (fun s => exists segment,
                 segment ∈ segments /\ same_span segment s) out.
Proof.
  intros H. revert crop_segments.
  induction H as [| segment segments Hr _ IH]; intros crop_segments.
  - exists []. rewrite app_nil_r. repeat constructor.
  - destruct (crop_segments_of_Ok segment Hr)
      as (new & Hnew & Hlen & Hspan & _).
    destruct (IH (crop_segments ++ new)) as (out & Hout & Hlen' & Hspan').
    exists (new ++ out). cbn [for_each].
    rewrite Hnew, bind_Ok_l, bind_Ok_l, Hout, app_assoc.
    split; [reflexivity |]. split.
    + rewrite length_app, Hlen, Hlen'. reflexivity.
    + apply Forall_app. split.
      * eapply Forall_impl; [exact Hspan |]. intros s Hs.
        exists segment. split; [apply elem_of_cons; now left | exact Hs].
      * eapply Forall_impl; [exact Hspan' |]. intros s (seg & Hin & Hs).
        exists seg. split; [apply elem_of_cons; now right | exact Hs].
Qed.

(** X12: on segment dicts it can read, the output loop of [resize]
    returns; the number of Segment objects is the sum of the crop counts
    (one per single crop, one per sub-crop), and each has the speakers and
    times of one of the dicts. *)
Theorem build_crop_segments_total (segments : list CropSegment.t) :
  Forall renderable segments ->
  exists out,
    build_crop_segments segments = Ok out
    /\ length out = list_sum (crop_count <$> segments)
    /\ Forall (fun s => exists segment,
                 segment ∈ segments /\ same_span segment s) out.
Proof.
  intros H. apply (build_crop_segments_loop segments [] H).
Qed.

Lemma build_crop_segments_total_witness :
  exists out,
    build_crop_segments
      [CropSegment.mk [1] 0 4 (Single 656 0);
       CropSegment.mk [2] 4 9 (Other "wide")] = Ok out
    /\ length out
       = list_sum (crop_count <$>
                     [CropSegment.mk [1] 0 4 (Single 656 0);
                      CropSegment.mk [2] 4 9 (Other "wide")])
    /\ Forall (fun s => exists segment,
                 segment ∈ [CropSegment.mk [1] 0 4 (Single 656 0);
                            CropSegment.mk [2] 4 9 (Other "wide")]
                 /\ same_span segment s) out.
Proof.
  apply build_crop_segments_total.
  repeat constructor; discriminate.
Defined.

Lemma grid_crops_complete (rois : list Rect.t)
    (resize_width resize_height : Z) :
  (3 <= length rois)%nat ->
  Forall complete_crop
    (_calc_split_screen_crops rois resize_width resize_height).
Proof.
  intros Hn. apply Forall_lookup. intros i crop Hcrop.
  destruct (grid_lookup rois resize_width resize_height i crop Hn Hcrop)
    as (roi & _ & Hx & Hy & Hw & Hh & Htx & Hty).
  repeat constructor; eauto.
Qed.

(** X13: the grid layout and the output loop fit together: for three or
    more ROIs the sub-crops of [_calc_split_screen_crops] have all six
    keys, and the output loop builds one Segment per ROI from them. *)
Theorem grid_crops_pass_output_loop (rois : list Rect.t)
    (resize_width resize_height : Z) (speakers : list Z) (t0 t1 : Q) :
  (3 <= length rois)%nat ->
  let crops := _calc_split_screen_crops rois resize_width resize_height in
  exists out,
    crop_segments_of (CropSegment.mk speakers t0 t1 (Split crops)) = Ok out
    /\ length out = length rois
    /\ Forall2 built_from crops out.
Proof.
  intros Hn crops.
  destruct (crop_segments_of_Ok
              (CropSegment.mk speakers t0 t1 (Split crops)))
    as (out & Hout & Hlen & _ & Hb).
  { apply grid_crops_complete. exact Hn. }
  exists out. split; [exact Hout |].
  specialize (Hb crops eq_refl). split; [| exact Hb].
  rewrite <- (Forall2_length _ _ _ Hb). subst crops.
  unfold _calc_split_screen_crops.
  destruct (Z.of_nat (length rois) =? 2) eqn:E2;
    [apply Z.eqb_eq in E2; lia |].
  destruct (2 <? Z.of_nat (length rois)) eqn:E3;
    [| apply Z.ltb_ge in E3; lia].
  unfold enumerate. now rewrite length_fmap, length_imap.
Qed.

Lemma grid_crops_pass_output_loop_witness :
  exists out,
    crop_segments_of
      (CropSegment.mk [1; 2; 3] 0 4
         (Split (_calc_split_screen_crops
                   [Rect.mk 0 0 10 10; Rect.mk 500 0 10 10;
                    Rect.mk 0 500 10 10] 608 1080))) = Ok out
    /\ length out = 3%nat
    /\ Forall2 built_from
         (_calc_split_screen_crops
            [Rect.mk 0 0 10 10; Rect.mk 500 0 10 10; Rect.mk 0 500 10 10]
            608 1080) out.
Proof.
  apply (grid_crops_pass_output_loop
           [Rect.mk 0 0 10 10; Rect.mk 500 0 10 10; Rect.mk 0 500 10 10]
           608 1080 [1; 2; 3] 0 4).
  cbn. lia.
Defined.

(** ** The ROI loop *)

Lemma calc_segment_rois_Ok (face_detections : list face_detection) :
  exists rois, _calc_segment_rois face_detections = Ok rois.
Proof.
  unfold _calc_segment_rois.
  destruct (merge_rois_length
              (flat_map
                 (fun fd : face_detection =>
                    match fd with
                    | Some boxes =>
                        (fun '(x1, y1, x2, y2) =>
                           Rect.mk x1 y1 (x2 - x1) (y2 - y1)) <$> boxes
                    | None => []
                    end) face_detections)
              default_overlap_threshold) as (rois & -> & _).
  eauto.
Qed.

Lemma split_crops_have_x_y (rois : list Rect.t)
    (resize_width resize_height : Z) :
  Forall has_x_y (_calc_split_screen_crops rois resize_width resize_height).
Proof.
  unfold _calc_split_screen_crops.
  destruct (_ =? 2).
  - apply Forall_fmap, Forall_forall. intros [i roi] _. cbn.
    split; dict_lookup; eauto.
  - destruct (2 <? _); [| constructor].
    apply Forall_fmap, Forall_forall. intros [i roi] _. cbn.
    split; dict_lookup; eauto.
Qed.

Lemma add_x_y_coords_Ok (video_width video_height : Z)
    (resize_width resize_height : Z)
    (face_detections : list face_detection)
    (idx : nat) (updated : list CropSegment.t) (segment : FaceSegment.t) :
  exists idx' new,
    add_x_y_coords video_width video_height resize_width resize_height
      face_detections (idx, updated) segment
    = Ok (idx', updated ++ [new])
    /\ keeps_span segment new
    /\ well_formed new
    /\ (FaceSegment.found_face segment = false ->
        idx' = idx
        /\ CropSegment.crop new
           = centre_box_crop video_width video_height
               resize_width resize_height)
    /\ (FaceSegment.found_face segment = true ->
        idx' = (idx + FaceSegment.num_samples segment)%nat).
Proof.
  unfold add_x_y_coords.
  destruct (FaceSegment.found_face segment) eqn:Hf.
  - destruct (calc_segment_rois_Ok
                (py_slice idx (idx + FaceSegment.num_samples segment)
                   face_detections)) as (rois & ->).
    rewrite !bind_Ok_l. do 2 eexists. split; [reflexivity |].
    split; [repeat split |]. split; [| split; [discriminate | reflexivity]].
    unfold well_formed. cbn [CropSegment.crop].
    destruct rois as [| roi [| roi' rois]]; [exact I | exact I |].
    apply split_crops_have_x_y.
  - rewrite !bind_Ok_l. do 2 eexists. split; [reflexivity |].
    split; [repeat split |]. split; [exact I |].
    split; [| discriminate]. intros _. split; reflexivity.
Qed.

(** X14: the ROI loop never raises.  It returns one segment dict per
    segment, with the speakers and times of that segment and a crop that
    is single or split with x and y in every sub-crop; a segment without a
    face gets the window around the centre box of the video. *)
Theorem add_x_y_coords_loop_total (video_width video_height : Z)
    (resize_width resize_height : Z)
    (face_detections : list face_detection)
    (segments : list FaceSegment.t) :
  exists updated,
    add_x_y_coords_loop video_width video_height resize_width resize_height
      face_detections segments = Ok updated
    /\ Forall2 (fun segment new =>
                  keeps_span segment new /\ well_formed new
                  /\ (FaceSegment.found_face segment = false ->
                      CropSegment.crop new
                      = centre_box_crop video_width video_height
                          resize_width resize_height))
         segments updated.
Proof.
  unfold add_x_y_coords_loop.
  assert (H : forall idx updated,
             exists idx' out,
               for_each (add_x_y_coords video_width video_height
                           resize_width resize_height face_detections)
                 segments (idx, updated) = Ok (idx', updated ++ out)
               /\ Forall2 (fun segment new =>
                    keeps_span segment new /\ well_formed new
                    /\ (FaceSegment.found_face segment = false ->
                        CropSegment.crop new
                        = centre_box_crop video_width video_height
                            resize_width resize_height))
                    segments out).
  { induction segments as [| segment segments IH]; intros idx updated.
    - exists idx, []. rewrite app_nil_r. split; [reflexivity | constructor].
    - destruct (add_x_y_coords_Ok video_width video_height resize_width
                  resize_height face_detections idx updated segment)
        as (idx1 & new & Hnew & Hspan & Hwf & Hnf & _).
      destruct (IH idx1 (updated ++ [new])) as (idx2 & out & Hout & Hall).
      exists idx2, (new :: out). cbn [for_each].
      rewrite Hnew, bind_Ok_l, Hout, <- app_assoc. split; [reflexivity |].
      constructor; [| exact Hall].
      split; [exact Hspan |]. split; [exact Hwf |].
      intros Hf. now apply Hnf. }
  destruct (H 0%nat []) as (idx' & out & -> & Hall).
  rewrite bind_Ok_l. exists out. split; [reflexivity | exact Hall].
Qed.

(** ** BatchSizer: what the batch count guarantees *)

Section BatchSizerFacts.
Variable calc_img_bytes : Z -> Z -> Z -> Z.
Hypothesis calc_img_bytes_nonneg :
  forall h w c, 0 <= h -> 0 <= w -> 0 <= c -> 0 <= calc_img_bytes h w c.

Lemma cpu_bytes_nonneg (vid_height vid_width : Z) (cuda_is_available : bool)
    (num_frames face_detect_width : Z) :
  0 <= vid_height -> 0 <= vid_width -> 0 <= num_frames ->
  0 < face_detect_width ->
  0 <= cpu_bytes calc_img_bytes vid_height vid_width cuda_is_available
         num_frames face_detect_width.
Proof using calc_img_bytes_nonneg.
  intros Hh Hw Hn Hfdw.
  unfold cpu_bytes, extract_bytes, face_detect_bytes. cbv zeta.
  set (df := if Qlt_bool _ 1 then 1%Q else _).
  assert (Hdf : (1 <= df)%Q).
  { subst df. destruct (Qlt_bool _ 1) eqn:E; [apply Qle_refl |].
    now apply Qlt_bool_false in E. }
  pose proof (Qfloor_div_nonneg vid_height df Hh Hdf) as Hfh.
  pose proof (calc_img_bytes_nonneg vid_height vid_width 3
                Hh Hw ltac:(lia)) as Hb1.
  pose proof (calc_img_bytes_nonneg _ face_detect_width 3
                Hfh ltac:(lia) ltac:(lia)) as Hb2.
  destruct cuda_is_available; nia.
Qed.

(** The batch count in closed form. *)
Lemma calc_n_batches_value (vid_height vid_width free_cpu_memory : Z)
    (cuda_is_available : bool)
    (num_frames face_detect_width n_face_detect_batches : Z) :
  0 <= vid_height -> 0 <= vid_width -> 0 <= num_frames ->
  0 < face_detect_width -> 0 < free_cpu_memory ->
  _calc_n_batches calc_img_bytes vid_height vid_width free_cpu_memory
    cuda_is_available num_frames face_detect_width n_face_detect_batches
  = Ok (Z.max
          (cpu_bytes calc_img_bytes vid_height vid_width cuda_is_available
             num_frames face_detect_width / free_cpu_memory + 1)
          (if cuda_is_available then n_face_detect_batches else 0)).
Proof using calc_img_bytes_nonneg.
  intros Hh Hw Hn Hfdw Hfree.
  pose proof (cpu_bytes_nonneg vid_height vid_width cuda_is_available
                num_frames face_detect_width Hh Hw Hn Hfdw) as Hcpu.
  revert Hcpu.
  unfold _calc_n_batches, cpu_bytes, extract_bytes, face_detect_bytes.
  rewrite py_truediv_double_Ok by lia. cbn [mbind result_bind bind]. cbv zeta.
  set (b1 := calc_img_bytes vid_height vid_width 3).
  set (b2 := calc_img_bytes _ face_detect_width 3).
  intros Hcpu.
  assert (Hq : forall a, 0 <= a -> 0 <= a / free_cpu_memory)
    by (intros a Ha; apply Z.div_pos; lia).
  destruct cuda_is_available.
  - rewrite Z.add_0_r in *. pose proof (Hq _ Hcpu).
    destruct (n_face_detect_batches =? 0) eqn:E;
      repeat (rewrite py_floordiv_Ok by lia; cbn [mbind result_bind bind]);
      rewrite ?E; repeat (rewrite py_floordiv_Ok by lia);
      reflexivity.
  - pose proof (Hq _ Hcpu).
    repeat (rewrite py_floordiv_Ok by lia; cbn [mbind result_bind bind]).
    change (0 =? 0) with true. cbn [mbind result_bind bind].
    reflexivity.
Qed.




(** X16: more free memory never needs more batches, and more frames never
    need fewer. *)
Theorem calc_n_batches_monotone
    (vid_height vid_width : Z) (cuda_is_available : bool)
    (face_detect_width n_face_detect_batches : Z)
    (free_cpu_memory free_cpu_memory' num_frames num_frames' : Z) :
  0 <= vid_height -> 0 <= vid_width -> 0 < face_detect_width ->
  0 < free_cpu_memory <= free_cpu_memory' ->
  0 <= num_frames' <= num_frames ->
  exists n_batches n_batches',
    _calc_n_batches calc_img_bytes vid_height vid_width free_cpu_memory
      cuda_is_available num_frames face_detect_width n_face_detect_batches
    = Ok n_batches
    /\ _calc_n_batches calc_img_bytes vid_height vid_width free_cpu_memory'
         cuda_is_available num_frames' face_detect_width
         n_face_detect_batches
       = Ok n_batches'
    /\ n_batches' <= n_batches.
Proof using calc_img_bytes_nonneg.
  intros Hh Hw Hfdw Hfree Hn.
  rewrite !calc_n_batches_value by (assumption || lia).
  do 2 eexists. split; [reflexivity |]. split; [reflexivity |].
  pose proof (cpu_bytes_nonneg vid_height vid_width cuda_is_available
                num_frames' face_detect_width Hh Hw ltac:(lia) Hfdw) as Hc'.
  assert (Hle : cpu_bytes calc_img_bytes vid_height vid_width
                  cuda_is_available num_frames' face_detect_width
                <= cpu_bytes calc_img_bytes vid_height vid_width
                     cuda_is_available num_frames face_detect_width).
  { revert Hc'. unfold cpu_bytes, extract_bytes, face_detect_bytes.
    cbv zeta.
    set (df := if Qlt_bool _ 1 then 1%Q else _).
    assert (Hdf : (1 <= df)%Q).
    { subst df. destruct (Qlt_bool _ 1) eqn:E; [apply Qle_refl |].
      now apply Qlt_bool_false in E. }
    pose proof (Qfloor_div_nonneg vid_height df Hh Hdf) as Hfh.
    pose proof (calc_img_bytes_nonneg vid_height vid_width 3
                  Hh Hw ltac:(lia)) as Hb1.
    pose proof (calc_img_bytes_nonneg _ face_detect_width 3
                  Hfh ltac:(lia) ltac:(lia)) as Hb2.
    destruct cuda_is_available; nia. }
  set (total := cpu_bytes _ _ _ _ num_frames _) in *.
  set (total' := cpu_bytes _ _ _ _ num_frames' _) in *.
  assert (total' / free_cpu_memory' <= total / free_cpu_memory).
  { transitivity (total' / free_cpu_memory).
    - apply Z.div_le_compat_l; lia.
    - apply Z.div_le_mono; lia. }
  lia.
Qed.
End BatchSizerFacts.


(** One frame of 1920 by 1080 pixels does not fit in 6000000 free bytes,
    and is a batch all the same. *)
Example scanner_batch_exceeds_free_memory :
  detect_in_batches (fun h w c => h * w * c) 1080 1920 6000000 true
    (fmap (fun _ => true)) 960 0 [0.5%Q]
  = Ok [true]
  /\ 6000000 < cpu_bytes (fun h w c => h * w * c) 1080 1920 true 1 960.
Proof. split; vm_compute; reflexivity. Qed.

Lemma calc_n_batches_monotone_witness :
  exists n_batches n_batches',
    _calc_n_batches (fun h w c => h * w * c) 1080 1920 100000000 false
      130 960 8 = Ok n_batches
    /\ _calc_n_batches (fun h w c => h * w * c) 1080 1920 200000000 false
         13 960 8 = Ok n_batches'
    /\ n_batches' <= n_batches.
Proof.
  apply (calc_n_batches_monotone (fun h w c => h * w * c));
    [intros; nia | lia | lia | lia | lia | lia].
Defined.

(** X17: the hint [n_face_detect_batches] is a lower bound of the batch
    count when CUDA is available, and is not used at all when it is not. *)
Theorem calc_n_batches_hint (calc_img_bytes : Z -> Z -> Z -> Z)
    (vid_height vid_width free_cpu_memory : Z)
    (num_frames face_detect_width : Z)
    (n_face_detect_batches n_face_detect_batches' : Z) :
  _calc_n_batches calc_img_bytes vid_height vid_width free_cpu_memory
    false num_frames face_detect_width n_face_detect_batches
  = _calc_n_batches calc_img_bytes vid_height vid_width free_cpu_memory
      false num_frames face_detect_width n_face_detect_batches'
  /\ forall n_batches,
       _calc_n_batches calc_img_bytes vid_height vid_width free_cpu_memory
         true num_frames face_detect_width n_face_detect_batches
       = Ok n_batches ->
       n_face_detect_batches <= n_batches.
Proof.
  split.
  - unfold _calc_n_batches.
    destruct (py_truediv_double vid_width face_detect_width); reflexivity.
  - intros n_batches H. unfold _calc_n_batches in H.
    apply bind_Ok in H as (ratio & _ & H). cbv zeta in H.
    apply bind_Ok in H as ([[total n_extract] hint] & H1 & H).
    apply bind_Ok in H1 as (q & _ & [= <- <- <-]).
    apply bind_Ok in H as (_ & _ & H).
    apply bind_Ok in H as (_ & _ & [= <-]). lia.
Qed.

(** ** Resize dimensions: the general case *)

Lemma py_int_div (a b : Z) :
  0 <= a -> 0 < b -> py_int (inject_Z a / inject_Z b) = a / b.
Proof.
  intros Ha Hb. destruct b as [| p | p]; try lia.
  unfold py_int. cbn. rewrite Z.mul_1_r.
  apply Z.quot_div_nonneg; lia.
Qed.

Lemma Qlt_bool_div (a b c d : Z) :
  0 < b -> 0 < d ->
  Qlt_bool (inject_Z a / inject_Z b) (inject_Z c / inject_Z d)
  = (a * d <? c * b).
Proof.
  intros Hb Hd. destruct b as [| p | p], d as [| q | q]; try lia.
  destruct (a * Z.pos q <? c * Z.pos p) eqn:E.
  - apply Z.ltb_lt in E. apply Qlt_bool_iff.
    unfold Qlt. cbn. rewrite !Z.mul_1_r. exact E.
  - apply Z.ltb_ge in E. apply Qlt_bool_false.
    unfold Qle. cbn. rewrite !Z.mul_1_r. exact E.
Qed.

(** X18: for a video of positive width and height and an aspect ratio of
    two positive ints, [_calc_resize_width_and_height_pixels] returns a
    window that fits in the video and keeps its full height or its full
    width; the other side is the floor of the exact quotient. *)
Theorem calc_resize_fits_in_video
    (original_width_pixels original_height_pixels : Z)
    (resize_ar_width resize_ar_height : Z) :
  0 < original_width_pixels -> 0 < original_height_pixels ->
  0 < resize_ar_width -> 0 < resize_ar_height ->
  exists resize_width_pixels resize_height_pixels,
    _calc_resize_width_and_height_pixels original_width_pixels
      original_height_pixels (resize_ar_width, resize_ar_height)
    = Ok (resize_width_pixels, resize_height_pixels)
    /\ 0 <= resize_width_pixels <= original_width_pixels
    /\ 0 <= resize_height_pixels <= original_height_pixels
    /\ ((resize_height_pixels = original_height_pixels
         /\ resize_width_pixels
            = original_height_pixels * resize_ar_width / resize_ar_height)
        \/ (resize_width_pixels = original_width_pixels
            /\ resize_height_pixels
               = original_width_pixels * resize_ar_height
                 / resize_ar_width)).
Proof.
  intros HW HH Ha Hb. unfold _calc_resize_width_and_height_pixels.
  rewrite !py_truediv_Ok by lia. rewrite !bind_Ok_l.
  rewrite Qlt_bool_div by lia.
  destruct (_ <? _) eqn:E.
  - apply Z.ltb_lt in E. rewrite ?py_truediv_Ok by lia. rewrite ?bind_Ok_l.
    rewrite py_int_div by nia. do 2 eexists. split; [reflexivity |].
    split; [| split; [lia | left; auto]].
    split; [apply Z.div_pos; nia |].
    apply Z.div_le_upper_bound; nia.
  - apply Z.ltb_ge in E. rewrite ?py_truediv_Ok by lia. rewrite ?bind_Ok_l.
    rewrite py_int_div by nia. do 2 eexists. split; [reflexivity |].
    split; [lia |]. split; [| right; auto].
    split; [apply Z.div_pos; nia |].
    apply Z.div_le_upper_bound; nia.
Qed.

Lemma calc_resize_fits_in_video_witness :
  exists resize_width_pixels resize_height_pixels,
    _calc_resize_width_and_height_pixels 1280 720 (1, 1)
    = Ok (resize_width_pixels, resize_height_pixels)
    /\ 0 <= resize_width_pixels <= 1280
    /\ 0 <= resize_height_pixels <= 720
    /\ ((resize_height_pixels = 720
         /\ resize_width_pixels = 720 * 1 / 1)
        \/ (resize_width_pixels = 1280
            /\ resize_height_pixels = 1280 * 1 / 1)).
Proof.
  apply (calc_resize_fits_in_video 1280 720 1 1); lia.
Defined.

(** X19: [_calc_resize_width_and_height_pixels] raises
    [ZeroDivisionError] when the video height or the height of the aspect
    ratio is zero. *)
Theorem calc_resize_zero_division
    (original_width_pixels original_height_pixels : Z)
    (resize_ar_width resize_ar_height : Z) :
  original_height_pixels = 0 \/ resize_ar_height = 0 ->
  _calc_resize_width_and_height_pixels original_width_pixels
    original_height_pixels (resize_ar_width, resize_ar_height)
  = Raise ZeroDivisionError.
Proof.
  intros H. unfold _calc_resize_width_and_height_pixels, py_truediv.
  destruct (resize_ar_height =? 0) eqn:Eb; [reflexivity |].
  apply Z.eqb_neq in Eb. rewrite bind_Ok_l.
  destruct H as [-> | ->]; [reflexivity | contradiction].
Qed.

Lemma calc_resize_zero_division_witness :
  _calc_resize_width_and_height_pixels 1920 1080 (9, 0)
  = Raise ZeroDivisionError.
Proof.
  apply calc_resize_zero_division. right. reflexivity.
Defined.

(** ** TimelineMerger: errors, lengths and splits *)

Lemma advance_cursor_past_end (rest : list SpeakerSegment.t) (idx : nat)
    (t : Q) :
  Forall (fun s => (SpeakerSegment.end_time s < t)%Q) rest ->
  advance_cursor rest idx t = Raise IndexError.
Proof.
  intros H. revert idx.
  induction H as [| s rest Hs _ IH]; intros idx; [reflexivity |].
  cbn [advance_cursor]. apply Qlt_bool_iff in Hs. rewrite Hs. apply IH.
Qed.

Lemma advance_cursor_skips (pre post : list SpeakerSegment.t)
    (segment : SpeakerSegment.t) (idx : nat) (t : Q) :
  Forall (fun s => (SpeakerSegment.end_time s < t)%Q) pre ->
  (t <= SpeakerSegment.end_time segment)%Q ->
  advance_cursor (pre ++ segment :: post) idx t = Ok (idx + length pre)%nat.
Proof.
  intros H Hseg. revert idx.
  induction H as [| s pre Hs _ IH]; intros idx.
  - cbn [app advance_cursor length]. apply Qlt_bool_false in Hseg.
    rewrite Hseg. f_equal. lia.
  - cbn [app advance_cursor length]. apply Qlt_bool_iff in Hs. rewrite Hs.
    rewrite IH. f_equal. lia.
Qed.

Lemma advance_cursor_cases (rest : list SpeakerSegment.t) (idx : nat)
    (t : Q) :
  (exists idx', advance_cursor rest idx t = Ok idx')
  \/ advance_cursor rest idx t = Raise IndexError.
Proof.
  revert idx. induction rest as [| s rest IH]; intros idx; [now right |].
  cbn [advance_cursor]. destruct (Qlt_bool _ _); [apply IH | eauto].
Qed.

Lemma merge_scene_change_length (thr : Q)
    (segments : list SpeakerSegment.t) (idx : nat) (t : Q) :
  (exists segments' idx',
     merge_scene_change thr (segments, idx) t = Ok (segments', idx')
     /\ (length segments <= length segments' <= S (length segments))%nat)
  \/ merge_scene_change thr (segments, idx) t = Raise IndexError.
Proof.
  unfold merge_scene_change.
  destruct (advance_cursor_cases (drop idx segments) idx t)
    as [[i ->] | ->]; [| now right].
  rewrite bind_Ok_l.
  destruct (list_get_cases segments i) as [(segment & Hi & ->) | ->];
    [| now right].
  rewrite bind_Ok_l. apply lookup_lt_Some in Hi.
  destruct (_ && _).
  { destruct (_ =? _)%nat.
    - left. do 2 eexists. split; [reflexivity |].
      rewrite length_insert. lia.
    - destruct (list_get_cases
                  (<[i := SpeakerSegment.set_end_time segment t]> segments)
                  (S i)) as [(next_segment & _ & ->) | ->]; [| now right].
      left. do 2 eexists. split; [reflexivity |].
      rewrite !length_insert. lia. }
  destruct (_ && _).
  { destruct i as [| prev_idx].
    - left. do 2 eexists. split; [reflexivity |].
      rewrite length_insert. lia.
    - destruct (list_get_cases
                  (<[S prev_idx := SpeakerSegment.set_start_time segment t]>
                     segments)
                  prev_idx) as [(prev_segment & _ & ->) | ->];
        [| now right].
      left. do 2 eexists. split; [reflexivity |].
      rewrite !length_insert. lia. }
  destruct (Qeq_bool _ _).
  { left. do 2 eexists. split; [reflexivity |]. lia. }
  left. do 2 eexists. split; [reflexivity |].
  rewrite !length_app, length_take, length_drop, !length_insert.
  cbn [length]. lia.
Qed.

Lemma merge_scene_changes_length (thr : Q) (scene_changes : list Q) :
  forall (segments : list SpeakerSegment.t) (idx : nat),
    (exists segments' idx',
       for_each (merge_scene_change thr) scene_changes (segments, idx)
       = Ok (segments', idx')
       /\ (length segments <= length segments'
           <= length segments + length scene_changes)%nat)
    \/ for_each (merge_scene_change thr) scene_changes (segments, idx)
       = Raise IndexError.
Proof.
  induction scene_changes as [| t scene_changes IH]; intros segments idx.
  - left. exists segments, idx. split; [reflexivity | cbn; lia].
  - cbn [for_each].
    destruct (merge_scene_change_length thr segments idx t)
      as [(segments1 & idx1 & -> & Hlen) | ->]; [| now right].
    rewrite bind_Ok_l.
    destruct (IH segments1 idx1) as [(segments2 & idx2 & -> & Hlen') | ->];
      [| now right].
    left. exists segments2, idx2. split; [reflexivity |]. cbn. lia.
Qed.

Lemma advance_cursor_Ok (rest : list SpeakerSegment.t) (t : Q) :
  forall idx i,
    advance_cursor rest idx t = Ok i ->
    exists segment,
      rest !! (i - idx)%nat = Some segment /\ (idx <= i)%nat
      /\ (t <= SpeakerSegment.end_time segment)%Q.
Proof.
  induction rest as [| s rest IH]; intros idx i H; [discriminate |].
  cbn [advance_cursor] in H.
  destruct (Qlt_bool (SpeakerSegment.end_time s) t) eqn:E.
  - destruct (IH _ _ H) as (segment & Hseg & Hle & Ht).
    exists segment. split; [| split; [lia | exact Ht]].
    replace (i - idx)%nat with (S (i - S idx)) by lia. exact Hseg.
  - injection H as <-. exists s. rewrite Nat.sub_diag.
    split; [reflexivity |]. split; [lia |]. now apply Qlt_bool_false.
Qed.

(** A scene change that is merged leaves every end time below a bound
    that held before. *)
Lemma merge_scene_change_ends_below (thr t : Q)
    (segments segments' : list SpeakerSegment.t) (idx idx' : nat) (u : Q) :
  Forall (fun s => (SpeakerSegment.end_time s < t)%Q) segments ->
  merge_scene_change thr (segments, idx) u = Ok (segments', idx') ->
  Forall (fun s => (SpeakerSegment.end_time s < t)%Q) segments'.
Proof.
  intros Hall H. unfold merge_scene_change in H.
  apply bind_Ok in H as (i & Hadv & H).
  apply advance_cursor_Ok in Hadv as (found & Hfound & Hle & Hu).
  rewrite lookup_drop in Hfound.
  replace (idx + (i - idx))%nat with i in Hfound by lia.
  apply bind_Ok in H as (segment & Hget & H).
  unfold list_get in Hget. rewrite Hfound in Hget. injection Hget as <-.
  assert (Hseg : (SpeakerSegment.end_time found < t)%Q)
    by (rewrite Forall_lookup in Hall; eauto).
  assert (Hut : (u < t)%Q) by lra.
  assert (Hend : Forall (fun s => (SpeakerSegment.end_time s < t)%Q)
                   (<[i := SpeakerSegment.set_end_time found u]> segments))
    by (apply Forall_insert; [exact Hall | exact Hut]).
  assert (Hstart : Forall (fun s => (SpeakerSegment.end_time s < t)%Q)
                     (<[i := SpeakerSegment.set_start_time found u]>
                        segments))
    by (apply Forall_insert; [exact Hall | exact Hseg]).
  destruct (_ && _).
  { destruct (_ =? _)%nat; [injection H as <- _; exact Hend |].
    apply bind_Ok in H as (next_segment & Hnext & H).
    injection H as <- _. apply Forall_insert; [exact Hend |].
    unfold list_get in Hnext.
    destruct (_ !! S i) as [next |] eqn:En; [| discriminate].
    injection Hnext as <-. rewrite Forall_lookup in Hend.
    exact (Hend _ _ En). }
  destruct (_ && _).
  { destruct i as [| prev_idx]; [injection H as <- _; exact Hstart |].
    apply bind_Ok in H as (prev_segment & Hprev & H).
    injection H as <- _. apply Forall_insert; [exact Hstart | exact Hut]. }
  destruct (Qeq_bool _ _); [injection H as <- _; exact Hall |].
  injection H as <- _.
  apply Forall_app. split; [now apply Forall_take |].
  cbn [app]. constructor; [exact Hseg | now apply Forall_drop].
Qed.

Lemma merge_scene_changes_past_end (thr t : Q) (scene_changes : list Q) :
  t ∈ scene_changes ->
  forall (segments : list SpeakerSegment.t) (idx : nat),
    Forall (fun s => (SpeakerSegment.end_time s < t)%Q) segments ->
    for_each (merge_scene_change thr) scene_changes (segments, idx)
    = Raise IndexError.
Proof.
  induction scene_changes as [| u scene_changes IH]; intros Hin segments
    idx Hall; [apply elem_of_nil in Hin; contradiction |].
  cbn [for_each].
  destruct (merge_scene_change_length thr segments idx u)
    as [(segments1 & idx1 & Hstep & _) | ->]; [| reflexivity].
  apply elem_of_cons in Hin as [<- | Hin].
  - exfalso. unfold merge_scene_change in Hstep.
    rewrite (advance_cursor_past_end (drop idx segments) idx t) in Hstep
      by (now apply Forall_drop).
    discriminate.
  - rewrite Hstep, bind_Ok_l. apply IH; [exact Hin |].
    eapply merge_scene_change_ends_below; eauto.
Qed.

(** X20: a scene change later than the end of every speaker segment (or
    any scene change when there is no segment), wherever it stands in the
    list of scene changes, makes the timeline merge raise
    [IndexError]. *)
Theorem timeline_merge_scene_change_past_end
    (speaker_segments : list SpeakerSegment.t) (scene_change_sec : Q)
    (scene_changes : list Q) (scene_merge_threshold : Q) :
  scene_change_sec ∈ scene_changes ->
  Forall (fun s => (SpeakerSegment.end_time s < scene_change_sec)%Q)
    speaker_segments ->
  _merge_scene_change_and_speaker_segments speaker_segments
    scene_changes scene_merge_threshold
  = Raise IndexError.
Proof.
  intros Hin H. unfold _merge_scene_change_and_speaker_segments.
  now rewrite (merge_scene_changes_past_end _ _ _ Hin _ _ H).
Qed.

Lemma timeline_merge_scene_change_past_end_witness :
  _merge_scene_change_and_speaker_segments
    [SpeakerSegment.mk [1] 0 4; SpeakerSegment.mk [2] 4 10]
    [3%Q; 12%Q] 0.25
  = Raise IndexError.
Proof.
  apply (timeline_merge_scene_change_past_end _ 12).
  - apply elem_of_cons. right. apply elem_of_cons. now left.
  - repeat constructor.
Defined.

(** X21: the timeline merge fails in one way only, with [IndexError]; when
    it returns, it has removed no segment and added at most one segment
    per scene change. *)
Theorem timeline_merge_length_or_index_error
    (speaker_segments : list SpeakerSegment.t) (scene_changes : list Q)
    (scene_merge_threshold : Q) :
  (exists merged,
     _merge_scene_change_and_speaker_segments speaker_segments
       scene_changes scene_merge_threshold = Ok merged
     /\ (length speaker_segments <= length merged
         <= length speaker_segments + length scene_changes)%nat)
  \/ _merge_scene_change_and_speaker_segments speaker_segments
       scene_changes scene_merge_threshold = Raise IndexError.
Proof.
  unfold _merge_scene_change_and_speaker_segments.
  destruct (merge_scene_changes_length scene_merge_threshold scene_changes
              speaker_segments 0%nat)
    as [(merged & idx & -> & Hlen) | ->]; [| now right].
  left. exists merged. split; [reflexivity | exact Hlen].
Qed.

(** X22: a scene change inside a segment, at least the merge threshold
    away from both of its ends, splits that segment in two at the scene
    change; both parts have its speakers, and the other segments are left
    as they are. *)
Theorem timeline_merge_splits_segment
    (pre post : list SpeakerSegment.t) (segment : SpeakerSegment.t)
    (scene_change_sec scene_merge_threshold : Q) :
  Forall (fun s => (SpeakerSegment.end_time s < scene_change_sec)%Q) pre ->
  (0 < scene_merge_threshold)%Q ->
  (SpeakerSegment.start_time segment + scene_merge_threshold
   <= scene_change_sec)%Q ->
  (scene_change_sec + scene_merge_threshold
   <= SpeakerSegment.end_time segment)%Q ->
  _merge_scene_change_and_speaker_segments (pre ++ segment :: post)
    [scene_change_sec] scene_merge_threshold
  = Ok (pre
        ++ SpeakerSegment.mk (SpeakerSegment.speakers segment)
             (SpeakerSegment.start_time segment) scene_change_sec
        :: SpeakerSegment.mk (SpeakerSegment.speakers segment)
             scene_change_sec (SpeakerSegment.end_time segment)
        :: post).
Proof.
  intros Hpre Hthr Hstart Hend.
  unfold _merge_scene_change_and_speaker_segments.
  cbn [for_each]. unfold merge_scene_change. rewrite drop_0.
  rewrite (advance_cursor_skips pre post segment 0 scene_change_sec Hpre)
    by lra.
  rewrite bind_Ok_l. cbn [Nat.add].
  rewrite list_get_middle, bind_Ok_l.
  assert (H1 : Qlt_bool (SpeakerSegment.end_time segment - scene_change_sec)
                 scene_merge_threshold = false)
    by (apply Qlt_bool_false; lra).
  assert (H2 : Qlt_bool (scene_change_sec - SpeakerSegment.start_time segment)
                 scene_merge_threshold = false)
    by (apply Qlt_bool_false; lra).
  assert (H3 : Qeq_bool scene_change_sec (SpeakerSegment.end_time segment)
               = false).
  { destruct (Qeq_bool _ _) eqn:E; [| reflexivity].
    apply Qeq_bool_iff in E. lra. }
  rewrite H1, H2, H3, !andb_false_r.
  rewrite list_insert_middle, take_after_middle, drop_after_middle.
  rewrite !bind_Ok_l. cbn [fst]. rewrite <- app_assoc. reflexivity.
Qed.

Lemma timeline_merge_splits_segment_witness :
  _merge_scene_change_and_speaker_segments
    ([SpeakerSegment.mk [1] 0 4] ++ SpeakerSegment.mk [2] 4 10 :: [])
    [7%Q] 0.25
  = Ok ([SpeakerSegment.mk [1] 0 4]
        ++ SpeakerSegment.mk [2] 4 7 :: SpeakerSegment.mk [2] 7 10 :: []).
Proof.
  apply (timeline_merge_splits_segment [SpeakerSegment.mk [1] 0 4] []
           (SpeakerSegment.mk [2] 4 10) 7 0.25).
  - repeat constructor.
  - reflexivity.
  - cbn. lra.
  - cbn. lra.
Defined.

(** ** SegmentCoalescer: the timeline and the fixed points *)

Lemma coalesce_timeline (video_width video_height : Z)
    (rest : list CropSegment.t) :
  forall current : CropSegment.t,
    let out := coalesce video_width video_height current rest in
    (length out <= S (length rest))%nat
    /\ head (CropSegment.start_time <$> out)
       = Some (CropSegment.start_time current)
    /\ last (CropSegment.end_time <$> out)
       = last (CropSegment.end_time <$> current :: rest)
    /\ (crop_chained (current :: rest) -> crop_chained out).
Proof.
  induction rest as [| next rest IH]; intros current; cbv zeta.
  - cbn. auto.
  - cbn [coalesce].
    destruct (similar video_width video_height current next).
    + destruct (IH (merged_segment current next))
        as (Hlen & Hhead & Hlast & Hchain).
      split; [cbn [length]; lia |]. split; [exact Hhead |].
      split.
      * rewrite Hlast. destruct rest; reflexivity.
      * intros [_ Hrest]. apply Hchain.
        destruct rest as [| b rest]; [cbn; auto |].
        cbn [crop_chained] in *. exact Hrest.
    + destruct (IH next) as (Hlen & Hhead & Hlast & Hchain).
      set (out := coalesce video_width video_height next rest) in *.
      split; [cbn [length]; lia |]. split; [reflexivity |].
      destruct out as [| o out]; [discriminate |].
      split.
      * rewrite !fmap_cons in *. rewrite last_cons_cons.
        rewrite Hlast. reflexivity.
      * intros [Hab Hrest]. specialize (Hchain Hrest).
        split; [| exact Hchain].
        cbn in Hhead. injection Hhead as Hhead.
        rewrite Hhead. exact Hab.
Qed.

(** X23: the coalescer keeps the timeline.  On well-formed segment dicts
    of a video of non-zero width and height it returns at most as many
    dicts as it was given, none only when given none; the first start
    time and the last end time are those of the input; and when each
    input dict ends where the next one starts, so does each output dict. *)
Theorem coalesce_keeps_timeline (video_width video_height : Z)
    (segments : list CropSegment.t) :
  video_width <> 0 -> video_height <> 0 ->
  Forall well_formed segments ->
  exists merged,
    _merge_identical_segments video_width video_height segments = Ok merged
    /\ (length merged <= length segments)%nat
    /\ (merged = [] <-> segments = [])
    /\ head (CropSegment.start_time <$> merged)
       = head (CropSegment.start_time <$> segments)
    /\ last (CropSegment.end_time <$> merged)
       = last (CropSegment.end_time <$> segments)
    /\ (crop_chained segments -> crop_chained merged).
Proof.
  intros Hw Hh Hwf.
  rewrite (merge_identical_segments_coalesce _ _ Hw Hh _ Hwf).
  destruct segments as [| first rest].
  - exists []. repeat split; auto.
  - destruct (coalesce_timeline video_width video_height rest first)
      as (Hlen & Hhead & Hlast & Hchain).
    eexists. split; [reflexivity |].
    split; [exact Hlen |]. split; [| auto].
    split; [| discriminate].
    intros E. rewrite E in Hhead. discriminate.
Qed.

Lemma coalesce_keeps_timeline_witness :
  exists merged,
    _merge_identical_segments 1000 1000
      [CropSegment.mk [1] 0 2 (Single 50 0);
       CropSegment.mk [2] 2 4 (Single 5 0);
       CropSegment.mk [2] 4 9 (Single 30 0)] = Ok merged
    /\ (length merged <= 3)%nat
    /\ (merged = [] <->
        [CropSegment.mk [1] 0 2 (Single 50 0);
         CropSegment.mk [2] 2 4 (Single 5 0);
         CropSegment.mk [2] 4 9 (Single 30 0)] = [])
    /\ head (CropSegment.start_time <$> merged) = Some 0%Q
    /\ last (CropSegment.end_time <$> merged) = Some 9%Q
    /\ (crop_chained
          [CropSegment.mk [1] 0 2 (Single 50 0);
           CropSegment.mk [2] 2 4 (Single 5 0);
           CropSegment.mk [2] 4 9 (Single 30 0)] -> crop_chained merged).
Proof.
  apply (coalesce_keeps_timeline 1000 1000
           [CropSegment.mk [1] 0 2 (Single 50 0);
            CropSegment.mk [2] 2 4 (Single 5 0);
            CropSegment.mk [2] 4 9 (Single 30 0)]);
    [lia | lia | repeat constructor].
Defined.

Lemma coalesce_fixed_iff (video_width video_height : Z)
    (rest : list CropSegment.t) :
  forall current : CropSegment.t,
    coalesce video_width video_height current rest = current :: rest
    <-> no_adjacent_similar video_width video_height (current :: rest).
Proof.
  induction rest as [| next rest IH]; intros current.
  - split; [| reflexivity]. intros _ [| i] a b Ha Hb; discriminate.
  - cbn [coalesce].
    destruct (similar video_width video_height current next) eqn:Hsim.
    + split.
      * intros E. apply (f_equal length) in E.
        pose proof (coalesce_timeline video_width video_height rest
                      (merged_segment current next)) as (Hlen & _).
        cbn [length] in E. lia.
      * intros H. specialize (H 0%nat current next eq_refl eq_refl).
        congruence.
    + split.
      * intros [= E]. apply IH in E.
        intros [| i] a b Ha Hb.
        -- injection Ha as <-. injection Hb as <-. exact Hsim.
        -- apply (E i a b Ha Hb).
      * intros H. f_equal. apply IH.
        intros i a b Ha Hb. apply (H (S i) a b Ha Hb).
Qed.

(** X24: the fixed points of the coalescer.  On well-formed segment dicts
    of a video of non-zero width and height it returns its input
    unchanged exactly when no dict is similar to the one that follows
    it. *)
Theorem coalesce_fixed_points (video_width video_height : Z)
    (segments : list CropSegment.t) :
  video_width <> 0 -> video_height <> 0 ->
  Forall well_formed segments ->
  _merge_identical_segments video_width video_height segments = Ok segments
  <-> no_adjacent_similar video_width video_height segments.
Proof.
  intros Hw Hh Hwf.
  rewrite (merge_identical_segments_coalesce _ _ Hw Hh _ Hwf).
  destruct segments as [| first rest].
  - split; [| reflexivity]. intros _ i a b Ha. discriminate.
  - rewrite <- coalesce_fixed_iff. split; [intros [= E]; exact E |].
    intros ->. reflexivity.
Qed.

Lemma coalesce_fixed_points_witness :
  _merge_identical_segments 1000 1000
    [CropSegment.mk [1] 0 2 (Single 50 0);
     CropSegment.mk [2] 2 4 (Single 5 0)]
  = Ok [CropSegment.mk [1] 0 2 (Single 50 0);
        CropSegment.mk [2] 2 4 (Single 5 0)]
  <-> no_adjacent_similar 1000 1000
        [CropSegment.mk [1] 0 2 (Single 50 0);
         CropSegment.mk [2] 2 4 (Single 5 0)].
Proof.
  apply coalesce_fixed_points; [lia | lia | repeat constructor].
Defined.

(** X25: on a video whose width is zero the coalescer raises
    [ZeroDivisionError] as soon as the first two segment dicts are both
    single crops. *)
Theorem coalesce_zero_width_raises (video_height : Z)
    (a b : CropSegment.t) (rest : list CropSegment.t) (xa ya xb yb : Z) :
  CropSegment.crop a = Single xa ya ->
  CropSegment.crop b = Single xb yb ->
  _merge_identical_segments 0 video_height (a :: b :: rest)
  = Raise ZeroDivisionError.
Proof.
  intros Ha Hb. unfold _merge_identical_segments.
  cbn [length]. rewrite while_loop_step.
  - unfold coalesce_body. cbn [list_get lookup list_lookup].
    unfold list_get. cbn [lookup list_lookup]. rewrite !bind_Ok_l.
    unfold CropSegment.crop_type, _are_single_crops_similar,
      CropSegment.x, CropSegment.y.
    rewrite Ha, Hb. cbn [String.eqb Ascii.eqb Bool.eqb negb].
    rewrite !bind_Ok_l. reflexivity.
  - unfold coalesce_cond. cbn [fst snd length]. apply Z.ltb_lt. lia.
Qed.

Lemma coalesce_zero_width_raises_witness :
  _merge_identical_segments 0 1080
    [CropSegment.mk [1] 0 2 (Single 50 0);
     CropSegment.mk [2] 2 4 (Single 5 0)]
  = Raise ZeroDivisionError.
Proof.
  apply (coalesce_zero_width_raises 1080 _ _ [] 50 0 5 0); reflexivity.
Defined.

(** ** [segment.py]: equality, copies and dicts *)

Lemma option_eqb_eq (a b : option Z) : option_eqb a b = true <-> a = b.
Proof.
  destruct a as [x |], b as [y |]; cbn; try (split; congruence).
  rewrite Z.eqb_eq. split; congruence.
Qed.

Lemma Qeq_bool_true_compat (a b c : Q) :
  Qeq_bool a b = true -> Qeq_bool a c = Qeq_bool b c.
Proof.
  intros Hab. apply Qeq_bool_iff in Hab.
  destruct (Qeq_bool b c) eqn:E.
  - apply Qeq_bool_iff in E. apply Qeq_bool_iff. now rewrite Hab.
  - destruct (Qeq_bool a c) eqn:E'; [| reflexivity].
    apply Qeq_bool_iff in E'. rewrite Hab in E'.
    apply Qeq_bool_iff in E'. congruence.
Qed.

(** [__eq__] on two segments, field by field. *)
Lemma segment_eq_fields (a b : Segment.t) :
  SegmentMethods.__eq__ a (SegmentObject b) = true
  <-> Segment.speakers a = Segment.speakers b
      /\ (Segment.start_time a == Segment.start_time b)%Q
      /\ (Segment.end_time a == Segment.end_time b)%Q
      /\ Segment.x a = Segment.x b /\ Segment.y a = Segment.y b
      /\ Segment.width a = Segment.width b
      /\ Segment.height a = Segment.height b
      /\ Segment.target_x a = Segment.target_x b
      /\ Segment.target_y a = Segment.target_y b.
Proof.
  unfold SegmentMethods.__eq__.
  rewrite !andb_true_iff, bool_decide_eq_true, !Qeq_bool_iff, !Z.eqb_eq,
    !option_eqb_eq.
  tauto.
Qed.

(** X26: [Segment.__eq__] is an equivalence on segments (times compared
    as numbers); a segment equals its copy and no object of another type;
    [__ne__] is its negation; and equal segments have the same
    truthiness. *)
Theorem segment_eq_equivalence (a b c : Segment.t) :
  SegmentMethods.__eq__ a (SegmentObject a) = true
  /\ SegmentMethods.__eq__ a (SegmentObject b)
     = SegmentMethods.__eq__ b (SegmentObject a)
  /\ (SegmentMethods.__eq__ a (SegmentObject b) = true ->
      SegmentMethods.__eq__ b (SegmentObject c) = true ->
      SegmentMethods.__eq__ a (SegmentObject c) = true)
  /\ SegmentMethods.__eq__ a (SegmentObject (SegmentMethods.copy a)) = true
  /\ SegmentMethods.__eq__ a OtherObject = false
  /\ (SegmentMethods.__eq__ a (SegmentObject b) = true ->
      SegmentMethods.__ne__ a (SegmentObject b) = false
      /\ Segment.__bool__ a = Segment.__bool__ b).
Proof.
  assert (Hrefl : forall s,
            SegmentMethods.__eq__ s (SegmentObject s) = true).
  { intros s. apply segment_eq_fields. repeat split; reflexivity. }
  assert (Hsym : forall s t,
            SegmentMethods.__eq__ s (SegmentObject t) = true ->
            SegmentMethods.__eq__ t (SegmentObject s) = true).
  { intros s t H. apply segment_eq_fields in H.
    apply segment_eq_fields. intuition (auto; symmetry; auto). }
  split; [apply Hrefl |]. split; [| split; [| split; [| split]]].
  - destruct (SegmentMethods.__eq__ a (SegmentObject b)) eqn:E.
    + symmetry. now apply Hsym.
    + destruct (SegmentMethods.__eq__ b (SegmentObject a)) eqn:E';
        [| reflexivity].
      apply Hsym in E'. congruence.
  - intros Hab Hbc. apply segment_eq_fields in Hab, Hbc.
    apply segment_eq_fields.
    destruct Hab as (? & Hs & He & ? & ? & ? & ? & ? & ?).
    destruct Hbc as (? & Hs' & He' & ? & ? & ? & ? & ? & ?).
    repeat split; try congruence.
    + now rewrite Hs.
    + now rewrite He.
  - apply segment_eq_fields. destruct a. cbn. repeat split; reflexivity.
  - reflexivity.
  - intros Hab. unfold SegmentMethods.__ne__. rewrite Hab.
    split; [reflexivity |].
    apply segment_eq_fields in Hab
      as (Hsp & Hs & He & Hx & Hy & _).
    unfold Segment.__bool__. rewrite Hsp, Hx, Hy.
    apply Qeq_bool_iff in Hs, He.
    rewrite (Qeq_bool_true_compat _ _ 0 Hs).
    rewrite (Qeq_bool_true_compat _ _ 0 He). reflexivity.
Qed.

Lemma to_dict_lookup (s : Segment.t) :
  SegmentMethods.to_dict s !! "speakers" = Some (VList (Segment.speakers s))
  /\ SegmentMethods.to_dict s !! "start_time"
     = Some (VFloat (Segment.start_time s))
  /\ SegmentMethods.to_dict s !! "end_time"
     = Some (VFloat (Segment.end_time s))
  /\ SegmentMethods.to_dict s !! "x" = Some (VInt (Segment.x s))
  /\ SegmentMethods.to_dict s !! "y" = Some (VInt (Segment.y s))
  /\ SegmentMethods.to_dict s !! "width" = VInt <$> Segment.width s
  /\ SegmentMethods.to_dict s !! "height" = VInt <$> Segment.height s
  /\ SegmentMethods.to_dict s !! "target_x" = VInt <$> Segment.target_x s
  /\ SegmentMethods.to_dict s !! "target_y" = VInt <$> Segment.target_y s.
Proof.
  unfold SegmentMethods.to_dict, SegmentMethods.set_if_not_None.
  destruct (Segment.width s), (Segment.height s), (Segment.target_x s),
    (Segment.target_y s); cbv zeta;
    repeat split; dict_lookup; reflexivity.
Qed.

(** X27: the dict of [Segment.to_dict] holds every field under its name,
    an optional field exactly when it is not [None], and nothing else
    distinguishes two segments: segments with the same dict are the
    same. *)
Theorem to_dict_faithful (a b : Segment.t) :
  (SegmentMethods.to_dict a = SegmentMethods.to_dict b <-> a = b)
  /\ SegmentMethods.to_dict a !! "x" = Some (VInt (Segment.x a))
  /\ SegmentMethods.to_dict a !! "y" = Some (VInt (Segment.y a))
  /\ (is_Some (SegmentMethods.to_dict a !! "width")
      <-> is_Some (Segment.width a))
  /\ (is_Some (SegmentMethods.to_dict a !! "height")
      <-> is_Some (Segment.height a))
  /\ (is_Some (SegmentMethods.to_dict a !! "target_x")
      <-> is_Some (Segment.target_x a))
  /\ (is_Some (SegmentMethods.to_dict a !! "target_y")
      <-> is_Some (Segment.target_y a)).
Proof.
  destruct (to_dict_lookup a)
    as (Ha1 & Ha2 & Ha3 & Ha4 & Ha5 & Ha6 & Ha7 & Ha8 & Ha9).
  split; [| split; [exact Ha4 | split; [exact Ha5 |]]].
  - split; [| now intros ->]. intros E.
    destruct (to_dict_lookup b)
      as (Hb1 & Hb2 & Hb3 & Hb4 & Hb5 & Hb6 & Hb7 & Hb8 & Hb9).
    rewrite E in Ha1, Ha2, Ha3, Ha4, Ha5, Ha6, Ha7, Ha8, Ha9.
    destruct a as [sa ta ea xa ya wa ha txa tya],
             b as [sb tb eb xb yb wb hb txb tyb].
    cbn [Segment.speakers Segment.start_time Segment.end_time Segment.x
         Segment.y Segment.width Segment.height Segment.target_x
         Segment.target_y] in *.
    assert (Hopt : forall u v : option Z, VInt <$> u = VInt <$> v -> u = v).
    { intros [u |] [v |] H; cbn in H; congruence. }
    f_equal; try congruence; apply Hopt; congruence.
  - rewrite Ha6, Ha7, Ha8, Ha9. rewrite !fmap_is_Some. tauto.
Qed.

(** ** The batches of the crop calculation *)

Lemma batches_loop_chunks
    (add_batch : list FaceSegment.t -> result (list CropSegment.t))
    (segments : list FaceSegment.t) (segments_per_batch : nat) :
  (0 < segments_per_batch)%nat ->
  forall k i : nat,
    (length segments <= (i + k) * segments_per_batch)%nat ->
    exists batches,
      concat batches = drop (i * segments_per_batch) segments
      /\ Forall (fun batch => batch <> []) batches
      /\ forall acc,
           batches_loop add_batch segments (Z.of_nat segments_per_batch)
             (Z.of_nat <$> seq i k) acc
           = (outs ← mapM add_batch batches; Ok (acc ++ concat outs)).
Proof.
  intros Hspb. induction k as [| k IH]; intros i Hlen.
  - exists []. rewrite drop_ge by lia. split; [reflexivity |].
    split; [constructor |]. intros acc. cbn. now rewrite app_nil_r.
  - cbn [seq fmap list_fmap batches_loop].
    replace (Z.to_nat (Z.of_nat i * Z.of_nat segments_per_batch))
      with (i * segments_per_batch)%nat by lia.
    replace (Z.to_nat (Z.min ((Z.of_nat i + 1) * Z.of_nat segments_per_batch)
                         (Z.of_nat (length segments))))
      with (Nat.min (S i * segments_per_batch) (length segments)) by lia.
    destruct (py_slice _ _ segments) as [| c cs] eqn:Hcur.
    + exists []. split; [| split; [constructor |]].
      * apply (f_equal length) in Hcur. rewrite length_py_slice in Hcur.
        cbn [length] in Hcur. rewrite drop_ge; [reflexivity | lia].
      * intros acc. cbn. now rewrite app_nil_r.
    + destruct (IH (S i)) as (batches & Hcat & Hne & Hrun); [lia |].
      exists ((c :: cs) :: batches). split; [| split].
      * cbn [concat]. rewrite <- Hcur, Hcat. unfold py_slice.
        destruct (Nat.le_gt_cases (S i * segments_per_batch)
                    (length segments)) as [Hle | Hgt].
        -- replace (Nat.min (S i * segments_per_batch) (length segments)
                    - i * segments_per_batch)%nat
             with segments_per_batch by lia.
           replace (S i * segments_per_batch)%nat
             with (i * segments_per_batch + segments_per_batch)%nat by lia.
           rewrite <- drop_drop. apply take_drop.
        -- rewrite (drop_ge segments (S i * segments_per_batch)) by lia.
           rewrite app_nil_r. apply take_ge.
           rewrite length_drop. lia.
      * constructor; [discriminate | exact Hne].
      * intros acc. cbn [mapM].
        destruct (add_batch (c :: cs)) as [new | e |]; [| reflexivity ..].
        rewrite !bind_Ok_l, Hrun.
        destruct (mapM add_batch batches) as [outs | e |];
          [| reflexivity ..].
        rewrite !bind_Ok_l. cbn [concat]. now rewrite app_assoc.
Qed.

(** X28: batching is invisible.  With behaving collaborators (image sizes
    not negative, free memory, a positive detection width),
    [_add_x_y_coords_to_each_segment] cuts the segments into consecutive
    non-empty batches that together are the segment list, runs the batch
    step on each in order and concatenates the results; no segment is
    skipped or processed twice. *)
Theorem add_x_y_coords_batches_partition
    (calc_img_bytes : Z -> Z -> Z -> Z)
    (vid_height vid_width free_cpu_memory : Z) (cuda_is_available : bool)
    (add_batch : list FaceSegment.t -> result (list CropSegment.t))
    (samples_per_segment face_detect_width n_face_detect_batches : Z)
    (segments : list FaceSegment.t) :
  (forall h w c, 0 <= h -> 0 <= w -> 0 <= c -> 0 <= calc_img_bytes h w c) ->
  0 <= vid_height -> 0 <= vid_width -> 0 < free_cpu_memory ->
  0 < face_detect_width -> 0 <= samples_per_segment ->
  exists batches,
    concat batches = segments
    /\ Forall (fun batch => batch <> []) batches
    /\ _add_x_y_coords_to_each_segment calc_img_bytes vid_height vid_width
         free_cpu_memory cuda_is_available add_batch samples_per_segment
         face_detect_width n_face_detect_batches segments
       = (outs ← mapM add_batch batches; Ok (concat outs)).
Proof.
  intros Hbytes Hh Hw Hfree Hfdw Hsamples.
  unfold _add_x_y_coords_to_each_segment.
  destruct (calc_n_batches_Ok calc_img_bytes Hbytes vid_height vid_width
              free_cpu_memory cuda_is_available
              (Z.of_nat (length segments) * samples_per_segment)
              face_detect_width n_face_detect_batches Hh Hw ltac:(nia)
              Hfdw Hfree)
    as (n & -> & Hn).
  rewrite bind_Ok_l, py_floordiv_Ok, bind_Ok_l by lia.
  set (q := Z.of_nat (length segments) / n).
  assert (Hq : 0 <= q) by (apply Z.div_pos; lia).
  pose proof (Z.mul_succ_div_gt (Z.of_nat (length segments)) n
                ltac:(lia)) as Hgt.
  fold q in Hgt.
  destruct (batches_loop_chunks add_batch segments (Z.to_nat (q + 1))
              ltac:(lia) (Z.to_nat n) 0%nat)
    as (batches & Hcat & Hne & Hrun); [nia |].
  exists batches. split; [exact Hcat |]. split; [exact Hne |].
  unfold range.
  replace (q + 1) with (Z.of_nat (Z.to_nat (q + 1))) by lia.
  rewrite Hrun. reflexivity.
Qed.

Lemma add_x_y_coords_batches_partition_witness :
  exists batches,
    concat batches
    = [FaceSegment.mk (SpeakerSegment.mk [1] 0 4) 0.5 true 3;
       FaceSegment.mk (SpeakerSegment.mk [2] 4 9) 4.625 false 0]
    /\ Forall (fun batch => batch <> []) batches
    /\ _add_x_y_coords_to_each_segment (fun h w c => h * w * c) 1080 1920
         100000000 true
         (add_x_y_coords_loop 1920 1080 607 1080
            [Some [(900, 300, 1100, 560)]; Some [(904, 298, 1104, 562)];
             None])
         13 960 8
         [FaceSegment.mk (SpeakerSegment.mk [1] 0 4) 0.5 true 3;
          FaceSegment.mk (SpeakerSegment.mk [2] 4 9) 4.625 false 0]
       = (outs ← mapM
                   (add_x_y_coords_loop 1920 1080 607 1080
                      [Some [(900, 300, 1100, 560)];
                       Some [(904, 298, 1104, 562)]; None])
                   batches;
          Ok (concat outs)).
Proof.
  apply (add_x_y_coords_batches_partition (fun h w c => h * w * c));
    [intros; nia | lia | lia | lia | lia | lia].
Defined.

(** ** The single-ROI variant *)

Lemma all_boxes_cons (fd : face_detection)
    (face_detections : list face_detection) :
  all_boxes (fd :: face_detections)
  = default [] fd ++ all_boxes face_detections.
Proof. reflexivity. Qed.

Lemma max_faces_cons (fd : face_detection)
    (face_detections : list face_detection) :
  max_faces (fd :: face_detections)
  = Nat.max (length (default [] fd)) (max_faces face_detections).
Proof. reflexivity. Qed.

Lemma collect_boxes (face_detections : list face_detection) :
  forall (bounding_boxes : list bbox) (k : nat),
    foldl (fun '(bounding_boxes, k) (face_detection : face_detection) =>
             match face_detection with
             | None => (bounding_boxes, k)
             | Some boxes =>
                 (bounding_boxes ++ boxes, Nat.max k (length boxes))
             end)
      (bounding_boxes, k) face_detections
    = (bounding_boxes ++ all_boxes face_detections,
       Nat.max k (max_faces face_detections)).
Proof.
  induction face_detections as [| fd fds IH]; intros bounding_boxes k.
  - unfold all_boxes, max_faces. cbn [flat_map foldr].
    now rewrite app_nil_r, Nat.max_0_r.
  - cbn [foldl]. rewrite all_boxes_cons, max_faces_cons.
    destruct fd as [boxes |]; rewrite IH; cbn [default from_option length];
      unfold id.
    + rewrite <- app_assoc. f_equal. lia.
    + cbn [app]. f_equal.
Qed.

Lemma py_int_quot (a b : Z) :
  0 < b -> py_int (inject_Z a / inject_Z b) = Z.quot a b.
Proof.
  intros Hb. destruct b as [| p | p]; try lia.
  unfold py_int. cbn. now rewrite Z.mul_1_r.
Qed.

Lemma mean_int_replicate (n : nat) (x : Z) :
  (0 < n)%nat -> mean_int (replicate n x) = x.
Proof.
  intros Hn. unfold mean_int. cbv zeta. rewrite length_replicate.
  rewrite py_int_quot by lia.
  assert (Hsum : foldr Z.add 0 (replicate n x) = x * Z.of_nat n).
  { clear Hn. induction n as [| n IH]; [cbn; lia |].
    cbn [replicate foldr]. rewrite IH. lia. }
  rewrite Hsum. apply Z.quot_mul. lia.
Qed.

Lemma stationary_boxes (box : bbox) (face_detections : list face_detection) :
  Forall (fun fd => fd = None \/ fd = Some [box]) face_detections ->
  exists n,
    all_boxes face_detections = replicate n box
    /\ max_faces face_detections = Nat.min n 1
    /\ (Exists (fun fd => fd = Some [box]) face_detections -> (0 < n)%nat).
Proof.
  induction 1 as [| fd fds [-> | ->] _ (n & Hall & Hmax & Hpos)].
  - exists 0%nat. split; [reflexivity |]. split; [reflexivity |].
    intros H. apply Exists_nil in H. contradiction.
  - exists n. split; [exact Hall |]. split; [exact Hmax |].
    intros H. apply Exists_cons in H as [H | H]; [discriminate | auto].
  - exists (S n). rewrite all_boxes_cons, max_faces_cons, Hall, Hmax.
    cbn [default from_option length app replicate]. unfold id.
    cbn [length app].
    split; [reflexivity |]. split; lia.
Qed.

(** X29: the single-ROI variant raises [ResizerError] when no frame has a
    face, whatever the branch for several faces would do; and when the
    frames with a face all show the same single box, the ROI is that
    box. *)
Theorem calc_segment_roi_no_face_or_one
    (most_active_roi : list face_detection -> result Rect.t)
    (face_detections : list face_detection) (x1 y1 x2 y2 : Z) :
  (Forall (fun fd => fd = None \/ fd = Some []) face_detections ->
   _calc_segment_roi most_active_roi face_detections
   = Raise (ResizerError "No faces detected in segment."))
  /\ (Forall (fun fd => fd = None \/ fd = Some [(x1, y1, x2, y2)])
        face_detections ->
      Exists (fun fd => fd = Some [(x1, y1, x2, y2)]) face_detections ->
      _calc_segment_roi most_active_roi face_detections
      = Ok (Rect.mk x1 y1 (x2 - x1) (y2 - y1))).
Proof.
  unfold _calc_segment_roi. rewrite collect_boxes. split.
  - intros H.
    assert (Hk : max_faces face_detections = 0%nat).
    { induction H as [| fd fds [-> | ->] _ IH]; [reflexivity | |];
        rewrite max_faces_cons, IH; reflexivity. }
    rewrite Hk. reflexivity.
  - intros Hall Hsome.
    destruct (stationary_boxes _ _ Hall) as (n & Hboxes & Hk & Hpos).
    specialize (Hpos Hsome). rewrite Hboxes, Hk.
    replace (Nat.max 0 (Nat.min n 1)) with 1%nat by lia.
    cbn [Nat.eqb app]. rewrite !fmap_replicate.
    rewrite !mean_int_replicate by exact Hpos. reflexivity.
Qed.

Lemma calc_segment_roi_no_face_or_one_witness :
  _calc_segment_roi (fun _ => Raise IndexError) [None; Some []]
  = Raise (ResizerError "No faces detected in segment.")
  /\ _calc_segment_roi (fun _ => Raise IndexError)
       [None; Some [(900, 300, 1100, 560)]; Some [(900, 300, 1100, 560)]]
     = Ok (Rect.mk 900 300 (1100 - 900) (560 - 300)).
Proof.
  split.
  - apply (calc_segment_roi_no_face_or_one (fun _ => Raise IndexError)
             [None; Some []] 0 0 0 0).
    apply Forall_cons; split; [now left |].
    apply Forall_cons; split; [now right | constructor].
  - apply (calc_segment_roi_no_face_or_one (fun _ => Raise IndexError)
             [None; Some [(900, 300, 1100, 560)];
              Some [(900, 300, 1100, 560)]] 900 300 1100 560).
    + apply Forall_cons; split; [now left |].
      apply Forall_cons; split; [now right |].
      apply Forall_cons; split; [now right | constructor].
    + apply Exists_cons. right. apply Exists_cons. left. reflexivity.
Defined.

(** ** FacePresenceScanner: where the cursor can be *)

Lemma whole_seconds_round (segments : list SpeakerSegment.t)
    (scanned scanned' : list ScanSegment.t) :
  Forall2 (fun s0 s => ScanSegment.seg s = s0 /\ whole_seconds_on s0 s)
    segments scanned ->
  Forall2 scanned_in_round scanned scanned' ->
  Forall2 (fun s0 s => ScanSegment.seg s = s0 /\ whole_seconds_on s0 s)
    segments scanned'.
Proof.
  intros H. revert scanned'.
  induction H as [| s0 s segments scanned [Hseg [n Hn]] _ IH];
    intros scanned' Hround;
    inversion Hround as [| ? s' ? rest Hs Hrest]; subst; constructor.
  - unfold scanned_in_round in Hs.
    destruct (ScanSegment.is_analyzed s).
    + subst s'. split; [reflexivity | now exists n].
    + destruct Hs as (Hseg' & _ & (no_face & _ & Hmove & _) & _).
      split; [exact Hseg' |].
      exists (n + no_face)%nat. rewrite Hmove, Hn.
      rewrite Nat2Z.inj_add, inject_Z_plus. ring.
  - now apply IH.
Qed.

Lemma whole_seconds_init (segments : list SpeakerSegment.t) :
  Forall2 (fun s0 s => ScanSegment.seg s = s0 /\ whole_seconds_on s0 s)
    segments (init_segment <$> segments).
Proof.
  apply Forall2_fmap_r, Forall_Forall2_diag, Forall_forall.
  intros s _. split; [reflexivity |]. exists 0%nat. cbn. ring.
Qed.

(** The timestamps taken from a segment start at its cursor. *)
Lemma sample_times_from_eighth (batch_period : Z) (s0 : SpeakerSegment.t)
    (s : ScanSegment.t) :
  whole_seconds_on s0 s ->
  Forall (from_eighth s0) (sample_times batch_period s).
Proof.
  intros [n Hn]. apply Forall_lookup. intros i t Ht.
  destruct (ScanSegment.is_analyzed s) eqn:E.
  - unfold sample_times in Ht. rewrite E in Ht. discriminate.
  - destruct (sample_times_from_cursor batch_period s E) as [_ Hat].
    rewrite (Hat i t Ht). exists (n + i)%nat. rewrite Hn.
    unfold sample_period. rewrite Z.mul_1_r.
    rewrite Nat2Z.inj_add, inject_Z_plus. ring.
Qed.

(** X30: the scanner never looks at the first eighth of a segment.  In
    every state the loop goes through, the cursor of each segment is an
    eighth of the way through the segment plus a whole number of seconds,
    and so is every timestamp the round selects from the segment for the
    detector.  With behaving collaborators and enough rounds the scanner
    returns one entry per segment, in order, with such a cursor. *)
Theorem scanner_cursor_positions (calc_img_bytes : Z -> Z -> Z -> Z)
    (vid_height vid_width free_cpu_memory : Z) (cuda_is_available : bool)
    (detect : list Q -> list bool)
    (face_detect_width n_face_detect_batches : Z)
    (rounds : nat) (segments : list SpeakerSegment.t) :
  (forall scanned batch_period analyzed_segments,
     iterates scan_cond
       (scan_round calc_img_bytes vid_height vid_width free_cpu_memory
          cuda_is_available detect face_detect_width n_face_detect_batches)
       (init_segment <$> segments, 1, 0)
       (scanned, batch_period, analyzed_segments) ->
     snd (foldl (select_times batch_period) ([], []) scanned)
     = concat (sample_times batch_period <$> scanned)
     /\ Forall2 (fun s0 s =>
                   ScanSegment.seg s = s0 /\ whole_seconds_on s0 s
                   /\ Forall (from_eighth s0) (sample_times batch_period s))
          segments scanned)
  /\ (collaborators_behave calc_img_bytes vid_height vid_width
        free_cpu_memory detect face_detect_width ->
      (rounds_bound (init_segment <$> segments) <= rounds)%nat ->
      exists scanned,
        _find_first_sec_with_face_for_each_segment calc_img_bytes
          vid_height vid_width free_cpu_memory cuda_is_available detect
          face_detect_width n_face_detect_batches rounds segments
        = Ok scanned
        /\ Forall2 (fun s0 s =>
                      ScanSegment.seg s = s0 /\ whole_seconds_on s0 s)
             segments scanned).
Proof.
  assert (Hinv : forall st,
            iterates scan_cond
              (scan_round calc_img_bytes vid_height vid_width
                 free_cpu_memory cuda_is_available detect face_detect_width
                 n_face_detect_batches)
              (init_segment <$> segments, 1, 0) st ->
            Forall2 (fun s0 s =>
                       ScanSegment.seg s = s0 /\ whole_seconds_on s0 s)
              segments (fst (fst st))).
  { intros st H. induction H as [| [[sc1 bp1] an1] st2 _ IH _ Hrun].
    - apply whole_seconds_init.
    - apply scan_round_progress in Hrun as (scanned' & -> & Hround).
      cbn [fst] in *. eapply whole_seconds_round; eauto. }
  split.
  - intros scanned bp an Hit. split.
    + now rewrite select_times_spec.
    + specialize (Hinv _ Hit). cbn [fst] in Hinv.
      eapply Forall2_impl; [exact Hinv |]. cbn.
      intros s0 s [Hseg Hwhole]. split; [exact Hseg |].
      split; [exact Hwhole | now apply sample_times_from_eighth].
  - intros Hgood Hrounds.
    unfold _find_first_sec_with_face_for_each_segment.
    destruct (while_loop_total (scan_invariant segments)
                (fun st => rounds_bound (fst (fst st)))
                scan_cond
                (scan_round calc_img_bytes vid_height vid_width
                   free_cpu_memory cuda_is_available detect
                   face_detect_width n_face_detect_batches))
      with (fuel := rounds) (s := (init_segment <$> segments, 1, 0))
      as ([[scanned bp] an] & Hrun & _ & _).
    + intros st Hinv' Hcond.
      destruct (scan_round_Ok calc_img_bytes vid_height vid_width
                  free_cpu_memory cuda_is_available detect face_detect_width
                  n_face_detect_batches st Hgood) as [st' Hrun].
      exists st'. split; [exact Hrun |].
      eapply scan_invariant_round; eassumption.
    + apply scan_invariant_init.
    + exact Hrounds.
    + destruct (while_loop_iterates _ _ _ _ _ Hrun) as [Hit _].
      rewrite Hrun, bind_Ok_l. exists scanned.
      split; [reflexivity |]. exact (Hinv _ Hit).
Qed.

Lemma scanner_cursor_positions_witness :
  exists scanned,
    _find_first_sec_with_face_for_each_segment
      (fun h w c => h * w * c) 1080 1920 (2 ^ 30) false
      (fmap (fun t => Qle_bool 5 t)) 960 8 14
      [SpeakerSegment.mk [1] 0 10; SpeakerSegment.mk [2] 10 12]
    = Ok scanned
    /\ Forall2 (fun s0 s => ScanSegment.seg s = s0 /\ whole_seconds_on s0 s)
         [SpeakerSegment.mk [1] 0 10; SpeakerSegment.mk [2] 10 12]
         scanned.
Proof.
  destruct (scanner_cursor_positions (fun h w c => h * w * c) 1080 1920
              (2 ^ 30) false (fmap (fun t => Qle_bool 5 t)) 960 8 14
              [SpeakerSegment.mk [1] 0 10; SpeakerSegment.mk [2] 10 12])
    as [_ Hreturns].
  apply Hreturns.
  - split; [exact product_bytes_nonneg |].
    split; [lia |]. split; [lia |]. split; [lia |]. split; [lia |].
    intros secs. apply length_fmap.
  - vm_compute. lia.
Defined.
